(** * Canine: a shallow embedding of the localizer, the orchestrator and the
    command line merge, with the properties of the specification checked
    against them.

    Python dictionaries that come from the configuration or are iterated in
    order ([inputs], [overrides], the per-task records, configuration
    mappings) are association lists with Python's update rule (an existing
    key keeps its position); dictionaries and sets that are only looked up
    or whose iteration order Python leaves open ([common_dests], [seen],
    [common_inputs], [waiting_jobs], the accounting table, the file systems)
    are stdpp's [gmap] and [gset].  Exceptions and side effects are threaded
    by a state-and-error monad over a [World] that holds the two file
    systems and the trace of outward calls.  Progress messages on standard
    output and the pauses of the poll loop are left out. *)

From Stdlib Require Import Ascii String Decimal DecimalString DecimalNat.
From stdpp Require Import base gmap sets list strings.

Set Warnings "-register-all,-clear-no-such-hyp".


Local Open Scope list_scope.

(** ** Python strings *)

Module Str.

Fixpoint startswith (pre s : string) : bool :=
  match pre, s with
  | EmptyString, _ => true
  | String a pre', String b s' => bool_decide (a = b) && startswith pre' s'
  | String _ _, EmptyString => false
  end.

Fixpoint endswith_char (c : ascii) (s : string) : bool :=
  match s with
  | EmptyString => false
  | String a EmptyString => bool_decide (a = c)
  | String _ r => endswith_char c r
  end.

Fixpoint contains_char (c : ascii) (s : string) : bool :=
  match s with
  | EmptyString => false
  | String a r => bool_decide (a = c) || contains_char c r
  end.

Fixpoint all_chars (p : ascii -> bool) (s : string) : bool :=
  match s with
  | EmptyString => true
  | String a r => p a && all_chars p r
  end.


(** [rsplit_at c s] is [Some (s[:i], s[i+1:])] for [i = s.rfind(c)], and
    [None] when [c] does not occur. *)
Fixpoint rsplit_at (c : ascii) (s : string) : option (string * string) :=
  match s with
  | EmptyString => None
  | String a r =>
      match rsplit_at c r with
      | Some (h, t) => Some (String a h, t)
      | None => if bool_decide (a = c) then Some (EmptyString, r) else None
      end
  end.

(** [s.split(c)] for a one-character separator. *)
Fixpoint split (c : ascii) (s : string) : list string :=
  match s with
  | EmptyString => [EmptyString]
  | String a r =>
      if bool_decide (a = c) then EmptyString :: split c r
      else match split c r with
           | x :: xs => String a x :: xs
           | [] => [String a EmptyString]
           end
  end.

(** [s.rstrip(c)]: the trailing run of [c] is dropped. *)
Fixpoint rstrip_char (c : ascii) (s : string) : string :=
  match s with
  | EmptyString => EmptyString
  | String a r =>
      match rstrip_char c r with
      | EmptyString => if bool_decide (a = c) then EmptyString else String a EmptyString
      | r' => String a r'
      end
  end.

(** [sep.join(l)] *)
Fixpoint join (sep : string) (l : list string) : string :=
  match l with
  | [] => ""
  | [x] => x
  | x :: xs => x +:+ sep +:+ join sep xs
  end.

(** [s.replace(c, by)] for a one-character pattern. *)
Fixpoint replace_char (c : ascii) (by_ : string) (s : string) : string :=
  match s with
  | EmptyString => EmptyString
  | String a r =>
      if bool_decide (a = c) then by_ +:+ replace_char c by_ r
      else String a (replace_char c by_ r)
  end.

Definition is_upper (a : ascii) : bool :=
  let n := nat_of_ascii a in (65 <=? n)%nat && (n <=? 90)%nat.
Definition is_lower (a : ascii) : bool :=
  let n := nat_of_ascii a in (97 <=? n)%nat && (n <=? 122)%nat.
Definition is_digit (a : ascii) : bool :=
  let n := nat_of_ascii a in (48 <=? n)%nat && (n <=? 57)%nat.

Definition lower_char (a : ascii) : ascii :=
  if is_upper a then ascii_of_nat (nat_of_ascii a + 32) else a.

(** [s.lower()] on ASCII text. *)
Fixpoint lower (s : string) : string :=
  match s with
  | EmptyString => EmptyString
  | String a r => String (lower_char a) (lower r)
  end.

(** [c.isspace()] on ASCII: tab to carriage return, the four separators
    from 28 to 31, and the space. *)
Definition is_space (a : ascii) : bool :=
  let n := nat_of_ascii a in
  ((9 <=? n)%nat && (n <=? 13)%nat) || ((28 <=? n)%nat && (n <=? 32)%nat).

(** Trailing white space, as [str.rstrip()] without argument removes it. *)
Fixpoint rstrip (s : string) : string :=
  match s with
  | EmptyString => EmptyString
  | String a r =>
      match rstrip r with
      | EmptyString => if is_space a then EmptyString else String a EmptyString
      | r' => String a r'
      end
  end.

(** [str(n)] for a natural number. *)
Definition of_nat (n : nat) : string := NilEmpty.string_of_uint (Nat.to_uint n).

End Str.

(** ** [os.path] on POSIX *)

Module posixpath.

Definition sep : ascii := "/"%char.

(** One step of [os.path.join]: an absolute component restarts the path. *)
Definition join2 (path b : string) : string :=
  if Str.startswith "/" b then b
  else if bool_decide (path = "") || Str.endswith_char sep path then path +:+ b
  else path +:+ "/" +:+ b.

Definition join (a : string) (p : list string) : string := foldl join2 a p.

Definition basename (p : string) : string :=
  match Str.rsplit_at sep p with
  | Some (_, t) => t
  | None => p
  end.

Definition dirname (p : string) : string :=
  match Str.rsplit_at sep p with
  | Some (h, _) =>
      let head := h +:+ "/" in
      if Str.all_chars (fun a => bool_decide (a = sep)) head then head
      else Str.rstrip_char sep head
  | None => ""
  end.

(** [os.path.splitext]: the extension starts at the last dot of the last
    component, unless only dots precede it there. *)
Definition splitext (p : string) : string * string :=
  let '(dir, name) :=
    match Str.rsplit_at sep p with
    | Some (h, t) => (h +:+ "/", t)
    | None => ("", p)
    end in
  match Str.rsplit_at "."%char name with
  | Some (pre, ext) =>
      if Str.all_chars (fun a => bool_decide (a = "."%char)) pre then (p, "")
      else (dir +:+ pre, "." +:+ ext)
  | None => (p, "")
  end.

End posixpath.

(** ** [shlex.quote] *)

Module shlex.

(** The characters [shlex] leaves alone: [\w@%+=:,./-] in ASCII. *)
Definition safe_char (a : ascii) : bool :=
  Str.is_upper a || Str.is_lower a || Str.is_digit a ||
  bool_decide (a ∈ ["_"; "@"; "%"; "+"; "="; ":"; ","; "."; "/"; "-"]%char).

Definition dquote : ascii := "034"%char.

(** The five characters that stand for one single quote inside a
    single-quoted word: quote, double quote, quote, double quote, quote. *)
Definition escaped_squote : string :=
  String "'"%char (String dquote (String "'"%char (String dquote (String "'"%char EmptyString)))).

Definition quote (s : string) : string :=
  if bool_decide (s = "") then "''"
  else if Str.all_chars safe_char s then s
  else "'" +:+ Str.replace_char "'"%char escaped_squote s +:+ "'".

End shlex.

(** ** Python values and ordered dictionaries *)

(** The values a YAML document or the command line puts in a configuration. *)
Inductive pyval : Type :=
| PNone
| PBool (b : bool)
| PInt (z : Z)
| PStr (s : string)
| PList (l : list pyval)
| PDict (d : list (string * pyval)).

(** A Python [dict]: insertion-ordered, one entry per key. *)
Module Dict.
Section Ops.
Context {V : Type}.

Fixpoint get (k : string) (d : list (string * V)) : option V :=
  match d with
  | [] => None
  | (k', v) :: r => if bool_decide (k' = k) then Some v else get k r
  end.

Definition mem (k : string) (d : list (string * V)) : bool :=
  match get k d with Some _ => true | None => false end.

(** [d[k] = v]: an existing key keeps its place, a new one goes last. *)
Fixpoint set (k : string) (v : V) (d : list (string * V)) : list (string * V) :=
  match d with
  | [] => [(k, v)]
  | (k', v') :: r =>
      if bool_decide (k' = k) then (k, v) :: r else (k', v') :: set k v r
  end.

Fixpoint del (k : string) (d : list (string * V)) : list (string * V) :=
  match d with
  | [] => []
  | (k', v') :: r => if bool_decide (k' = k) then r else (k', v') :: del k r
  end.

(** [{**d1, **d2}] and [d1.update(d2)]. *)
Definition update (d1 d2 : list (string * V)) : list (string * V) :=
  foldl (fun d kv => set kv.1 kv.2 d) d1 d2.
End Ops.
End Dict.

(** ** Exceptions, outward calls and the world *)

Inductive exn : Type :=
| KeyError (msg : string)
| FileNotFoundError (path : string)
| FileExistsError (path : string)
| TypeError (msg : string)
| ValueError (msg : string)
| IndexError
| ArgumentError (msg : string)
| CalledProcessError (command : string).

Inductive result (A : Type) : Type :=
| Ok (a : A)
| Raise (e : exn).
Arguments Ok {A} a.
Arguments Raise {A} e.

(** [Localization = namedtuple("Localization", ['type', 'path'])]; the type
    is one of the strings [stream], [download], or [None]. *)
Record Localization : Type := mkLocalization {
  loc_type : option string;
  loc_path : string
}.

(** What the program asks of the backend, the transport and the adapter. *)
Inductive event : Type :=
| Invoke (command : string)
| Send (src dst : string)
| Receive (src dst : string)
| OpenWrite (path text : string)
| Chmod (path : string) (mode : N)
| Remove (path : string)
| PackBatchScript (lines : list pyval) (script_path : string)
| WaitForClusterReady
| Sbatch (script array output error : string) (resources : list (string * pyval))
| Sacct
| ParseOutputs (outputs : list (string * list (string * string)))
| YamlDump (conf : pyval) (file : string)
| Stderr (text : string).

(** The invoking host's file system ([os.path], [os.makedirs]), the
    controller's as the transport shows it, the class-level requester-pays
    memo, the accounting tables successive [sacct] calls will return, and the
    outward calls made so far, oldest first. *)
Record World : Type := mkWorld {
  host_files : gset string;
  host_dirs : gset string;
  ctrl_files : gset string;
  ctrl_dirs : gset string;
  requester_pays : gmap string bool;
  sacct_feed : list (gmap string string);
  trace : list event
}.

(** Collaborators whose code is outside the repository's sources: library
    functions, the abstract transport's directory walk, the cloud tools and
    the cluster. *)
Record Env : Type := mkEnv {
  fnmatch : string -> string -> bool;
  relpath : string -> string -> string;
  normpath : string -> string;
  walk : gset string -> gset string -> string -> list (string * list string * list string);
  listdir : gset string -> gset string -> string -> list string;
  uuid4 : string;
  get_default_gcp_project : string;
  exit_status : string -> nat;
  stderr_requester_pays : string -> bool;
  sbatch_id : string;
  yaml_load : string -> result pyval;
  parse_inputs : pyval -> result (list (string * list (string * string)))
}.

(** State and exceptions: a raised exception keeps the effects made so far. *)
Definition M (A : Type) : Type := World -> result A * World.

Definition ret {A} (a : A) : M A := fun w => (Ok a, w).
Definition raise {A} (e : exn) : M A := fun w => (Raise e, w).
Definition bind {A B} (c : M A) (k : A -> M B) : M B :=
  fun w => match c w with
           | (Ok a, w') => k a w'
           | (Raise e, w') => (Raise e, w')
           end.
Definition gets {A} (f : World -> A) : M A := fun w => (Ok (f w), w).
Definition modify (f : World -> World) : M unit := fun w => (Ok tt, f w).

Declare Scope py_scope.
Delimit Scope py_scope with py.
Notation "x <- c ;; k" := (bind c (fun x => k))
  (at level 100, c at next level, right associativity) : py_scope.
Notation "c ;;; k" := (bind c (fun _ => k))
  (at level 100, right associativity) : py_scope.
Local Open Scope py_scope.

(** [for x in l: body], threading a loop-carried value. *)
Fixpoint for_fold {A S} (body : S -> A -> M S) (l : list A) (s : S) : M S :=
  match l with
  | [] => ret s
  | x :: r => s' <- body s x ;; for_fold body r s'
  end.

Definition emit (e : event) : M unit :=
  modify (fun w => mkWorld (host_files w) (host_dirs w) (ctrl_files w) (ctrl_dirs w)
                           (requester_pays w) (sacct_feed w) (trace w ++ [e])).

Definition set_host_files (f : gset string -> gset string) : M unit :=
  modify (fun w => mkWorld (f (host_files w)) (host_dirs w) (ctrl_files w) (ctrl_dirs w)
                           (requester_pays w) (sacct_feed w) (trace w)).
Definition set_host_dirs (f : gset string -> gset string) : M unit :=
  modify (fun w => mkWorld (host_files w) (f (host_dirs w)) (ctrl_files w) (ctrl_dirs w)
                           (requester_pays w) (sacct_feed w) (trace w)).
Definition set_ctrl_files (f : gset string -> gset string) : M unit :=
  modify (fun w => mkWorld (host_files w) (host_dirs w) (f (ctrl_files w)) (ctrl_dirs w)
                           (requester_pays w) (sacct_feed w) (trace w)).
Definition set_ctrl_dirs (f : gset string -> gset string) : M unit :=
  modify (fun w => mkWorld (host_files w) (host_dirs w) (ctrl_files w) (f (ctrl_dirs w))
                           (requester_pays w) (sacct_feed w) (trace w)).
Definition set_requester_pays (f : gmap string bool -> gmap string bool) : M unit :=
  modify (fun w => mkWorld (host_files w) (host_dirs w) (ctrl_files w) (ctrl_dirs w)
                           (f (requester_pays w)) (sacct_feed w) (trace w)).

(** ** The transport and the host file system

    The abstract transport is outside the sources; its operations follow the
    specification's list: existence tests read the controller's file sets,
    [makedirs] builds a directory with its parents and accepts one that is
    there, [send] and [receive] fail on a missing source, and [walk] lists
    a tree as it is when the walk starts. *)

Fixpoint parents (fuel : nat) (p : string) : list string :=
  match fuel with
  | O => []
  | S n =>
      if bool_decide (p = "") || Str.all_chars (fun a => bool_decide (a = posixpath.sep)) p
      then []
      else p :: parents n (posixpath.dirname p)
  end.

(** The path and the directories above it. *)
Definition ancestors (p : string) : list string := parents (String.length p) p.

Definition transport_isdir (p : string) : M bool :=
  gets (fun w => bool_decide (p ∈ ctrl_dirs w)).
Definition transport_isfile (p : string) : M bool :=
  gets (fun w => bool_decide (p ∈ ctrl_files w)).
Definition ctrl_exists (w : World) (p : string) : bool :=
  bool_decide (p ∈ ctrl_files w ∪ ctrl_dirs w).
Definition transport_exists (p : string) : M bool :=
  gets (fun w => ctrl_exists w p).

(** [mkdir] needs a free name in a directory that is there; the current
    directory and the root always are. *)
Definition transport_mkdir (p : string) : M unit :=
  ex <- transport_exists p ;;
  if ex then raise (FileExistsError p)
  else
    let parent := posixpath.dirname p in
    ok <- gets (fun w => bool_decide (parent = "")
                         || Str.all_chars (fun a => bool_decide (a = posixpath.sep)) parent
                         || bool_decide (parent ∈ ctrl_dirs w)) ;;
    if ok then set_ctrl_dirs (fun d => d ∪ {[p]}) else raise (FileNotFoundError p).

Definition transport_makedirs (p : string) : M unit :=
  set_ctrl_dirs (fun d => d ∪ list_to_set (ancestors p)).

Definition os_path_isfile (p : string) : M bool :=
  gets (fun w => bool_decide (p ∈ host_files w)).

Definition transport_send (src dst : string) : M unit :=
  ok <- os_path_isfile src ;;
  if ok then emit (Send src dst) ;;; set_ctrl_files (fun f => f ∪ {[dst]})
  else raise (FileNotFoundError src).

Definition transport_receive (src dst : string) : M unit :=
  ok <- transport_isfile src ;;
  if ok then emit (Receive src dst) ;;; set_host_files (fun f => f ∪ {[dst]})
  else raise (FileNotFoundError src).

Definition transport_remove (p : string) : M unit :=
  emit (Remove p) ;;; set_ctrl_files (fun f => f ∖ {[p]}).

(** [with transport.open(path, 'w') as w: w.write(text)] *)
Definition transport_write (path text : string) : M unit :=
  emit (OpenWrite path text) ;;; set_ctrl_files (fun f => f ∪ {[path]}).

Definition transport_chmod (path : string) (mode : N) : M unit :=
  emit (Chmod path mode).

(** [os.makedirs(name)] on the invoking host, without [exist_ok]: an
    existing leaf is an error, missing parents are created. *)
Definition os_makedirs (p : string) : M unit :=
  if bool_decide (p = "") then raise (FileNotFoundError p)
  else
    ex <- gets (fun w => bool_decide (p ∈ host_files w ∪ host_dirs w)) ;;
    if ex then raise (FileExistsError p)
    else set_host_dirs (fun d => d ∪ {[p]} ∪ list_to_set (ancestors p)).

(** [utils.check_call], modelled from the specification's helper that
    "surfaces non-zero as a command-failure error". *)
Definition check_call (command : string) (rc : nat) : M unit :=
  if bool_decide (rc = 0) then ret tt else raise (CalledProcessError command).

Record Paths : Type := mkPaths {
  CANINE_ROOT : string;
  CANINE_COMMON : string;
  CANINE_OUTPUT : string;
  CANINE_JOBS : string
}.

(** The fields of a [Localizer] instance; [env] holds the controller's
    paths, [environment] the workers'. *)
Record Localizer : Type := mkLocalizer {
  localize_gs : bool;
  common : bool;
  common_inputs : gset string;
  sbcast : bool;
  staging_dir : string;
  mount_path : string;
  inputs : list (string * list (string * Localization));
  env : Paths;
  environment : Paths
}.

Definition with_inputs (self : Localizer) (common_inputs' : gset string)
    (inputs' : list (string * list (string * Localization))) : Localizer :=
  mkLocalizer (localize_gs self) (common self) common_inputs' (sbcast self)
              (staging_dir self) (mount_path self) inputs' (env self) (environment self).

Definition paths_under (root : string) : Paths :=
  mkPaths root
          (posixpath.join root ["common"])
          (posixpath.join root ["outputs"])
          (posixpath.join root ["jobs"]).

Section Canine.
Variable E : Env.

(** [backend.invoke(command)]: the call is recorded and the exit status
    is the environment's. *)
Definition backend_invoke (command : string) : M nat :=
  emit (Invoke command) ;;; ret (exit_status E command).

(** [Localizer.__init__] *)
Definition Localizer__init__ (localize_gs common : bool)
    (staging_dir mount_path : option string) : Localizer :=
  let sbcast := bool_decide (staging_dir = Some "SBCAST") in
  let staging_dir := if sbcast then None else staging_dir in
  let staging_dir := default (uuid4 E) staging_dir in
  let mount_path := normpath E (default staging_dir mount_path) in
  mkLocalizer localize_gs common ∅ sbcast staging_dir mount_path []
              (paths_under staging_dir) (paths_under mount_path).

(** [Localizer.__enter__] *)
Definition Localizer__enter__ (self : Localizer) : M Localizer :=
  for_fold (fun (_ : unit) d =>
              isd <- transport_isdir d ;;
              if isd then ret tt else transport_mkdir d)
           [CANINE_ROOT (env self); CANINE_COMMON (env self);
            CANINE_OUTPUT (env self); CANINE_JOBS (env self)] tt ;;;
  ret self.

(** [Localizer.__exit__], called with the arguments of the scope exit. *)
Definition Localizer__exit__ (self : Localizer) (args : list (option string)) : M unit :=
  if bool_decide (length (filter (fun arg => arg <> None) args) = 0) then
    backend_invoke ("rm -rf " +:+ CANINE_ROOT (env self)) ;;; ret tt
  else ret tt.

(** [Localizer.get_requester_pays] *)
Definition get_requester_pays (path : string) : M bool :=
  let path := if Str.startswith "gs://" path then String.substring 5 (String.length path - 5) path else path in
  let bucket := hd "" (Str.split "/" path) in
  known <- gets (fun w => requester_pays w !! bucket) ;;
  (match known with
   | None =>
       let command := "gsutil ls gs://" +:+ path in
       backend_invoke command ;;;
       set_requester_pays (<[bucket := stderr_requester_pays E command]>)
   | Some _ => ret tt
   end) ;;;
  gets (fun w => default false (requester_pays w !! bucket)).

Definition gsutil_project_flag (rp : bool) (project : string) : string :=
  if rp then "-u " +:+ project else "".

(** The loop of [localize_file] that renames a taken destination:
    [while transport.exists(filepath): filepath = root + '._alt' + ext]. *)
Fixpoint free_path (fuel : nat) (taken : string -> bool) (filepath : string) : string :=
  match fuel with
  | O => filepath
  | S n =>
      if taken filepath then
        let '(root, ext) := posixpath.splitext filepath in
        free_path n taken (root +:+ "._alt" +:+ ext)
      else filepath
  end.

(** [Localizer.localize_file] *)
Definition localize_file (self : Localizer) (jobId name value : string) (delayed : bool) : M string :=
  let filepath :=
    posixpath.join (CANINE_JOBS (env self)) [jobId; "inputs"; posixpath.basename value] in
  transport_makedirs (posixpath.dirname filepath) ;;;
  filepath <- gets (fun w => free_path (size (ctrl_files w ∪ ctrl_dirs w)) (ctrl_exists w) filepath) ;;
  (if negb delayed then
     if localize_gs self && Str.startswith "gs://" value then
       rp <- get_requester_pays value ;;
       let command :=
         "gsutil " +:+ gsutil_project_flag rp (get_default_gcp_project E)
           +:+ " cp " +:+ value +:+ " " +:+ filepath in
       rc <- backend_invoke command ;;
       check_call command rc ;;;
       set_ctrl_files (fun f => f ∪ {[filepath]})
     else
       isf <- os_path_isfile value ;;
       if isf then transport_send value filepath else ret tt
   else ret tt) ;;;
  ret (posixpath.join (CANINE_JOBS (environment self)) [jobId; "inputs"; posixpath.basename value]).

(** The first lines of [localize]: override values that are strings are
    lower-cased, every other value becomes [None]. *)
Definition normalize_overrides (overrides : list (string * pyval))
    : list (string * option string) :=
  map (fun kv => (kv.1, match kv.2 with PStr v => Some (Str.lower v) | _ => None end))
      overrides.

Definition override_is (overrides : list (string * option string)) (arg mode : string) : bool :=
  bool_decide (Dict.get arg overrides = Some (Some mode)).

(** The body of the scan over all [(arg, path)] of all jobs, on the pair
    of [seen] and [self.common_inputs]. *)
Definition scan_input (overrides : list (string * option string))
    (st : gset string * gset string) (kv : string * string) : gset string * gset string :=
  let '(seen, common_inputs) := st in
  let '(arg, path) := kv in
  let common_inputs :=
    if bool_decide (path ∈ seen)
       && (negb (Dict.mem arg overrides) || override_is overrides arg "common")
    then common_inputs ∪ {[path]} else common_inputs in
  let common_inputs :=
    if Dict.mem arg overrides && override_is overrides arg "common"
    then common_inputs ∪ {[path]} else common_inputs in
  (seen ∪ {[path]}, common_inputs).

Definition scan_common (overrides : list (string * option string))
    (inputs : list (string * list (string * string))) (common_inputs : gset string)
    : gset string :=
  (foldl (fun st job => foldl (scan_input overrides) st job.2) (∅, common_inputs) inputs).2.

(** One round of [for path in self.common_inputs]. *)
Definition localize_common (self : Localizer) (common_dests : gmap string string)
    (path : string) : M (gmap string string) :=
  let dest := posixpath.join (CANINE_COMMON (environment self)) [posixpath.basename path] in
  let target := posixpath.join (CANINE_COMMON (env self)) [posixpath.basename path] in
  if Str.startswith "gs://" path && localize_gs self then
    rp <- get_requester_pays path ;;
    let command :=
      "gsutil " +:+ gsutil_project_flag rp (get_default_gcp_project E)
        +:+ " cp " +:+ path +:+ " " +:+ target in
    rc <- backend_invoke command ;;
    check_call command rc ;;;
    set_ctrl_files (fun f => f ∪ {[target]}) ;;;
    ret (<[path := dest]> common_dests)
  else
    isf <- os_path_isfile path ;;
    if isf then
      transport_send path target ;;;
      ret (<[path := dest]> common_dests)
    else
      emit (Stderr ("Could not handle common file " +:+ path)) ;;;
      ret common_dests.

(** One round of [for arg, value in data.items()]; [record] is
    [self.inputs[jobId]]. *)
Definition localize_input (self : Localizer) (overrides : list (string * option string))
    (common_dests : gmap string string) (jobId : string)
    (record : list (string * Localization)) (kv : string * string)
    : M (list (string * Localization)) :=
  let '(arg, value) := kv in
  match Dict.get arg overrides with
  | Some mode =>
      if bool_decide (mode = Some "stream") then
        ret (Dict.set arg (mkLocalization (Some "stream") value) record)
      else if bool_decide (mode = Some "localize") then
        p <- localize_file self jobId arg value false ;;
        ret (Dict.set arg (mkLocalization None p) record)
      else if bool_decide (mode = Some "delayed") then
        if negb (Str.startswith "gs://" value) then
          emit (Stderr ("Ignoring 'delayed' override for " +:+ arg +:+ " with value "
                          +:+ value +:+ " and localizing now")) ;;;
          p <- localize_file self jobId arg value false ;;
          ret (Dict.set arg (mkLocalization None p) record)
        else
          ret (Dict.set arg (mkLocalization (Some "download") value) record)
      else if bool_decide (mode = None) then
        ret (Dict.set arg (mkLocalization None value) record)
      else ret record
  | None =>
      match common_dests !! value with
      | Some dest => ret (Dict.set arg (mkLocalization None dest) record)
      | None =>
          isf <- os_path_isfile value ;;
          if isf || Str.startswith "gs://" value then
            p <- localize_file self jobId arg value false ;;
            ret (Dict.set arg (mkLocalization None p) record)
          else ret (Dict.set arg (mkLocalization None value) record)
      end
  end.

(** One round of [for jobId, data in inputs.items()]. *)
Definition localize_task (self : Localizer) (overrides : list (string * option string))
    (common_dests : gmap string string)
    (self_inputs : list (string * list (string * Localization)))
    (job : string * list (string * string))
    : M (list (string * list (string * Localization))) :=
  let '(jobId, data) := job in
  let workspace_path := posixpath.join (CANINE_JOBS (env self)) [jobId; "workspace"] in
  isd <- transport_isdir workspace_path ;;
  (if isd then ret tt else transport_makedirs workspace_path) ;;;
  record <- for_fold (localize_input self overrides common_dests jobId) data [] ;;
  ret (Dict.set jobId record self_inputs).

(** [Localizer.localize]; [job_spec] is its parameter [inputs]. *)
Definition localize (self : Localizer) (job_spec : list (string * list (string * string)))
    (overrides : option (list (string * pyval))) : M Localizer :=
  let overrides := normalize_overrides (default [] overrides) in
  let common_inputs :=
    if common self then scan_common overrides job_spec (common_inputs self)
    else common_inputs self in
  common_dests <- for_fold (localize_common self) (elements common_inputs) ∅ ;;
  self_inputs <- for_fold (localize_task self overrides common_dests) job_spec (inputs self) ;;
  ret (with_inputs self common_inputs self_inputs).

Definition nl : string := String "010"%char EmptyString.
Definition dq : string := String shlex.dquote EmptyString.

(** One round of [for key, val in self.inputs[jobId].items()] in
    [localize_job], on [(job_vars, exports, extra_tasks)]. *)
Definition setup_input (self : Localizer) (jobId : string)
    (acc : list string * list string * list string) (kv : string * Localization)
    : M (list string * list string * list string) :=
  let '(job_vars, exports, extra_tasks) := acc in
  let '(key, val) := kv in
  if bool_decide (loc_type val = Some "stream") then
    p <- localize_file self jobId key (loc_path val) true ;;
    let dest := shlex.quote p in
    rp <- get_requester_pays (loc_path val) ;;
    ret (job_vars ++ [shlex.quote key],
         exports ++ ["export " +:+ key +:+ "=" +:+ dq +:+ dest +:+ dq],
         extra_tasks ++
           ["mkfifo " +:+ dest;
            "gsutil " +:+ gsutil_project_flag rp (shlex.quote (get_default_gcp_project E))
              +:+ " cat " +:+ shlex.quote (loc_path val) +:+ " > " +:+ dest +:+ " &"])
  else if bool_decide (loc_type val = Some "download") then
    p <- localize_file self jobId key (loc_path val) true ;;
    let dest := shlex.quote p in
    rp <- get_requester_pays (loc_path val) ;;
    ret (job_vars ++ [shlex.quote key],
         exports ++ ["export " +:+ key +:+ "=" +:+ dq +:+ dest +:+ dq],
         extra_tasks ++
           ["gsutil " +:+ gsutil_project_flag rp (shlex.quote (get_default_gcp_project E))
              +:+ " cp " +:+ shlex.quote (loc_path val) +:+ " " +:+ dest])
  else if bool_decide (loc_type val = None) then
    ret (job_vars ++ [shlex.quote key],
         exports ++ ["export " +:+ key +:+ "=" +:+ dq +:+ shlex.quote (loc_path val) +:+ dq],
         extra_tasks)
  else
    emit (Stderr ("Unknown localization command: " +:+ default "" (loc_type val)
                    +:+ " skipping " +:+ key +:+ " " +:+ loc_path val)) ;;;
    ret acc.

(** The text [localize_job] writes to [setup.sh]. *)
Definition setup_script (self : Localizer) (jobId : string)
    (job_vars exports extra_tasks : list string) (setup_text : string) : string :=
  let jobs := CANINE_JOBS (environment self) in
  Str.join nl
    (map Str.rstrip
       (["#!/bin/bash";
         "export CANINE_JOB_VARS=" +:+ Str.join ":" job_vars;
         "export CANINE_JOB_INPUTS=" +:+ dq +:+ posixpath.join jobs [jobId; "inputs"] +:+ dq;
         "export CANINE_JOB_ROOT=" +:+ dq +:+ posixpath.join jobs [jobId; "workspace"] +:+ dq;
         "export CANINE_JOB_SETUP=" +:+ dq +:+ posixpath.join jobs [jobId; "setup.sh"] +:+ dq;
         "export CANINE_JOB_TEARDOWN=" +:+ dq +:+ posixpath.join jobs [jobId; "teardown.sh"] +:+ dq]
        ++ exports ++ extra_tasks))
    +:+ nl +:+ "cd $CANINE_JOB_ROOT" +:+ nl +:+ setup_text.

(** [Localizer.localize_job] *)
Definition localize_job (self : Localizer) (jobId : string) (setup_text : option string)
    : M string :=
  let setup_text := default "" setup_text in
  match Dict.get jobId (inputs self) with
  | None => raise (KeyError jobId)
  | Some record =>
      acc <- for_fold (setup_input self jobId) record
               ([], [],
                ["if [[ -d $CANINE_JOB_INPUTS ]]; then cd $CANINE_JOB_INPUTS; fi"]) ;;
      let '(job_vars, exports, extra_tasks) := acc in
      let script_path := posixpath.join (CANINE_JOBS (env self)) [jobId; "setup.sh"] in
      transport_write script_path
        (setup_script self jobId job_vars exports extra_tasks setup_text) ;;;
      transport_chmod script_path 509 ;;;
      ret (posixpath.join (CANINE_JOBS (environment self)) [jobId; "setup.sh"])
  end.

(** [Localizer.delocalize_file] *)
Definition delocalize_file (jobId name fullname output_dir : string) : M string :=
  let output_path :=
    posixpath.join output_dir [jobId; name; posixpath.basename fullname] in
  os_makedirs (posixpath.dirname output_path) ;;;
  transport_receive fullname output_path ;;;
  ret output_path.

(** The body of the innermost loop of [delocalize], for one file name
    under one directory and one [(name, pattern)]. *)
Definition delocalize_match (jobId output_dir start_dir : string) (delete : bool)
    (dirpath name pattern : string)
    (output_files : list (string * string)) (filename : string)
    : M (list (string * string)) :=
  let fullname := posixpath.join dirpath [filename] in
  if fnmatch E fullname pattern || fnmatch E (relpath E fullname start_dir) pattern then
    p <- delocalize_file jobId name fullname output_dir ;;
    (if delete then
       isf <- transport_isfile fullname ;;
       if isf then transport_remove fullname else ret tt
     else ret tt) ;;;
    ret (Dict.set name p output_files)
  else ret output_files.

(** [Localizer.delocalize] for a given [jobId]: the [else] branch. *)
Definition delocalize_task (self : Localizer) (patterns : list (string * string))
    (output_dir jobId : string) (delete : bool)
    : M (list (string * list (string * string))) :=
  let start_dir := posixpath.join (CANINE_JOBS (env self)) [jobId; "workspace"] in
  listing <- gets (fun w => walk E (ctrl_files w) (ctrl_dirs w) start_dir) ;;
  output_files <-
    for_fold (fun out (entry : string * list string * list string) =>
                let '(dirpath, _, filenames) := entry in
                for_fold (fun out (np : string * string) =>
                            for_fold (delocalize_match jobId output_dir start_dir delete
                                                       dirpath np.1 np.2)
                                     filenames out)
                         patterns out)
             listing [] ;;
  ret [(jobId, output_files)].

(** [Localizer.delocalize]: without [jobId], every directory under
    [jobs/] is delocalized in turn. *)
Definition delocalize (self : Localizer) (patterns : list (string * string))
    (output_dir : string) (jobId : option string) (delete : bool)
    : M (list (string * list (string * string))) :=
  match jobId with
  | None =>
      jobs <- gets (fun w => listdir E (ctrl_files w) (ctrl_dirs w) (CANINE_JOBS (env self))) ;;
      for_fold (fun out job =>
                  r <- delocalize_task self patterns output_dir job delete ;;
                  match Dict.get job r with
                  | Some files => ret (Dict.set job files out)
                  | None => raise (KeyError job)
                  end)
               jobs []
  | Some jobId => delocalize_task self patterns output_dir jobId delete
  end.

(** ** The orchestrator *)

Definition version : string := "0.0.1".
Definition ADAPTERS : list string := ["Manual"].
Definition BACKENDS : list string := ["Local"; "Remote"; "TransientGCP"].

(** [ENTRYPOINT.format(backend=..., adapter=..., pipeline_script=..., **env)] *)
Definition ENTRYPOINT (backend adapter pipeline_script : string) (env : Paths) : string :=
  "#!/bin/bash" +:+ nl +:+
  "export CANINE=" +:+ dq +:+ version +:+ dq +:+ nl +:+
  "export CANINE_BACKEND=" +:+ dq +:+ backend +:+ dq +:+ nl +:+
  "export CANINE_ADAPTER=" +:+ dq +:+ adapter +:+ dq +:+ nl +:+
  "export CANINE_ROOT=" +:+ dq +:+ CANINE_ROOT env +:+ dq +:+ nl +:+
  "export CANINE_COMMON=" +:+ dq +:+ CANINE_COMMON env +:+ dq +:+ nl +:+
  "export CANINE_OUTPUT=" +:+ dq +:+ CANINE_OUTPUT env +:+ dq +:+ nl +:+
  "export CANINE_JOBS=" +:+ dq +:+ CANINE_JOBS env +:+ dq +:+ nl +:+
  "source $CANINE_JOBS/$SLURM_ARRAY_TASK_ID/setup.sh" +:+ nl +:+
  pipeline_script +:+ nl.

(** [str(obj)] for a scalar. *)
Definition py_str (obj : pyval) : string :=
  match obj with
  | PNone => "None"
  | PBool true => "True"
  | PBool false => "False"
  | PInt z => NilEmpty.string_of_int (Z.to_int z)
  | PStr s => s
  | PList _ | PDict _ => ""
  end.

(** [Orchestrator.stringify] *)
Fixpoint stringify (obj : pyval) : pyval :=
  match obj with
  | PList l => PList (map stringify l)
  | PDict d => PDict (map (fun kv => match kv with (key, val) => (key, stringify val) end) d)
  | _ => PStr (py_str obj)
  end.

Definition DEFAULTS : list (string * pyval) :=
  [("name", PStr "canine");
   ("adapter", PDict [("type", PStr "Manual")]);
   ("backend", PDict [("type", PStr "Local")])].

(** [Orchestrator.fill_config] *)
Definition fill_config (cfg : pyval) : result (list (string * pyval)) :=
  let loaded := match cfg with PStr path => yaml_load E path | _ => Ok cfg end in
  match loaded with
  | Raise e => Raise e
  | Ok (PDict d) =>
      foldl (fun acc (kv : string * pyval) =>
               match acc with
               | Raise e => Raise e
               | Ok cfg =>
                   match Dict.get kv.1 cfg, kv.2 with
                   | None, _ => Ok (Dict.set kv.1 kv.2 cfg)
                   | Some (PDict given), PDict value =>
                       Ok (Dict.set kv.1 (PDict (Dict.update value given)) cfg)
                   | Some _, PDict _ => Raise (TypeError "not a mapping")
                   | Some _, _ => Ok cfg
                   end
               end)
            (Ok d) DEFAULTS
  | Ok _ => Raise (TypeError "config is not a mapping")
  end.

Record Orchestrator : Type := mkOrchestrator {
  name : pyval;
  script : pyval;
  raw_inputs : pyval;
  resources : pyval;
  _adapter_type : string;
  adapter_options : list (string * pyval);
  _backend_type : string;
  backend_options : list (string * pyval);
  localizer_args : pyval;
  localizer_overrides : list (string * pyval);
  raw_outputs : pyval
}.

Definition lift {A} (r : result A) : M A :=
  match r with Ok a => ret a | Raise e => raise e end.

(** The type tag of the [adapter] or [backend] mapping and its other keys,
    checked against the registry. *)
Definition tagged (registry : list string) (what : string) (v : pyval)
    : result (string * list (string * pyval)) :=
  match v with
  | PDict d =>
      match Dict.get "type" d with
      | Some (PStr ty) =>
          if bool_decide (ty ∈ registry) then Ok (ty, Dict.del "type" d)
          else Raise (ValueError ("Unknown " +:+ what +:+ " type"))
      | Some (PList _) | Some (PDict _) => Raise (TypeError "unhashable type")
      | Some _ => Raise (ValueError ("Unknown " +:+ what +:+ " type"))
      | None => Raise (KeyError "type")
      end
  | _ => Raise (TypeError "not a mapping")
  end.

(** [len(obj)] where the code takes it. *)
Definition py_len (obj : pyval) : nat :=
  match obj with
  | PList l => length l
  | PDict d => length d
  | PStr s => String.length s
  | _ => 0
  end.

(** [Orchestrator.__init__]; the constructors of the adapter and of the
    backend are outside the sources and only keep their options here. *)
Definition Orchestrator__init__ (config : pyval) : M Orchestrator :=
  config <- lift (fill_config config) ;;
  name <- lift (match Dict.get "name" config with
                | Some v => Ok v | None => Raise (KeyError "name") end) ;;
  script <- lift (match Dict.get "script" config with
                  | Some v => Ok v
                  | None => Raise (KeyError "Config missing required key 'script'")
                  end) ;;
  missing <- (match script with
              | PStr path => isf <- os_path_isfile path ;; ret (negb isf)
              | _ => ret false
              end) ;;
  (if missing then raise (FileNotFoundError (py_str script))
   else if negb (match script with PList _ => true | _ => false end)
        then raise (TypeError "script must be a path to a bash script or a list of bash commands")
        else ret tt) ;;;
  let raw_inputs := match Dict.get "inputs" config with
                    | Some v => stringify v | None => PDict [] end in
  let resources := match Dict.get "resources" config with
                   | Some v => stringify v | None => PDict [] end in
  adapter <- lift (tagged ADAPTERS "adapter" (default PNone (Dict.get "adapter" config))) ;;
  backend <- lift (tagged BACKENDS "backend" (default PNone (Dict.get "backend" config))) ;;
  let localizer_args := default (PDict []) (Dict.get "localization" config) in
  split_args <- lift (match localizer_args with
                      | PDict d =>
                          match Dict.get "overrides" d with
                          | Some (PDict o) => Ok (PDict (Dict.del "overrides" d), o)
                          | Some _ => Raise (TypeError "not a mapping")
                          | None => Ok (localizer_args, [])
                          end
                      | PStr _ | PList _ => Ok (localizer_args, [])
                      | _ => Raise (TypeError "argument is not iterable")
                      end) ;;
  let raw_outputs := match Dict.get "outputs" config with
                     | Some v => stringify v | None => PDict [] end in
  (if bool_decide (py_len raw_outputs = 0) then emit (Stderr "No outputs declared") else ret tt) ;;;
  ret (mkOrchestrator name script raw_inputs resources adapter.1 adapter.2
                      backend.1 backend.2 split_args.1 split_args.2 raw_outputs).

(** Python's truth value of an object. *)
Definition truthy (obj : pyval) : bool :=
  match obj with
  | PNone => false
  | PBool b => b
  | PInt z => negb (bool_decide (z = 0%Z))
  | PStr s => negb (bool_decide (s = ""))
  | PList l => negb (bool_decide (length l = 0))
  | PDict d => negb (bool_decide (length d = 0))
  end.

Definition path_option (v : option pyval) : result (option string) :=
  match v with
  | None | Some PNone => Ok None
  | Some (PStr s) => Ok (Some s)
  | Some _ => Raise (TypeError "expected str, bytes or os.PathLike object")
  end.

(** [Localizer(self.backend, **self.localizer_args)] *)
Definition Localizer_of_args (localizer_args : pyval) : result Localizer :=
  match localizer_args with
  | PDict d =>
      if forallb (fun kv : string * pyval =>
                    bool_decide (kv.1 ∈ ["localize_gs"; "common"; "staging_dir"; "mount_path"])) d
      then
        match path_option (Dict.get "staging_dir" d), path_option (Dict.get "mount_path" d) with
        | Ok staging_dir, Ok mount_path =>
            Ok (Localizer__init__
                  (from_option truthy true (Dict.get "localize_gs" d))
                  (from_option truthy true (Dict.get "common" d))
                  staging_dir mount_path)
        | Raise e, _ | _, Raise e => Raise e
        end
      else Raise (TypeError "__init__() got an unexpected keyword argument")
  | _ => Raise (TypeError "argument after ** must be a mapping")
  end.

(** The arguments Python hands to [__exit__] when a [with] block is
    left: three [None] after a normal end, the exception's type, value
    and traceback otherwise. *)
Definition exit_args {A} (r : result A) : list (option string) :=
  match r with
  | Ok _ => [None; None; None]
  | Raise _ => [Some "type"; Some "value"; Some "traceback"]
  end.

(** [with Localizer(...) as localizer: body] *)
Definition with_localizer {A} (loc : Localizer) (body : Localizer -> M A) : M A :=
  localizer <- Localizer__enter__ loc ;;
  fun w =>
    let '(r, w1) := body localizer w in
    match Localizer__exit__ localizer (exit_args r) w1 with
    | (Ok _, w2) => (r, w2)
    | (Raise e, w2) => (Raise e, w2)
    end.

(** [backend.sacct()]: the next foreseen accounting table, keyed by
    [<batch_id>_<array index>], holding the [State] column. *)
Definition backend_sacct : M (gmap string string) :=
  emit Sacct ;;;
  fun w => (Ok (hd ∅ (sacct_feed w)),
            mkWorld (host_files w) (host_dirs w) (ctrl_files w) (ctrl_dirs w)
                    (requester_pays w) (tl (sacct_feed w)) (trace w)).

Definition as_patterns (raw_outputs : pyval) : result (list (string * string)) :=
  match raw_outputs with
  | PDict d =>
      foldr (fun (kv : string * pyval) acc =>
               match kv.2, acc with
               | PStr pattern, Ok l => Ok ((kv.1, pattern) :: l)
               | _, Raise e => Raise e
               | _, _ => Raise (TypeError "expected str")
               end) (Ok []) d
  | _ => Raise (TypeError "object has no attribute 'items'")
  end.

Definition job_id (batch_id : string) (i : nat) : string :=
  batch_id +:+ "_" +:+ Str.of_nat i.

(** One round of [for jid in [*waiting_jobs]] in the poll loop. *)
Definition poll_job (localizer : Localizer) (patterns : list (string * string))
    (acct : gmap string string)
    (st : gset string * list (string * list (string * string))) (jid : string)
    : M (gset string * list (string * list (string * string))) :=
  let '(waiting_jobs, outputs) := st in
  match acct !! jid with
  | Some state =>
      if negb (bool_decide (state ∈ ["RUNNING"; "PENDING"])) then
        match Str.split "_" jid !! 1 with
        | None => raise IndexError
        | Some job =>
            r <- delocalize localizer patterns "canine_output" (Some job) true ;;
            ret (waiting_jobs ∖ {[jid]}, Dict.update outputs r)
        end
      else ret st
  | None => ret st
  end.

(** One turn of [while len(waiting_jobs)]: a call of [sacct] and the
    scan of the waiting elements as they were at its start. *)
Definition poll_round (localizer : Localizer) (patterns : list (string * string))
    (st : gset string * list (string * list (string * string)))
    : M (gset string * list (string * list (string * string))) :=
  acct <- backend_sacct ;;
  for_fold (poll_job localizer patterns acct) (elements st.1) st.

(** The poll loop, followed for [rounds] turns; [None] when elements are
    still waiting after them. *)
Fixpoint poll_loop (rounds : nat) (localizer : Localizer) (patterns : list (string * string))
    (st : gset string * list (string * list (string * string)))
    : M (option (list (string * list (string * string)))) :=
  if bool_decide (size st.1 = 0) then ret (Some st.2)
  else match rounds with
       | O => ret None
       | S n => st' <- poll_round localizer patterns st ;; poll_loop n localizer patterns st'
       end.

(** [Orchestrator.run_pipeline]; the result is [None] when the foreseen
    accounting tables end with elements still waiting. *)
Definition run_pipeline (self : Orchestrator)
    : M (option (string * list (string * list (string * string)) * gmap string string)) :=
  job_spec <- lift (parse_inputs E (raw_inputs self)) ;;
  loc <- lift (Localizer_of_args (localizer_args self)) ;;
  polled <-
    with_localizer loc (fun localizer =>
      localizer <- localize localizer job_spec (Some (localizer_overrides self)) ;;
      let env := environment localizer in
      let root_dir := mount_path localizer in
      let entrypoint_path := posixpath.join root_dir ["entrypoint.sh"] in
      pipeline_path <-
        (match script self with
         | PStr path => ret (posixpath.join root_dir [posixpath.basename path])
         | PList lines =>
             let script_path := posixpath.join root_dir ["script.sh"] in
             emit (PackBatchScript lines script_path) ;;;
             set_ctrl_files (fun f => f ∪ {[script_path]}) ;;;
             ret script_path
         | _ => raise (TypeError "argument after * must be an iterable")
         end) ;;
      (match script self with
       | PStr path => transport_send path pipeline_path
       | _ => ret tt
       end) ;;;
      transport_write entrypoint_path
        (ENTRYPOINT (_backend_type self) (_adapter_type self) pipeline_path env) ;;;
      transport_chmod entrypoint_path 509 ;;;
      for_fold (fun (_ : unit) (job : string * list (string * string)) =>
                  localize_job localizer job.1 None ;;; ret tt) job_spec tt ;;;
      emit WaitForClusterReady ;;;
      resources <- lift (match resources self with
                         | PDict d => Ok d
                         | _ => Raise (TypeError "argument after ** must be a mapping")
                         end) ;;
      emit (Sbatch entrypoint_path
                   ("0-" +:+ (if bool_decide (length job_spec = 0) then "-1"
                              else Str.of_nat (length job_spec - 1)))
                   (CANINE_JOBS env +:+ "/%a/workspace/stdout")
                   (CANINE_JOBS env +:+ "/%a/workspace/stderr")
                   resources) ;;;
      let batch_id := sbatch_id E in
      let waiting_jobs : gset string :=
        list_to_set (map (job_id batch_id) (seq 0 (length job_spec))) in
      patterns <- lift (as_patterns (raw_outputs self)) ;;
      rounds <- gets (fun w => length (sacct_feed w)) ;;
      outputs <- poll_loop rounds localizer patterns (waiting_jobs, []) ;;
      ret (batch_id, outputs)) ;;
  match polled.2 with
  | None => ret None
  | Some outputs =>
      emit (ParseOutputs outputs) ;;;
      acct <- backend_sacct ;;
      ret (Some (polled.1, job_spec, acct))
  end.

(** ** The command line *)

(** [ConfType(nfields, nMax)], the handler of the [key:value] options. *)
Definition ConfType (nfields : nat) (nMax : option nat) (argument : string)
    : result (list string) :=
  let nMax := default nfields nMax in
  let args := Str.split ":" argument in
  if bool_decide (length args < nfields) then
    Raise (ArgumentError "Not enough fields in argument")
  else if bool_decide (nMax < length args) then
    Raise (TypeError "can only concatenate list (not str) to list")
  else Ok args.

Record Args : Type := mkArgs {
  pipeline : option (list (string * pyval));
  dry_run : bool;
  export : option string;
  arg_name : option string;
  arg_script : option string;
  arg_input : list (string * string);
  arg_resources : list (string * string);
  arg_adapter : list (string * string);
  arg_backend : list (string * string);
  arg_localization : list (list string);
  arg_output : list (string * string)
}.

(** [{key: val for key, val in options}] *)
Definition dict_of (options : list (string * string)) : list (string * pyval) :=
  foldl (fun d kv => Dict.set kv.1 (PStr kv.2) d) [] options.

(** [{**conf[key], **{k: v for k, v in options}}] under
    [if len(options) > 0], with the missing key created first. *)
Definition merge_options (key : string) (options : list (string * string))
    (conf : list (string * pyval)) : result (list (string * pyval)) :=
  if bool_decide (0 < length options) then
    match default (PDict []) (Dict.get key conf) with
    | PDict d => Ok (Dict.set key (PDict (Dict.update d (dict_of options))) conf)
    | _ => Raise (TypeError "not a mapping")
    end
  else Ok conf.

(** The loop of [main] over [args.input]: a repeated name gathers its
    values in a list. *)
Definition gather_inputs (options : list (string * string)) : list (string * pyval) :=
  foldl (fun inputs kv =>
           match Dict.get kv.1 inputs with
           | Some (PList l) => Dict.set kv.1 (PList (l ++ [PStr kv.2])) inputs
           | Some v => Dict.set kv.1 (PList [v; PStr kv.2]) inputs
           | None => Dict.set kv.1 (PStr kv.2) inputs
           end) [] options.

Definition merge_inputs (options : list (string * string))
    (conf : list (string * pyval)) : result (list (string * pyval)) :=
  if bool_decide (0 < length options) then
    let inputs := gather_inputs options in
    match default (PDict []) (Dict.get "inputs" conf) with
    | PDict d => Ok (Dict.set "inputs" (PDict (Dict.update d inputs)) conf)
    | _ => Raise (TypeError "not a mapping")
    end
  else Ok conf.

(** The [--output] block: the merge sits under [if 'outputs' not in conf]. *)
Definition merge_outputs (options : list (string * string))
    (conf : list (string * pyval)) : list (string * pyval) :=
  if bool_decide (0 < length options) && negb (Dict.mem "outputs" conf)
  then Dict.set "outputs" (PDict (dict_of options)) conf
  else conf.

Definition merge_localization (entries : list (list string))
    (conf : list (string * pyval)) : result (list (string * pyval)) :=
  if bool_decide (0 < length entries) then
    match
      foldl (fun acc entry =>
               match acc with
               | Raise e => Raise e
               | Ok (overrides, localization) =>
                   if bool_decide (entry !! 0 = Some "overrides") then
                     match entry !! 1, entry !! 2 with
                     | Some k, Some v => Ok (Dict.set k (PStr v) overrides, localization)
                     | _, _ => Raise IndexError
                     end
                   else
                     match entry !! 0, entry !! 1 with
                     | Some k, Some v => Ok (overrides, Dict.set k (PStr v) localization)
                     | _, _ => Raise IndexError
                     end
               end) (Ok ([], [])) entries
    with
    | Raise e => Raise e
    | Ok (overrides, localization) =>
        match default (PDict [("overrides", PDict [])]) (Dict.get "localization" conf) with
        | PDict d =>
            let d := Dict.update d localization in
            if bool_decide (0 < length overrides) then
              match default (PDict []) (Dict.get "overrides" d) with
              | PDict o =>
                  Ok (Dict.set "localization"
                        (PDict (Dict.set "overrides" (PDict (Dict.update o overrides)) d)) conf)
              | _ => Raise (TypeError "not a mapping")
              end
            else Ok (Dict.set "localization" (PDict d) conf)
        | _ => Raise (TypeError "not a mapping")
        end
    end
  else Ok conf.

(** The configuration [main] builds from the file and the options. *)
Definition merged_conf (args : Args) : result (list (string * pyval)) :=
  let conf := default [] (pipeline args) in
  let conf := match arg_name args with Some n => Dict.set "name" (PStr n) conf | None => conf end in
  let conf := match arg_script args with Some p => Dict.set "script" (PStr p) conf | None => conf end in
  match merge_options "resources" (arg_resources args) conf with
  | Raise e => Raise e
  | Ok conf =>
      match merge_options "adapter" (arg_adapter args) conf with
      | Raise e => Raise e
      | Ok conf =>
          match merge_options "backend" (arg_backend args) conf with
          | Raise e => Raise e
          | Ok conf =>
              match merge_inputs (arg_input args) (merge_outputs (arg_output args) conf) with
              | Raise e => Raise e
              | Ok conf => merge_localization (arg_localization args) conf
              end
          end
      end
  end.

(** A call of [run_pipeline] with further positional arguments: the method is declared as
    [run_pipeline(self)], so Python binds no further positional
    argument and raises before the body starts. *)
Definition call_run_pipeline (self : Orchestrator) (positional : list pyval)
    : M (option (string * list (string * list (string * string)) * gmap string string)) :=
  match positional with
  | [] => run_pipeline self
  | _ => raise (TypeError "run_pipeline() takes 1 positional argument but 2 were given")
  end.

(** [main], after [parser.parse_args()]. *)
Definition main (args : Args)
    : M (option (string * list (string * list (string * string)) * gmap string string)) :=
  conf <- lift (merged_conf args) ;;
  (match export args with
   | Some file => emit (YamlDump (PDict conf) file)
   | None => ret tt
   end) ;;;
  orchestrator <- Orchestrator__init__ (PDict conf) ;;
  call_run_pipeline orchestrator [PBool (dry_run args)].
End Canine.

(** ** Sample collaborators and scenarios *)

(** [fnmatch] on patterns made of literal characters, [*] and [?]. *)
Fixpoint glob (pat s : string) {struct pat} : bool :=
  match pat with
  | EmptyString => bool_decide (s = "")
  | String c pat' =>
      if bool_decide (c = "*"%char) then
        (fix star (s : string) : bool :=
           glob pat' s || match s with
                          | EmptyString => false
                          | String _ s' => star s'
                          end) s
      else
        match s with
        | EmptyString => false
        | String d s' => (bool_decide (c = "?"%char) || bool_decide (c = d)) && glob pat' s'
        end
  end.

(** [os.path.relpath] for a path below [start]. *)
Definition relpath_below (path start : string) : string :=
  if Str.startswith (start +:+ "/") path
  then String.substring (String.length start + 1) (String.length path - String.length start - 1) path
  else path.

(** A walk that lists the files directly inside [start]. *)
Definition walk_flat (files dirs : gset string) (start : string)
    : list (string * list string * list string) :=
  [(start, [], map posixpath.basename
                   (filter (fun f => posixpath.dirname f = start) (elements files)))].

Definition sample_env (job_spec : list (string * list (string * string))) : Env :=
  mkEnv (fun name pat => glob pat name) relpath_below (fun p => p) walk_flat
        (fun _ _ _ => []) "stage" "my-project" (fun _ => 0) (fun _ => false) "42"
        (fun path => Raise (FileNotFoundError path)) (fun _ => Ok job_spec).

Definition world_with (host ctrl : list string) (feed : list (gmap string string)) : World :=
  mkWorld (list_to_set host) ∅ (list_to_set ctrl) ∅ ∅ feed [].

Definition sample_localizer : Localizer :=
  Localizer__init__ (sample_env []) true true (Some "stage") (Some "/mnt/stage").


(** A pipeline given as a list of shell lines, and one given as a path. *)
Definition conf_with_script (script : pyval) : pyval :=
  PDict [("script", script); ("inputs", PDict [("FOO", PStr "bar")])].

Definition dry_run_args : Args :=
  mkArgs (Some [("script", PList [PStr "echo $FOO"]); ("inputs", PDict [("FOO", PStr "bar")])])
         true None None None [] [] [] [] [] [].

(** ** Vocabulary of the statements *)

(** Events that only report: the exported configuration and warnings. *)
Definition report_only (ev : event) : Prop :=
  match ev with
  | YamlDump _ _ | Stderr _ => True
  | _ => False
  end.

(** The values the options give to one input name, in order. *)
Definition option_values (x : string) (options : list (string * string)) : list string :=
  (filter (fun kv => kv.1 = x) options).*2.

(** What [gather_inputs] holds for a name: nothing, the single value, or
    the list of the values. *)
Definition gathered (values : list string) : option pyval :=
  match values with
  | [] => None
  | [v] => Some (PStr v)
  | _ => Some (PList (PStr <$> values))
  end.

Definition gather_step (inputs : list (string * pyval)) (kv : string * string) :=
  match Dict.get kv.1 inputs with
  | Some (PList l) => Dict.set kv.1 (PList (l ++ [PStr kv.2])) inputs
  | Some v => Dict.set kv.1 (PList [v; PStr kv.2]) inputs
  | None => Dict.set kv.1 (PStr kv.2) inputs
  end.

(** The value of input [x] in a configuration. *)
Definition conf_input (conf : list (string * pyval)) (x : string) : option pyval :=
  match Dict.get "inputs" conf with
  | Some (PDict d) => Dict.get x d
  | _ => None
  end.

Definition yaml_a : list (string * pyval) := [("inputs", PDict [("x", PStr "a")])].




(** One task whose input [ref] is overridden to [common]. *)
Definition task_with_reference : list (string * list (string * string)) :=
  [("0", [("ref", "/a/x.txt")])].

(** The line of [setup.sh] that exports an input: the text between the
    double quotes is what [localize_job] substitutes. *)
Definition export_line (key text : string) : string :=
  "export " +:+ key +:+ "=" +:+ dq +:+ text +:+ dq.

(** One task with a literal that holds a space. *)
Definition task_with_literal : list (string * list (string * string)) :=
  [("0", [("FOO", "hello world")])].

(** The [(dirpath, name, pattern, filename)] that the three nested loops of
    [delocalize] visit, in their order. *)
Definition candidates (listing : list (string * list string * list string))
    (patterns : list (string * string)) : list (string * string * string * string) :=
  flat_map (fun entry : string * list string * list string =>
              flat_map (fun np : string * string =>
                          map (fun filename => (entry.1.1, np.1, np.2, filename)) entry.2)
                       patterns)
           listing.

(** The test of [delocalize] on one of them. *)
Definition is_match (E : Env) (start_dir : string) (c : string * string * string * string)
    : bool :=
  let fullname := posixpath.join c.1.1.1 [c.2] in
  fnmatch E fullname c.1.2 || fnmatch E (relpath E fullname start_dir) c.1.2.

(** The matches of a task, as pairs of output name and full file name, in
    the order [delocalize] meets them. *)
Definition matches (E : Env) (self : Localizer) (patterns : list (string * string))
    (jobId : string) (w : World) : list (string * string) :=
  let start_dir := posixpath.join (CANINE_JOBS (env self)) [jobId; "workspace"] in
  map (fun c : string * string * string * string => (c.1.1.2, posixpath.join c.1.1.1 [c.2]))
      (filter (fun c => is_match E start_dir c = true)
              (candidates (walk E (ctrl_files w) (ctrl_dirs w) start_dir) patterns)).

(** Where a matched file goes on the invoking host. *)
Definition output_path (output_dir jobId name fullname : string) : string :=
  posixpath.join output_dir [jobId; name; posixpath.basename fullname].

(** What [delocalize] does with one match. *)
Definition delocalize_one (jobId output_dir : string) (delete : bool)
    (output_files : list (string * string)) (m : string * string)
    : M (list (string * string)) :=
  (p <- delocalize_file jobId m.1 m.2 output_dir ;;
   (if delete then
      isf <- transport_isfile m.2 ;;
      if isf then transport_remove m.2 else ret tt
    else ret tt) ;;;
   ret (Dict.set m.1 p output_files))%py.


(** An array element that [sacct] lists in a state other than [RUNNING]
    and [PENDING]. *)
Definition finished (acct : gmap string string) (jid : string) : bool :=
  match acct !! jid with
  | Some state => negb (bool_decide (state ∈ ["RUNNING"; "PENDING"]))
  | None => false
  end.

(** The body of the poll loop for a finished element of array index [i]. *)
Definition harvest (E : Env) (localizer : Localizer) (patterns : list (string * string))
    (jid : string) (i : nat)
    (st : gset string * list (string * list (string * string)))
    : M (gset string * list (string * list (string * string))) :=
  (r <- delocalize E localizer patterns "canine_output" (Some (Str.of_nat i)) true ;;
   ret (st.1 ∖ {[jid]}, Dict.update st.2 r))%py.

(** Three array elements, the second of which failed. *)
Definition acct_failed : gmap string string :=
  list_to_map [("42_0", "COMPLETED"); ("42_1", "FAILED"); ("42_2", "RUNNING")].

(** What a turn of the poll loop comes to, for the accounting table [acct]
    that [sacct] returns in it: either it ends normally, the waiting set
    has lost exactly its finished elements and the array index of each of
    them is a key of [outputs]; or it raises, and the exception is one that
    a call of [delocalize] for a finished element raised. *)
Definition round_outcome (E : Env) (localizer : Localizer) (patterns : list (string * string))
    (batch_id : string) (acct : gmap string string)
    (waiting : gset string)
    (result : result (gset string * list (string * list (string * string)))) : Prop :=
  match result with
  | Ok (waiting', outputs') =>
      (forall jid, jid ∈ waiting' <-> jid ∈ waiting /\ finished acct jid = false)
      /\ (forall i, job_id batch_id i ∈ waiting ->
                    finished acct (job_id batch_id i) = true ->
                    Dict.mem (Str.of_nat i) outputs' = true)
  | Raise e =>
      exists i w0 w1,
        job_id batch_id i ∈ waiting /\ finished acct (job_id batch_id i) = true
        /\ delocalize E localizer patterns "canine_output" (Some (Str.of_nat i)) true w0
           = (Raise e, w1)
  end.


(** Where [localize_file] puts a file of the task on the controller, and
    the path it returns for the workers. *)
Definition staged_at (self : Localizer) (jobId value : string) : string :=
  posixpath.join (CANINE_JOBS (env self)) [jobId; "inputs"; posixpath.basename value].
Definition recorded_as (self : Localizer) (jobId value : string) : string :=
  posixpath.join (CANINE_JOBS (environment self)) [jobId; "inputs"; posixpath.basename value].




(** ** Vocabulary of the further properties *)

(** The value of option [k] in the mapping a configuration holds under
    [section]. *)
Definition conf_option (conf : list (string * pyval)) (section k : string) : option pyval :=
  match Dict.get section conf with
  | Some (PDict d) => Dict.get k d
  | _ => None
  end.

(** One entry of [args.localization] on the pair of [overrides] and
    [localization] that [main] fills. *)
Definition localization_step
    (acc : result (list (string * pyval) * list (string * pyval))) (entry : list string)
    : result (list (string * pyval) * list (string * pyval)) :=
  match acc with
  | Raise e => Raise e
  | Ok (overrides, localization) =>
      if bool_decide (entry !! 0 = Some "overrides") then
        match entry !! 1, entry !! 2 with
        | Some k, Some v => Ok (Dict.set k (PStr v) overrides, localization)
        | _, _ => Raise IndexError
        end
      else
        match entry !! 0, entry !! 1 with
        | Some k, Some v => Ok (overrides, Dict.set k (PStr v) localization)
        | _, _ => Raise IndexError
        end
  end.

(** A value whose leaves are all strings. *)
Fixpoint only_strings (obj : pyval) : bool :=
  match obj with
  | PStr _ => true
  | PList l => forallb only_strings l
  | PDict d => forallb (fun kv => match kv with (_, val) => only_strings val end) d
  | _ => false
  end.

(** One round of [for key, value in DEFAULTS.items()] in [fill_config]. *)
Definition apply_default (acc : result (list (string * pyval))) (kv : string * pyval)
    : result (list (string * pyval)) :=
  match acc with
  | Raise e => Raise e
  | Ok cfg =>
      match Dict.get kv.1 cfg, kv.2 with
      | None, _ => Ok (Dict.set kv.1 kv.2 cfg)
      | Some (PDict given), PDict value =>
          Ok (Dict.set kv.1 (PDict (Dict.update value given)) cfg)
      | Some _, PDict _ => Raise (TypeError "not a mapping")
      | Some _, _ => Ok cfg
      end
  end.

(** The mapping a configuration holds under [section], empty when the
    key is missing. *)
Definition conf_mapping (conf : list (string * pyval)) (section : string)
    : list (string * pyval) :=
  match Dict.get section conf with
  | Some (PDict given) => given
  | _ => []
  end.

(** The four directories of the staging tree, in the order [__enter__]
    creates them. *)
Definition staging_tree (self : Localizer) : list string :=
  [CANINE_ROOT (env self); CANINE_COMMON (env self);
   CANINE_OUTPUT (env self); CANINE_JOBS (env self)].

(** The bucket [get_requester_pays] files a path under: the text before
    the first [/], once a leading [gs://] is dropped. *)
Definition bucket_of (path : string) : string :=
  hd "" (Str.split "/"
           (if Str.startswith "gs://" path
            then String.substring 5 (String.length path - 5) path else path)).

(** The next name the loop of [localize_file] tries for a taken path. *)
Definition alt_path (filepath : string) : string :=
  (posixpath.splitext filepath).1 +:+ "._alt" +:+ (posixpath.splitext filepath).2.

(** [w'] continues [w]: the invoking host's files and the foreseen
    accounting tables are as they were, the controller has lost no file
    and no directory, and the outward calls made since are all [allowed]. *)
Definition continues (allowed : event -> Prop) (w w' : World) : Prop :=
  host_files w' = host_files w /\ host_dirs w' = host_dirs w
  /\ ctrl_files w ⊆ ctrl_files w' /\ ctrl_dirs w ⊆ ctrl_dirs w'
  /\ sacct_feed w' = sacct_feed w
  /\ exists t, trace w' = trace w ++ t /\ Forall allowed t.

(** A computation that, however it ends, leaves a world that continues
    the one it started in. *)
Definition keeps {A} (allowed : event -> Prop) (c : M A) : Prop :=
  forall w, continues allowed w (c w).2.

(** The outward calls of localization: commands on the controller, copies
    to it, and warnings. *)
Definition copies_or_reports (ev : event) : Prop :=
  match ev with
  | Invoke _ | Send _ _ | Stderr _ => True
  | _ => False
  end.

(** What [localize] may record for an input named [arg]: type none; type
    [stream] under a [stream] override; type [download], with a [gs://]
    value as the path, under a [delayed] override. *)
Definition record_in_order (overrides : list (string * option string)) (arg : string)
    (l : Localization) : Prop :=
  loc_type l = None
  \/ (loc_type l = Some "stream" /\ override_is overrides arg "stream" = true)
  \/ (loc_type l = Some "download" /\ override_is overrides arg "delayed" = true
      /\ Str.startswith "gs://" (loc_path l) = true).

(** The types of record that [localize_job] has a branch for. *)
Definition known_type (l : Localization) : bool :=
  bool_decide (loc_type l ∈ [None; Some "stream"; Some "download"]).

(** The outward calls [localize_job] may make before it writes the
    script: commands on the controller and warnings. *)
Definition asks_or_reports (ev : event) : Prop :=
  match ev with
  | Invoke _ | Stderr _ => True
  | _ => False
  end.

(** The names [localize_job] lists in [CANINE_JOB_VARS] for a record. *)
Definition exported_names (record : list (string * Localization)) : list string :=
  shlex.quote <$> (filter (fun kv : string * Localization => known_type kv.2 = true) record).*1.

(** A computation that, however it ends, leaves the foreseen accounting
    tables as they were. *)
Definition keeps_feed {A} (c : M A) : Prop :=
  forall w, sacct_feed (c w).2 = sacct_feed w.

(** A computation that, however it ends, only adds outward calls to those
    made so far, all of them [allowed]. *)
Definition emits {A} (allowed : event -> Prop) (c : M A) : Prop :=
  forall w, exists t, trace (c w).2 = trace w ++ t /\ Forall allowed t.



(** Where the workers find a common file. *)
Definition common_dest (self : Localizer) (path : string) : string :=
  posixpath.join (CANINE_COMMON (environment self)) [posixpath.basename path].

(** A common path that [localize] can stage: a [gs://] path when
    [localize_gs] is on, or a file of the invoking host. *)
Definition stageable (self : Localizer) (host : gset string) (path : string) : Prop :=
  Str.startswith "gs://" path && localize_gs self = true \/ path ∈ host.

(** A small run: one task with a literal input and one declared output,
    on a cluster whose accounting lists the task as completed. *)
Definition sample_orchestrator : Orchestrator :=
  mkOrchestrator (PStr "canine") (PList [PStr "echo $FOO"]) (PDict [("FOO", PStr "bar")])
                 (PDict []) "Manual" [] "Local" [] (PDict []) []
                 (PDict [("log", PStr "stdout")]).

Definition acct_completed : gmap string string := {["42_0" := "COMPLETED"]}.
(** * Properties *)

Local Open Scope py_scope.

(** ** Ordered dictionaries *)

Lemma Dict_get_set_eq {V} (k : string) (v : V) (d : list (string * V)) :
  Dict.get k (Dict.set k v d) = Some v.
Proof.
  induction d as [|[k' v'] d IH]; cbn.
  - rewrite bool_decide_eq_true_2; reflexivity.
  - destruct (bool_decide (k' = k)) eqn:Hk; cbn.
    + rewrite bool_decide_eq_true_2; reflexivity.
    + rewrite Hk. exact IH.
Qed.

Lemma Dict_get_set_ne {V} (k k' : string) (v : V) (d : list (string * V)) :
  k' <> k -> Dict.get k (Dict.set k' v d) = Dict.get k d.
Proof.
  intros Hne. induction d as [|[k0 v0] d IH]; cbn.
  - rewrite bool_decide_eq_false_2; [reflexivity | exact Hne].
  - destruct (bool_decide (k0 = k')) eqn:Hk; cbn.
    + apply bool_decide_eq_true_1 in Hk. subst k0.
      rewrite !bool_decide_eq_false_2 by exact Hne. reflexivity.
    + destruct (bool_decide (k0 = k)); [reflexivity | exact IH].
Qed.

(** ** The orchestrator's constructor *)

Lemma fill_config_name (E : Env) (d cfg : list (string * pyval)) :
  fill_config E (PDict d) = Ok cfg -> exists nm, Dict.get "name" cfg = Some nm.
Proof.
  unfold fill_config. cbn. intros Hfill.
  repeat (case_match; try discriminate); simplify_eq;
    rewrite ?Dict_get_set_ne by discriminate;
    rewrite ?Dict_get_set_eq; eauto.
Qed.

(** C1. A configuration whose [script] is the path of an existing shell
    file does not build an orchestrator: the path passes the existence
    test and then falls into the branch for values that are not lists, so
    the constructor raises [TypeError] and nothing else happens. *)
Theorem existing_script_path_raises_TypeError
    (E : Env) (d cfg : list (string * pyval)) (path : string) (w : World) :
  fill_config E (PDict d) = Ok cfg ->
  Dict.get "script" cfg = Some (PStr path) ->
  path ∈ host_files w ->
  Orchestrator__init__ E (PDict d) w
  = (Raise (TypeError "script must be a path to a bash script or a list of bash commands"), w).
Proof.
  intros Hfill Hscript Hfile.
  destruct (fill_config_name E d cfg Hfill) as [nm Hn].
  unfold Orchestrator__init__, bind, lift. rewrite Hfill. cbn.
  rewrite Hn. cbn. rewrite Hscript. cbn.
  unfold os_path_isfile, gets, bind. cbn.
  rewrite bool_decide_eq_true_2 by exact Hfile. cbn. reflexivity.
Qed.

Lemma existing_script_path_raises_TypeError_witness :
  Orchestrator__init__ (sample_env []) (conf_with_script (PStr "/home/u/run.sh"))
                       (world_with ["/home/u/run.sh"] [] [])
  = (Raise (TypeError "script must be a path to a bash script or a list of bash commands"),
     world_with ["/home/u/run.sh"] [] []).
Proof.
  apply (existing_script_path_raises_TypeError (sample_env [])
           [("script", PStr "/home/u/run.sh"); ("inputs", PDict [("FOO", PStr "bar")])]
           [("script", PStr "/home/u/run.sh"); ("inputs", PDict [("FOO", PStr "bar")]);
            ("name", PStr "canine"); ("adapter", PDict [("type", PStr "Manual")]);
            ("backend", PDict [("type", PStr "Local")])]
           "/home/u/run.sh").
  - reflexivity.
  - reflexivity.
  - vm_compute. reflexivity.
Defined.

(** The same configuration with a list of lines is accepted. *)
Lemma script_lines_accepted :
  exists o w',
    Orchestrator__init__ (sample_env []) (conf_with_script (PList [PStr "echo $FOO"]))
                         (world_with [] [] []) = (Ok o, w')
    /\ script o = PList [PStr "echo $FOO"].
Proof. eexists _, _. split; [vm_compute; reflexivity | reflexivity]. Qed.

(** ** Leaving the localizer's scope *)

Lemma exit_clean (E : Env) (self : Localizer) (w : World) :
  Localizer__exit__ E self [None; None; None] w
  = (Ok tt, mkWorld (host_files w) (host_dirs w) (ctrl_files w) (ctrl_dirs w)
                    (requester_pays w) (sacct_feed w)
                    (trace w ++ [Invoke ("rm -rf " +:+ CANINE_ROOT (env self))])).
Proof. reflexivity. Qed.

Lemma exit_faulted (E : Env) (self : Localizer) (ty val tb : string) (w : World) :
  Localizer__exit__ E self [Some ty; Some val; Some tb] w = (Ok tt, w).
Proof. reflexivity. Qed.

(** The [with] block of [run_pipeline]: once the scope is entered, the
    block's result is the result of the whole, and the staging tree is
    removed after a normal end only. *)
Lemma with_localizer_exit {A} (E : Env) (loc localizer : Localizer) (body : Localizer -> M A)
    (w w1 w2 : World) (r : result A) :
  Localizer__enter__ loc w = (Ok localizer, w1) ->
  body localizer w1 = (r, w2) ->
  with_localizer E loc body w
  = (r, match r with
        | Ok _ =>
            mkWorld (host_files w2) (host_dirs w2) (ctrl_files w2) (ctrl_dirs w2)
                    (requester_pays w2) (sacct_feed w2)
                    (trace w2 ++ [Invoke ("rm -rf " +:+ CANINE_ROOT (env localizer))])
        | Raise _ => w2
        end).
Proof.
  intros Henter Hbody. unfold with_localizer, bind. rewrite Henter, Hbody.
  destruct r as [a|e]; unfold exit_args; [rewrite exit_clean | rewrite exit_faulted]; reflexivity.
Qed.


(** ** The command line entry point *)

Lemma init_effects (E : Env) (c : pyval) (w : World) :
  exists r t,
    Orchestrator__init__ E c w
    = (r, mkWorld (host_files w) (host_dirs w) (ctrl_files w) (ctrl_dirs w)
                  (requester_pays w) (sacct_feed w) (trace w ++ t))
    /\ Forall report_only t.
Proof.
  destruct w as [hf hd cf cd rp feed tr].
  unfold Orchestrator__init__, bind, lift, ret, raise, os_path_isfile, gets, emit, modify. cbn.
  repeat (case_match; simplify_eq; cbn in * );
    first [ (eexists _, []; rewrite app_nil_r; split; [reflexivity | constructor])
          | (eexists _, [_]; split; [reflexivity | repeat constructor]) ].
Qed.

(** C4. With [--dry-run], as without it, nothing is localized and no job
    is prepared: [main] hands the flag to [run_pipeline], which takes no
    argument besides [self], so the call raises [TypeError] before the
    pipeline starts, unless the configuration was rejected even earlier.
    The run ends with an exception, both file systems are as they were, and
    the only outward calls are the optional export of the configuration and
    warnings. *)
Theorem dry_run_raises_before_localization :
  forall (E : Env) (args : Args) (w : World),
    exists e w' t,
      main E args w = (Raise e, w')
      /\ ctrl_files w' = ctrl_files w /\ ctrl_dirs w' = ctrl_dirs w
      /\ host_files w' = host_files w /\ host_dirs w' = host_dirs w
      /\ trace w' = trace w ++ t /\ Forall report_only t
      /\ (e = TypeError "run_pipeline() takes 1 positional argument but 2 were given"
          \/ merged_conf args = Raise e
          \/ exists conf w0 w1, Orchestrator__init__ E (PDict conf) w0 = (Raise e, w1)).
Proof.
  intros E args w. unfold main, bind, lift.
  destruct (merged_conf args) as [conf|e]; cbn.
  2:{ exists e, w, []. rewrite app_nil_r. repeat split; auto. }
  assert (Hw1 : exists t1, (match export args with
              | Some file => emit (YamlDump (PDict conf) file)
              | None => ret tt
              end w) = (Ok tt, mkWorld (host_files w) (host_dirs w) (ctrl_files w) (ctrl_dirs w)
                  (requester_pays w) (sacct_feed w) (trace w ++ t1)) /\ Forall report_only t1).
  { destruct (export args); cbn.
    - eexists [_]. split; [reflexivity | repeat constructor].
    - exists []. rewrite app_nil_r. destruct w; split; [reflexivity | constructor]. }
  destruct Hw1 as (t1 & -> & Ht1).
  destruct (init_effects E (PDict conf) (mkWorld (host_files w) (host_dirs w) (ctrl_files w) (ctrl_dirs w)
                  (requester_pays w) (sacct_feed w) (trace w ++ t1))) as (r & t2 & Hinit & Ht2).
  rewrite Hinit. cbn. destruct r as [o|e]; cbn.
  - eexists _, _, (t1 ++ t2). split; [reflexivity|]. cbn.
    rewrite app_assoc. repeat split; try reflexivity; [apply Forall_app; auto | left; reflexivity].
  - eexists _, _, (t1 ++ t2). split; [reflexivity|]. cbn.
    rewrite app_assoc. repeat split; try reflexivity; [apply Forall_app; auto|].
    right. right. eauto.
Qed.

(** The exception of a dry run of a well-formed pipeline, and its trace. *)
Lemma dry_run_sample :
  main (sample_env [("0", [("FOO", "bar")])]) dry_run_args (world_with [] [] [])
  = (Raise (TypeError "run_pipeline() takes 1 positional argument but 2 were given"),
     mkWorld ∅ ∅ ∅ ∅ ∅ [] [Stderr "No outputs declared"]).
Proof. vm_compute. reflexivity. Qed.

(** ** The merge of [--input] options *)

Lemma Dict_keys_set {V} (k : string) (v : V) (d : list (string * V)) :
  (Dict.set k v d).*1 = if Dict.mem k d then d.*1 else d.*1 ++ [k].
Proof.
  unfold Dict.mem. induction d as [|[k' v'] d IH]; cbn; [reflexivity|].
  destruct (bool_decide (k' = k)) eqn:Hk; cbn.
  - apply bool_decide_eq_true_1 in Hk. subst. reflexivity.
  - rewrite IH. destruct (Dict.get k d); reflexivity.
Qed.

Lemma Dict_get_None {V} (k : string) (d : list (string * V)) :
  Dict.get k d = None <-> k ∉ d.*1.
Proof.
  induction d as [|[k' v'] d IH]; cbn.
  - split; [intros _; apply not_elem_of_nil | reflexivity].
  - rewrite not_elem_of_cons. destruct (bool_decide (k' = k)) eqn:Hk.
    + apply bool_decide_eq_true_1 in Hk. subst. split; [discriminate | intros [? _]; congruence].
    + apply bool_decide_eq_false_1 in Hk. rewrite IH. split; [intros ?; split; congruence | intros [_ ?]; assumption].
Qed.

Lemma Dict_set_NoDup {V} (k : string) (v : V) (d : list (string * V)) :
  NoDup d.*1 -> NoDup (Dict.set k v d).*1.
Proof.
  intros Hd. rewrite Dict_keys_set. unfold Dict.mem.
  destruct (Dict.get k d) eqn:Hk; [exact Hd|].
  apply NoDup_app. split; [exact Hd|]. split.
  - intros x Hx Hin. apply list_elem_of_singleton in Hin. subst x.
    apply Dict_get_None in Hk. contradiction.
  - apply NoDup_singleton.
Qed.

(** [{**d1, **d2}]: the entries of [d2] win, the others come from [d1]. *)
Lemma Dict_get_update {V} (k : string) (d1 d2 : list (string * V)) :
  NoDup d2.*1 ->
  Dict.get k (Dict.update d1 d2) = match Dict.get k d2 with
                                   | Some v => Some v
                                   | None => Dict.get k d1
                                   end.
Proof.
  unfold Dict.update. revert d1. induction d2 as [|[k' v'] d2 IH]; intros d1 Hnd; cbn.
  - reflexivity.
  - cbn in Hnd. apply NoDup_cons in Hnd as [Hk' Hnd]. rewrite (IH _ Hnd).
    destruct (bool_decide (k' = k)) eqn:Hk.
    + apply bool_decide_eq_true_1 in Hk. subst k'.
      apply Dict_get_None in Hk'. rewrite Hk'. apply Dict_get_set_eq.
    + apply bool_decide_eq_false_1 in Hk.
      destruct (Dict.get k d2); [reflexivity|]. apply Dict_get_set_ne. exact Hk.
Qed.

Lemma gather_step_NoDup inputs kv : NoDup inputs.*1 -> NoDup (gather_step inputs kv).*1.
Proof.
  intros H. unfold gather_step. repeat case_match; apply Dict_set_NoDup; exact H.
Qed.

Lemma gather_inputs_snoc (options : list (string * string)) (kv : string * string) :
  gather_inputs (options ++ [kv]) = gather_step (gather_inputs options) kv.
Proof. unfold gather_inputs. rewrite foldl_app. reflexivity. Qed.

Lemma gather_inputs_NoDup (options : list (string * string)) :
  NoDup (gather_inputs options).*1.
Proof.
  induction options as [|kv options IH] using rev_ind.
  - apply NoDup_nil_2.
  - rewrite gather_inputs_snoc. apply gather_step_NoDup, IH.
Qed.

Lemma option_values_snoc x options kv :
  option_values x (options ++ [kv])
  = option_values x options ++ (if bool_decide (kv.1 = x) then [kv.2] else []).
Proof.
  unfold option_values. rewrite filter_app, fmap_app. f_equal.
  rewrite filter_cons, filter_nil.
  destruct (decide (kv.1 = x)) as [Heq|Hne].
  - rewrite bool_decide_eq_true_2 by exact Heq. reflexivity.
  - rewrite bool_decide_eq_false_2 by exact Hne. reflexivity.
Qed.

Lemma gather_inputs_get (x : string) (options : list (string * string)) :
  Dict.get x (gather_inputs options) = gathered (option_values x options).
Proof.
  induction options as [|[k v] options IH] using rev_ind.
  - reflexivity.
  - rewrite gather_inputs_snoc, option_values_snoc. cbn.
    destruct (bool_decide (k = x)) eqn:Hk.
    + apply bool_decide_eq_true_1 in Hk. subst k.
      unfold gather_step. cbn. rewrite IH.
      destruct (option_values x options) as [|v1 [|v2 vs]]; cbn.
      * apply Dict_get_set_eq.
      * apply Dict_get_set_eq.
      * rewrite Dict_get_set_eq. rewrite !fmap_app. reflexivity.
    + apply bool_decide_eq_false_1 in Hk. rewrite app_nil_r, <- IH.
      unfold gather_step. cbn.
      repeat case_match; apply Dict_get_set_ne; exact Hk.
Qed.

(** C3, as stated, fails: with [inputs.x = a] in the YAML file, the single
    option [--input x:b] leaves [inputs.x = b], not the list of [a] and [b]. *)
Lemma yaml_value_is_replaced_not_joined :
  (match merge_inputs [("x", "b")] yaml_a with
   | Ok conf => conf_input conf "x"
   | Raise _ => None
   end) = Some (PStr "b")
  /\ ~ (match merge_inputs [("x", "b")] yaml_a with
        | Ok conf => conf_input conf "x"
        | Raise _ => None
        end) = Some (PList [PStr "a"; PStr "b"]).
Proof. split; [reflexivity | discriminate]. Qed.

(** C3, amended. When [--input] options are given, an input named by them
    takes its value from the options alone, whatever the YAML file says: the
    value itself when the name occurs once, the list of the values in
    command line order when it occurs several times; an input the options
    do not name keeps the YAML value. So [inputs.x = a] with [--input x:b]
    gives [b], and [--input x:b --input x:c] gives the list of [b] and [c]. *)
Theorem cli_inputs_replace_yaml_and_accumulate :
  forall (options : list (string * string)) (conf conf' : list (string * pyval)) (x : string),
    options <> [] ->
    merge_inputs options conf = Ok conf' ->
    conf_input conf' x = match gathered (option_values x options) with
                         | Some v => Some v
                         | None => conf_input conf x
                         end.
Proof.
  intros options conf conf' x Hne. unfold merge_inputs.
  rewrite bool_decide_eq_true_2 by (destruct options; [congruence | cbn; lia]).
  unfold conf_input.
  destruct (Dict.get "inputs" conf) as [[| | | | |d]|] eqn:Hin; cbn; try discriminate.
  - intros [= <-]. rewrite Dict_get_set_eq.
    rewrite Dict_get_update by apply gather_inputs_NoDup.
    rewrite gather_inputs_get. reflexivity.
  - intros [= <-]. rewrite Dict_get_set_eq.
    rewrite Dict_get_update by apply gather_inputs_NoDup.
    rewrite gather_inputs_get. reflexivity.
Qed.

Lemma cli_inputs_replace_yaml_and_accumulate_witness :
  conf_input [("inputs", PDict [("x", PList [PStr "b"; PStr "c"])])] "x"
  = Some (PList [PStr "b"; PStr "c"]).
Proof.
  exact (cli_inputs_replace_yaml_and_accumulate
           [("x", "b"); ("x", "c")] [] [("inputs", PDict [("x", PList [PStr "b"; PStr "c"])])] "x"
           ltac:(discriminate) eq_refl).
Defined.

(** ** The common set *)






(** ** The monad *)

Lemma bind_Ok {A B} (c : M A) (k : A -> M B) (w w' : World) (b : B) :
  bind c k w = (Ok b, w') -> exists a w1, c w = (Ok a, w1) /\ k a w1 = (Ok b, w').
Proof.
  unfold bind. destruct (c w) as [[a|e] w1]; [eauto | discriminate].
Qed.

Lemma bind_ext {A B} (c c' : M A) (k k' : A -> M B) (w : World) :
  c w = c' w -> (forall a w1, k a w1 = k' a w1) -> bind c k w = bind c' k' w.
Proof.
  intros Hc Hk. unfold bind. rewrite Hc. destruct (c' w) as [[a|e] w1]; [apply Hk | reflexivity].
Qed.

Lemma ret_Ok {A} (a b : A) (w w' : World) : ret a w = (Ok b, w') -> a = b /\ w = w'.
Proof. unfold ret. intros [= -> ->]. auto. Qed.

Lemma for_fold_app {A S} (body : S -> A -> M S) (l1 l2 : list A) (s : S) (w : World) :
  for_fold body (l1 ++ l2) s w = (s' <- for_fold body l1 s ;; for_fold body l2 s') w.
Proof.
  revert s w. induction l1 as [|x l1 IH]; intros s w; cbn.
  - reflexivity.
  - unfold bind. destruct (body s x w) as [[s1|e] w1]; [|reflexivity].
    rewrite IH. reflexivity.
Qed.

(** A property of the loop-carried value that every round keeps holds at
    the end of a loop that ends normally. *)
Lemma for_fold_invariant {A S} (P : S -> Prop) (body : S -> A -> M S) (l : list A) :
  (forall s x w s' w', P s -> body s x w = (Ok s', w') -> P s') ->
  forall s w s' w', P s -> for_fold body l s w = (Ok s', w') -> P s'.
Proof.
  intros Hstep. induction l as [|x l IH]; intros s w s' w' Hs Hrun; cbn in Hrun.
  - apply ret_Ok in Hrun as [-> _]. exact Hs.
  - apply bind_Ok in Hrun as (s1 & w1 & H1 & H2). eauto.
Qed.

(** What [localize] leaves in [self.common_inputs]. *)
Lemma localize_common_inputs (E : Env) (self self' : Localizer)
    (job_spec : list (string * list (string * string)))
    (overrides : option (list (string * pyval))) (w w' : World) :
  localize E self job_spec overrides w = (Ok self', w') ->
  common_inputs self'
  = if common self
    then scan_common (normalize_overrides (default [] overrides)) job_spec (common_inputs self)
    else common_inputs self.
Proof.
  unfold localize. intros H.
  apply bind_Ok in H as (cd & w1 & _ & H).
  apply bind_Ok in H as (ins & w2 & _ & H).
  apply ret_Ok in H as [<- _]. reflexivity.
Qed.

(** ** Inputs overridden to [common] *)

Lemma localize_input_other_key (E : Env) (self : Localizer)
    (ov : list (string * option string)) (cd : gmap string string) (jobId arg k v : string)
    (record record' : list (string * Localization)) (w w' : World) :
  k <> arg ->
  localize_input E self ov cd jobId record (k, v) w = (Ok record', w') ->
  Dict.get arg record' = Dict.get arg record.
Proof.
  intros Hne Hrun. unfold localize_input in Hrun.
  repeat first [ progress case_match
               | apply bind_Ok in Hrun as (? & ? & ? & Hrun) ];
    apply ret_Ok in Hrun as [<- _];
    try reflexivity; apply Dict_get_set_ne; exact Hne.
Qed.

Lemma localize_input_common_key (E : Env) (self : Localizer)
    (ov : list (string * option string)) (cd : gmap string string) (jobId arg v : string)
    (record : list (string * Localization)) (w : World) :
  Dict.get arg ov = Some (Some "common") ->
  localize_input E self ov cd jobId record (arg, v) w = (Ok record, w).
Proof. intros Hov. unfold localize_input. rewrite Hov. reflexivity. Qed.

Lemma localize_inputs_skip_common (E : Env) (self : Localizer)
    (ov : list (string * option string)) (cd : gmap string string) (jobId arg : string)
    (data : list (string * string)) :
  Dict.get arg ov = Some (Some "common") ->
  forall record w record' w',
    Dict.get arg record = None ->
    for_fold (localize_input E self ov cd jobId) data record w = (Ok record', w') ->
    Dict.get arg record' = None.
Proof.
  intros Hov. apply for_fold_invariant. intros record [k v] w record' w' Hrec Hstep.
  destruct (decide (k = arg)) as [->|Hne].
  - rewrite (localize_input_common_key E self ov cd jobId arg v record w Hov) in Hstep.
    injection Hstep as <- _. exact Hrec.
  - rewrite (localize_input_other_key E self ov cd jobId arg k v record record' w w' Hne Hstep).
    exact Hrec.
Qed.

(** A round of the loop over the tasks sets the task's entry to the
    records that the loop over its inputs made from nothing. *)
Lemma localize_task_shape (E : Env) (self : Localizer)
    (ov : list (string * option string)) (cd : gmap string string)
    (ins ins' : list (string * list (string * Localization)))
    (job : string * list (string * string)) (w w' : World) :
  localize_task E self ov cd ins job w = (Ok ins', w') ->
  exists record w1 w2,
    ins' = Dict.set job.1 record ins
    /\ for_fold (localize_input E self ov cd job.1) job.2 [] w1 = (Ok record, w2).
Proof.
  destruct job as [jobId data]. unfold localize_task. intros H.
  apply bind_Ok in H as (isd & w1 & _ & H).
  apply bind_Ok in H as (u & w2 & _ & H).
  apply bind_Ok in H as (record & w3 & Hrec & H).
  apply ret_Ok in H as [<- _]. eauto.
Qed.

Lemma Dict_mem_set {V} (k k' : string) (v : V) (d : list (string * V)) :
  Dict.mem k (Dict.set k' v d) = bool_decide (k' = k) || Dict.mem k d.
Proof.
  unfold Dict.mem. destruct (decide (k' = k)) as [->|Hne].
  - rewrite Dict_get_set_eq, bool_decide_eq_true_2; reflexivity.
  - rewrite Dict_get_set_ne by exact Hne. rewrite bool_decide_eq_false_2 by exact Hne. reflexivity.
Qed.

Lemma localize_tasks_cover (E : Env) (self : Localizer)
    (ov : list (string * option string)) (cd : gmap string string)
    (job_spec : list (string * list (string * string))) :
  forall ins w ins' w' j,
    for_fold (localize_task E self ov cd) job_spec ins w = (Ok ins', w') ->
    j ∈ job_spec.*1 \/ Dict.mem j ins = true ->
    Dict.mem j ins' = true.
Proof.
  induction job_spec as [|job js IH]; intros ins w ins' w' j Hrun Hj; cbn in Hrun.
  - apply ret_Ok in Hrun as [<- _]. destruct Hj as [Hj|Hj]; [|exact Hj].
    apply elem_of_nil in Hj. contradiction.
  - apply bind_Ok in Hrun as (ins1 & w1 & Hstep & Hrest).
    apply (IH _ _ _ _ j Hrest).
    apply localize_task_shape in Hstep as (record & _ & _ & -> & _).
    rewrite Dict_mem_set. cbn in Hj. rewrite elem_of_cons in Hj.
    destruct Hj as [[->|Hj]|Hj].
    + right. rewrite bool_decide_eq_true_2; reflexivity.
    + left. exact Hj.
    + right. rewrite Hj. apply orb_true_r.
Qed.

(** C2. An input whose override is [common] gets no Localization record:
    when [localize] returns, every task of the specification has its entry
    in the per-task input map, and in that entry the overridden input is
    missing. The file was copied to the common area, but the record of type
    none that should point there is never written, so [setup.sh] exports
    nothing for it. *)
Theorem common_override_leaves_no_record :
  forall (E : Env) (self self' : Localizer)
         (job_spec : list (string * list (string * string)))
         (overrides : list (string * pyval)) (arg jobId : string) (w w' : World),
    inputs self = [] ->
    Dict.get arg (normalize_overrides overrides) = Some (Some "common") ->
    jobId ∈ job_spec.*1 ->
    localize E self job_spec (Some overrides) w = (Ok self', w') ->
    exists record,
      Dict.get jobId (inputs self') = Some record /\ Dict.get arg record = None.
Proof.
  intros E self self' job_spec overrides arg jobId w w' Hfresh Hov Hjob Hrun.
  unfold localize in Hrun. cbn [default] in Hrun.
  apply bind_Ok in Hrun as (cd & w1 & _ & Hrun).
  apply bind_Ok in Hrun as (ins & w2 & Hins & Hrun).
  apply ret_Ok in Hrun as [<- _]. cbn [inputs with_inputs].
  rewrite Hfresh in Hins. clear Hfresh.
  assert (Hmem : Dict.mem jobId ins = true).
  { eapply localize_tasks_cover; [exact Hins | left; exact Hjob]. }
  unfold Dict.mem in Hmem. destruct (Dict.get jobId ins) as [record|] eqn:Hget; [|discriminate].
  exists record. split; [reflexivity|].
  revert Hget. generalize record jobId. clear Hmem Hjob record jobId.
  eapply (for_fold_invariant
            (fun ins => forall record j, Dict.get j ins = Some record -> Dict.get arg record = None));
    [ | | exact Hins].
  - intros ins0 job w0 ins1 w3 Hinv Hstep record j.
    apply localize_task_shape in Hstep as (rec0 & wa & wb & -> & Hrec).
    destruct (decide (job.1 = j)) as [<-|Hne].
    + rewrite Dict_get_set_eq. intros [= <-].
      eapply localize_inputs_skip_common; [exact Hov | | exact Hrec]. reflexivity.
    + rewrite Dict_get_set_ne by exact Hne. apply Hinv.
  - intros record j. discriminate.
Qed.

Lemma common_override_leaves_no_record_witness :
  exists record,
    Dict.get "0" (inputs (with_inputs sample_localizer {["/a/x.txt"]} [("0", [])]))
    = Some record /\ Dict.get "ref" record = None.
Proof.
  apply (common_override_leaves_no_record (sample_env []) sample_localizer
           (with_inputs sample_localizer {["/a/x.txt"]} [("0", [])])
           task_with_reference [("ref", PStr "Common")] "ref" "0"
           (world_with ["/a/x.txt"] [] [])
           (mkWorld {["/a/x.txt"]} ∅ {["stage/common/x.txt"]}
                    (list_to_set ["stage/jobs/0/workspace"; "stage/jobs/0"; "stage/jobs"; "stage"])
                    ∅ [] [Send "/a/x.txt" "stage/common/x.txt"])).
  - reflexivity.
  - reflexivity.
  - cbn. set_solver.
  - vm_compute. reflexivity.
Defined.

(** ** Strings *)

Lemma String_app_cons (a : ascii) (s1 s2 : string) :
  String a s1 +:+ s2 = String a (s1 +:+ s2).
Proof. reflexivity. Qed.

Lemma String_app_nil_l (s : string) : "" +:+ s = s.
Proof. reflexivity. Qed.

Lemma String_length_app (s1 s2 : string) :
  String.length (s1 +:+ s2) = String.length s1 + String.length s2.
Proof.
  induction s1 as [|a s1 IH]; [reflexivity|].
  rewrite String_app_cons. cbn. rewrite IH. reflexivity.
Qed.

Lemma String_app_assoc (s1 s2 s3 : string) : (s1 +:+ s2) +:+ s3 = s1 +:+ (s2 +:+ s3).
Proof.
  induction s1 as [|a s1 IH]; [reflexivity|].
  rewrite !String_app_cons, IH. reflexivity.
Qed.

Lemma String_app_nil_r (s : string) : s +:+ "" = s.
Proof.
  induction s as [|a s IH]; [reflexivity|]. rewrite String_app_cons, IH. reflexivity.
Qed.

Lemma replace_char_length (c : ascii) (by_ s : string) :
  0 < String.length by_ -> String.length s <= String.length (Str.replace_char c by_ s).
Proof.
  intros Hby. induction s as [|a s IH]; cbn; [lia|].
  destruct (bool_decide (a = c)); cbn; [rewrite String_length_app|]; lia.
Qed.

(** ** Literals in [setup.sh] *)

(** [shlex.quote] returns its argument unchanged exactly on non-empty words
    of safe characters. *)
Lemma quote_fixed_iff (v : string) :
  shlex.quote v = v <-> v <> "" /\ Str.all_chars shlex.safe_char v = true.
Proof.
  unfold shlex.quote. destruct (decide (v = "")) as [->|Hne].
  - cbn. split; [discriminate | intros [? _]; congruence].
  - rewrite bool_decide_eq_false_2 by exact Hne.
    destruct (Str.all_chars shlex.safe_char v) eqn:Hsafe.
    + split; [auto | reflexivity].
    + split; [|intros [_ ?]; discriminate].
      intros Heq. apply (f_equal String.length) in Heq.
      rewrite !String_length_app in Heq. cbn in Heq.
      pose proof (replace_char_length "'"%char shlex.escaped_squote v ltac:(cbn; lia)).
      lia.
Qed.

(** A value without override that is neither a common input, nor a file of
    the invoking host, nor a cloud URI is recorded as it is. *)
Lemma localize_input_literal (E : Env) (self : Localizer)
    (ov : list (string * option string)) (cd : gmap string string) (jobId arg v : string)
    (record : list (string * Localization)) (w : World) :
  Dict.get arg ov = None ->
  cd !! v = None ->
  v ∉ host_files w ->
  Str.startswith "gs://" v = false ->
  localize_input E self ov cd jobId record (arg, v) w
  = (Ok (Dict.set arg (mkLocalization None v) record), w).
Proof.
  intros Hov Hcd Hfile Hgs. unfold localize_input. rewrite Hov, Hcd.
  unfold bind, os_path_isfile, gets. rewrite bool_decide_eq_false_2 by exact Hfile.
  rewrite Hgs. reflexivity.
Qed.

(** C7. The value [setup.sh] exports for a literal is not the literal: the
    record of type none is written as [export KEY="..."] with the result
    of [shlex.quote] between the double quotes, and that result is the
    value itself only for a non-empty word of safe characters. A value with
    a space or a shell metacharacter is wrapped in single quotes, which the
    double quotes keep, so the task sees the quotes as part of the value. *)
Theorem literal_is_quoted_inside_double_quotes :
  forall (E : Env) (self : Localizer) (jobId key v : string)
         (job_vars exports extra_tasks : list string) (w : World),
    setup_input E self jobId (job_vars, exports, extra_tasks) (key, mkLocalization None v) w
    = (Ok (job_vars ++ [shlex.quote key],
           exports ++ [export_line key (shlex.quote v)],
           extra_tasks), w)
    /\ (shlex.quote v = v <-> v <> "" /\ Str.all_chars shlex.safe_char v = true)
    /\ shlex.quote "hello world" = "'hello world'".
Proof.
  intros. split; [reflexivity|]. split; [apply quote_fixed_iff | reflexivity].
Qed.

(** The script written for a task whose input [FOO] is [hello world]. *)
Lemma literal_with_space_sample :
  let E := sample_env [] in
  (trace ((self <- localize E sample_localizer task_with_literal None ;;
           localize_job E self "0" None) (world_with [] [] [])).2)
  = [OpenWrite "stage/jobs/0/setup.sh"
       (Str.join nl
          ["#!/bin/bash";
           "export CANINE_JOB_VARS=FOO";
           export_line "CANINE_JOB_INPUTS" "/mnt/stage/jobs/0/inputs";
           export_line "CANINE_JOB_ROOT" "/mnt/stage/jobs/0/workspace";
           export_line "CANINE_JOB_SETUP" "/mnt/stage/jobs/0/setup.sh";
           export_line "CANINE_JOB_TEARDOWN" "/mnt/stage/jobs/0/teardown.sh";
           export_line "FOO" "'hello world'";
           "if [[ -d $CANINE_JOB_INPUTS ]]; then cd $CANINE_JOB_INPUTS; fi";
           "cd $CANINE_JOB_ROOT";
           ""]);
     Chmod "stage/jobs/0/setup.sh" 509].
Proof. vm_compute. reflexivity. Qed.

(** ** Delocalization *)

Lemma for_fold_map {A B S} (f : A -> B) (body : S -> B -> M S) (l : list A) (s : S) (w : World) :
  for_fold body (map f l) s w = for_fold (fun s x => body s (f x)) l s w.
Proof.
  revert s w. induction l as [|x l IH]; intros s w; cbn; [reflexivity|].
  unfold bind. destruct (body s (f x) w) as [[s1|e] w1]; [apply IH | reflexivity].
Qed.

Lemma for_fold_ext {A S} (body body' : S -> A -> M S) (l : list A) (s : S) (w : World) :
  (forall s x w, body s x w = body' s x w) ->
  for_fold body l s w = for_fold body' l s w.
Proof.
  intros Hext. revert s w. induction l as [|x l IH]; intros s w; cbn; [reflexivity|].
  unfold bind. rewrite Hext. destruct (body' s x w) as [[s1|e] w1]; [apply IH | reflexivity].
Qed.

(** The three nested loops visit the candidates one after the other. *)
Lemma nested_loops_flat {S} (body : string -> string -> string -> S -> string -> M S)
    (patterns : list (string * string)) (listing : list (string * list string * list string))
    (s : S) (w : World) :
  for_fold (fun out (entry : string * list string * list string) =>
              let '(dirpath, _, filenames) := entry in
              for_fold (fun out (np : string * string) =>
                          for_fold (body dirpath np.1 np.2) filenames out)
                       patterns out)
           listing s w
  = for_fold (fun out (c : string * string * string * string) =>
                body c.1.1.1 c.1.1.2 c.1.2 out c.2)
             (candidates listing patterns) s w.
Proof.
  revert s w. induction listing as [|[[dirpath dirnames] filenames] listing IH]; intros s w.
  - reflexivity.
  - cbn [for_fold candidates flat_map]. rewrite for_fold_app.
    apply bind_ext; [|intros; apply IH]. cbn [fst snd].
    clear. revert s w. induction patterns as [|[name pattern] patterns IHp]; intros s w.
    + reflexivity.
    + cbn [for_fold flat_map]. rewrite for_fold_app.
      apply bind_ext; [|intros; apply IHp]. cbn [fst snd].
      rewrite for_fold_map. reflexivity.
Qed.

Lemma delocalize_match_one (E : Env) (jobId output_dir start_dir : string) (delete : bool)
    (c : string * string * string * string) (out : list (string * string)) (w : World) :
  delocalize_match E jobId output_dir start_dir delete c.1.1.1 c.1.1.2 c.1.2 out c.2 w
  = if is_match E start_dir c
    then delocalize_one jobId output_dir delete out (c.1.1.2, posixpath.join c.1.1.1 [c.2]) w
    else (Ok out, w).
Proof.
  unfold delocalize_match, is_match, delocalize_one. cbn.
  destruct (fnmatch E _ _ || fnmatch E _ _); reflexivity.
Qed.

Lemma for_fold_matches (E : Env) (jobId output_dir start_dir : string) (delete : bool)
    (cands : list (string * string * string * string)) (out : list (string * string))
    (w : World) :
  for_fold (fun out (c : string * string * string * string) =>
              delocalize_match E jobId output_dir start_dir delete
                               c.1.1.1 c.1.1.2 c.1.2 out c.2) cands out w
  = for_fold (delocalize_one jobId output_dir delete)
             (map (fun c : string * string * string * string =>
                     (c.1.1.2, posixpath.join c.1.1.1 [c.2]))
                  (filter (fun c => is_match E start_dir c = true) cands)) out w.
Proof.
  revert out w. induction cands as [|c cands IH]; intros out w; [reflexivity|].
  cbn [for_fold]. rewrite filter_cons. destruct (is_match E start_dir c) eqn:Hm.
  - rewrite decide_True by reflexivity. cbn [map for_fold].
    apply bind_ext; [|intros; apply IH].
    rewrite delocalize_match_one, Hm. reflexivity.
  - rewrite decide_False by discriminate. unfold bind.
    rewrite delocalize_match_one, Hm. apply IH.
Qed.

(** [delocalize] for one task handles its matches in order. *)
Lemma delocalize_task_matches (E : Env) (self : Localizer) (patterns : list (string * string))
    (output_dir jobId : string) (delete : bool) (w : World) :
  delocalize_task E self patterns output_dir jobId delete w
  = (out <- for_fold (delocalize_one jobId output_dir delete)
                     (matches E self patterns jobId w) [] ;;
     ret [(jobId, out)]) w.
Proof.
  unfold delocalize_task, matches. unfold bind at 1. unfold gets at 1.
  apply bind_ext; [|reflexivity].
  rewrite (nested_loops_flat
             (delocalize_match E jobId output_dir
                (posixpath.join (CANINE_JOBS (env self)) [jobId; "workspace"]) delete)).
  apply for_fold_matches.
Qed.

(** *** Paths of the outputs *)

Lemma rsplit_at_Some (c : ascii) (s h t : string) :
  Str.rsplit_at c s = Some (h, t) -> s = h +:+ String c t /\ Str.contains_char c t = false.
Proof.
  revert h t. induction s as [|a s IH]; intros h t; cbn; [discriminate|].
  destruct (Str.rsplit_at c s) as [[h' t']|] eqn:Hs.
  - intros [= <- <-]. destruct (IH h' t' eq_refl) as [-> Ht]. split; [reflexivity | exact Ht].
  - destruct (bool_decide (a = c)) eqn:Hac; [|discriminate].
    apply bool_decide_eq_true_1 in Hac. subst a. intros [= <- <-].
    split; [reflexivity|]. clear IH. induction s as [|b s IH]; [reflexivity|]. cbn in Hs |- *.
    destruct (Str.rsplit_at c s) as [[h' t']|]; [discriminate|].
    destruct (bool_decide (b = c)); [discriminate|]. cbn. apply IH. reflexivity.
Qed.

Lemma rsplit_at_None (c : ascii) (s : string) :
  Str.contains_char c s = false -> Str.rsplit_at c s = None.
Proof.
  induction s as [|a s IH]; cbn; [reflexivity|].
  intros H. apply orb_false_iff in H as [Ha Hs]. rewrite (IH Hs), Ha. reflexivity.
Qed.

Lemma rsplit_at_app (c : ascii) (h t : string) :
  Str.contains_char c t = false -> Str.rsplit_at c (h +:+ String c t) = Some (h, t).
Proof.
  intros Ht. induction h as [|a h IH].
  - rewrite String_app_nil_l. cbn. rewrite (rsplit_at_None c t Ht).
    rewrite bool_decide_eq_true_2; reflexivity.
  - rewrite String_app_cons. cbn. rewrite IH. reflexivity.
Qed.





(** *** One match at a time *)







(** ** The poll loop *)

Lemma split_no_sep (c : ascii) (s : string) :
  Str.contains_char c s = false -> Str.split c s = [s].
Proof.
  induction s as [|a s IH]; cbn; [reflexivity|].
  intros H. apply orb_false_iff in H as [Ha Hs]. rewrite Ha, (IH Hs). reflexivity.
Qed.

Lemma split_app_sep (c : ascii) (s t : string) :
  Str.contains_char c s = false ->
  Str.split c (s +:+ String c t) = s :: Str.split c t.
Proof.
  induction s as [|a s IH]; intros Hs.
  - rewrite String_app_nil_l. cbn. rewrite bool_decide_eq_true_2; reflexivity.
  - rewrite String_app_cons. cbn in Hs |- *. apply orb_false_iff in Hs as [Ha Hs].
    rewrite Ha, (IH Hs). reflexivity.
Qed.

Lemma string_of_uint_digits (c : ascii) (d : Decimal.uint) :
  Str.is_digit c = false -> Str.contains_char c (NilEmpty.string_of_uint d) = false.
Proof.
  intros Hc. induction d; cbn; [reflexivity|..];
    rewrite IHd, orb_false_r; apply bool_decide_eq_false_2; intros <-;
    vm_compute in Hc; discriminate.
Qed.

Lemma of_nat_inj (i j : nat) : Str.of_nat i = Str.of_nat j -> i = j.
Proof.
  unfold Str.of_nat. intros H. apply (f_equal NilEmpty.uint_of_string) in H.
  rewrite !NilEmpty.usu in H. injection H as H.
  apply DecimalNat.Unsigned.to_uint_inj. exact H.
Qed.

(** [jid.split('_')[1]] is the array index when the batch id has no
    underscore. *)
Lemma split_job_id (batch_id : string) (i : nat) :
  Str.contains_char "_" batch_id = false ->
  Str.split "_" (job_id batch_id i) !! 1 = Some (Str.of_nat i).
Proof.
  intros Hb. unfold job_id. change ("_" +:+ Str.of_nat i) with (String "_"%char (Str.of_nat i)).
  rewrite (split_app_sep _ _ _ Hb), split_no_sep; [reflexivity|].
  apply string_of_uint_digits. reflexivity.
Qed.

Lemma poll_job_harvest (E : Env) (localizer : Localizer) (patterns : list (string * string))
    (acct : gmap string string) (batch_id : string) (i : nat)
    (st : gset string * list (string * list (string * string))) (w : World) :
  Str.contains_char "_" batch_id = false ->
  poll_job E localizer patterns acct st (job_id batch_id i) w
  = if finished acct (job_id batch_id i)
    then harvest E localizer patterns (job_id batch_id i) i st w
    else (Ok st, w).
Proof.
  intros Hb. unfold poll_job, finished, harvest. destruct st as [waiting outputs].
  destruct (acct !! job_id batch_id i) as [state|]; [|reflexivity].
  destruct (negb (bool_decide (state ∈ ["RUNNING"; "PENDING"]))); [|reflexivity].
  rewrite (split_job_id _ _ Hb). reflexivity.
Qed.

Lemma delocalize_Ok_shape (E : Env) (self : Localizer) (patterns : list (string * string))
    (output_dir jobId : string) (delete : bool) (w w' : World)
    (r : list (string * list (string * string))) :
  delocalize E self patterns output_dir (Some jobId) delete w = (Ok r, w') ->
  exists files, r = [(jobId, files)].
Proof.
  cbn [delocalize]. rewrite delocalize_task_matches. intros H.
  apply bind_Ok in H as (out & w1 & _ & H). apply ret_Ok in H as [<- _]. eauto.
Qed.

(** The scan of the waiting elements: it ends normally unless a call of
    [delocalize] raises; then the finished elements of the list are gone
    from the waiting set, their array indices are keys of [outputs], and
    nothing else has changed in the set. *)
Lemma poll_scan (E : Env) (localizer : Localizer) (patterns : list (string * string))
    (acct : gmap string string) (batch_id : string) (l : list string) :
  Str.contains_char "_" batch_id = false ->
  (forall jid, jid ∈ l -> exists i, jid = job_id batch_id i) ->
  forall (waiting : gset string) (outputs : list (string * list (string * string))) (w : World),
    match for_fold (poll_job E localizer patterns acct) l (waiting, outputs) w with
    | (Ok (waiting', outputs'), w') =>
        (forall jid, jid ∈ waiting' <->
                     jid ∈ waiting /\ ~ (jid ∈ l /\ finished acct jid = true))
        /\ (forall i, job_id batch_id i ∈ l -> finished acct (job_id batch_id i) = true ->
                      Dict.mem (Str.of_nat i) outputs' = true)
        /\ (forall k, Dict.mem k outputs = true -> Dict.mem k outputs' = true)
    | (Raise e, w') =>
        exists i w0 w1,
          job_id batch_id i ∈ l /\ finished acct (job_id batch_id i) = true
          /\ delocalize E localizer patterns "canine_output" (Some (Str.of_nat i)) true w0
             = (Raise e, w1)
    end.
Proof.
  intros Hb. induction l as [|jid l IH]; intros Hl waiting outputs w.
  - cbn. split; [|split].
    + intros jid. split; [intros H; split; [exact H | intros [Hin _]; apply elem_of_nil in Hin; exact Hin] | tauto].
    + intros i Hin. apply elem_of_nil in Hin. contradiction.
    + auto.
  - cbn [for_fold]. unfold bind at 1.
    destruct (Hl jid ltac:(left)) as [i ->].
    rewrite (poll_job_harvest _ _ _ _ _ _ _ _ Hb).
    assert (Hl' : forall jid, jid ∈ l -> exists i, jid = job_id batch_id i).
    { intros j Hj. apply Hl. right. exact Hj. }
    destruct (finished acct (job_id batch_id i)) eqn:Hfin.
    + unfold harvest, bind at 1. cbn [fst snd].
      destruct (delocalize E localizer patterns "canine_output" (Some (Str.of_nat i)) true w)
        as [[r|e] w1] eqn:Hdel.
      * destruct (delocalize_Ok_shape _ _ _ _ _ _ _ _ _ Hdel) as [files ->].
        unfold ret at 1.
        specialize (IH Hl' (waiting ∖ {[job_id batch_id i]})
                       (Dict.update outputs [(Str.of_nat i, files)]) w1).
        destruct (for_fold _ l _ w1) as [[[waiting' outputs']|e] w2].
        -- destruct IH as (Hw & Hout & Hmono). split; [|split].
           ++ intros jid. rewrite Hw, elem_of_difference, elem_of_singleton, elem_of_cons.
              split.
              ** intros [[Hin Hne] Hnot]. split; [exact Hin|].
                 intros [[->|Hinl] Hf]; [apply Hne; reflexivity | apply Hnot; auto].
              ** intros [Hin Hnot]. split; [split; [exact Hin|]|].
                 --- intros ->. apply Hnot. auto.
                 --- intros [Hinl Hf]. apply Hnot. auto.
           ++ intros i' Hin Hf. apply elem_of_cons in Hin as [Heq|Hin]; [|auto].
              apply Hmono. unfold Dict.update. cbn. rewrite Dict_mem_set.
              assert (i' = i) as ->.
              { unfold job_id in Heq. apply String.app_inj in Heq.
                injection Heq as Heq. apply of_nat_inj. exact Heq. }
              rewrite bool_decide_eq_true_2; reflexivity.
           ++ intros k Hk. apply Hmono. unfold Dict.update. cbn. rewrite Dict_mem_set, Hk.
              apply orb_true_r.
        -- destruct IH as (i' & w0 & w3 & Hin & Hf & Hd).
           exists i', w0, w3. split; [right; exact Hin | auto].
      * exists i, w, w1. split; [left | auto].
    + specialize (IH Hl' waiting outputs w).
      destruct (for_fold _ l _ w) as [[[waiting' outputs']|e] w2].
      * destruct IH as (Hw & Hout & Hmono). split; [|split].
        -- intros jid. rewrite Hw, elem_of_cons. split.
           ++ intros [Hin Hnot]. split; [exact Hin|].
              intros [[->|Hinl] Hf]; [congruence | apply Hnot; auto].
           ++ intros [Hin Hnot]. split; [exact Hin|]. intros [Hinl Hf]. apply Hnot. auto.
        -- intros i' Hin Hf. apply elem_of_cons in Hin as [Heq|Hin]; [|auto].
           rewrite Heq in Hf. congruence.
        -- exact Hmono.
      * destruct IH as (i' & w0 & w3 & Hin & Hf & Hd).
        exists i', w0, w3. split; [right; exact Hin | auto].
Qed.

Lemma poll_round_unfold (E : Env) (localizer : Localizer) (patterns : list (string * string))
    (st : gset string * list (string * list (string * string))) (w : World) :
  poll_round E localizer patterns st w
  = for_fold (poll_job E localizer patterns (hd ∅ (sacct_feed w))) (elements st.1) st
             (mkWorld (host_files w) (host_dirs w) (ctrl_files w) (ctrl_dirs w)
                      (requester_pays w) (tl (sacct_feed w)) (trace w ++ [Sacct])).
Proof. reflexivity. Qed.

Lemma poll_round_outcome :
  forall (E : Env) (localizer : Localizer) (patterns : list (string * string))
         (batch_id : string) (waiting : gset string)
         (outputs : list (string * list (string * string))) (w : World),
    Str.contains_char "_" batch_id = false ->
    (forall jid, jid ∈ waiting -> exists i, jid = job_id batch_id i) ->
    round_outcome E localizer patterns batch_id (hd ∅ (sacct_feed w)) waiting
                  (poll_round E localizer patterns (waiting, outputs) w).1
    /\ forall i st w0,
         finished (hd ∅ (sacct_feed w)) (job_id batch_id i) = true ->
         poll_job E localizer patterns (hd ∅ (sacct_feed w)) st (job_id batch_id i) w0
         = harvest E localizer patterns (job_id batch_id i) i st w0.
Proof.
  intros E localizer patterns batch_id waiting outputs w Hb Hw. split.
  - rewrite poll_round_unfold. cbn [fst].
    assert (Hl : forall jid, jid ∈ elements waiting -> exists i, jid = job_id batch_id i).
    { intros jid Hin. apply Hw. apply elem_of_elements. exact Hin. }
    pose proof (poll_scan E localizer patterns (hd ∅ (sacct_feed w)) batch_id
                          (elements waiting) Hb Hl waiting outputs
                          (mkWorld (host_files w) (host_dirs w) (ctrl_files w) (ctrl_dirs w)
                                   (requester_pays w) (tl (sacct_feed w)) (trace w ++ [Sacct])))
      as Hscan.
    destruct (for_fold _ _ _ _) as [[[waiting' outputs']|e] w'] eqn:Hrun; cbn [fst round_outcome].
    + destruct Hscan as (Hset & Hout & _). split.
      * intros jid. rewrite Hset. split.
        -- intros [Hin Hnot]. split; [exact Hin|].
           destruct (finished _ jid) eqn:Hf; [|reflexivity].
           exfalso. apply Hnot. split; [apply elem_of_elements; exact Hin | reflexivity].
        -- intros [Hin Hf]. split; [exact Hin|]. intros [_ Hf']. congruence.
      * intros i Hin Hf. apply Hout; [apply elem_of_elements; exact Hin | exact Hf].
    + destruct Hscan as (i & w0 & w1 & Hin & Hf & Hd).
      exists i, w0, w1. split; [apply elem_of_elements; exact Hin | auto].
  - intros i st w0 Hf. rewrite (poll_job_harvest _ _ _ _ _ _ _ _ Hb), Hf. reflexivity.
Qed.



(** The turn of the sample: the failed element and the completed one are
    delocalized under their array indices, the running one stays. *)
Lemma failed_element_sample :
  let r := poll_round (sample_env []) sample_localizer [("log", "stdout")]
                      (list_to_set ["42_0"; "42_1"; "42_2"], [])
                      (world_with [] ["stage/jobs/1/workspace/stdout"] [acct_failed]) in
  r.1 = Ok ({["42_2"]}, [("1", [("log", "canine_output/1/log/stdout")]); ("0", [])])
  /\ trace r.2 = [Sacct; Receive "stage/jobs/1/workspace/stdout" "canine_output/1/log/stdout";
                  Remove "stage/jobs/1/workspace/stdout"].
Proof. vm_compute. split; reflexivity. Qed.

(** The poll loop as a whole raises only what a turn raises; when every
    call of [delocalize] returns, it ends with the outputs or is still
    waiting after the foreseen turns. *)
Lemma poll_loop_total (E : Env) (localizer : Localizer) (patterns : list (string * string))
    (batch_id : string) :
  Str.contains_char "_" batch_id = false ->
  (forall job w, exists r w',
      delocalize E localizer patterns "canine_output" (Some job) true w = (Ok r, w')) ->
  forall (rounds : nat) (waiting : gset string)
         (outputs : list (string * list (string * string))) (w : World),
    (forall jid, jid ∈ waiting -> exists i, jid = job_id batch_id i) ->
    exists r w', poll_loop E rounds localizer patterns (waiting, outputs) w = (Ok r, w').
Proof.
  intros Hb Hdel. induction rounds as [|n IH]; intros waiting outputs w Hw; cbn [poll_loop fst snd].
  - destruct (bool_decide (size waiting = 0)); eexists _, _; reflexivity.
  - destruct (bool_decide (size waiting = 0)); [eexists _, _; reflexivity|].
    unfold bind at 1.
    destruct (poll_round_outcome E localizer patterns batch_id waiting outputs w Hb Hw)
      as [Hout _].
    destruct (poll_round E localizer patterns (waiting, outputs) w) as [[[waiting' outputs']|e] w1].
    + cbn [fst round_outcome] in Hout. destruct Hout as [Hset _]. apply IH.
      intros jid Hin. apply Hw. apply Hset in Hin as [Hin _]. exact Hin.
    + cbn [fst round_outcome] in Hout. destruct Hout as (i & w0 & w2 & _ & _ & Hd).
      destruct (Hdel (Str.of_nat i) w0) as (r & w3 & Hok). rewrite Hd in Hok. discriminate.
Qed.

(** ** Destinations of per-task inputs *)


Lemma rstrip_char_split (c : ascii) (s : string) :
  exists z, Str.all_chars (fun a => bool_decide (a = c)) z = true
            /\ s = Str.rstrip_char c s +:+ z.
Proof.
  induction s as [|a s (z & Hz & IH)]; [exists ""; auto|].
  cbn. destruct (Str.rstrip_char c s) as [|b r] eqn:Hr.
  - destruct (bool_decide (a = c)) eqn:Hac.
    + exists (String a s). split; [|reflexivity]. rewrite String_app_nil_l in IH. subst z.
      cbn. rewrite Hac, Hz. reflexivity.
    + exists z. split; [exact Hz|]. rewrite String_app_nil_l in IH.
      rewrite String_app_cons, String_app_nil_l. congruence.
  - exists z. split; [exact Hz|]. rewrite String_app_cons. congruence.
Qed.

Lemma rstrip_char_snoc (c : ascii) (h : string) :
  Str.rstrip_char c (h +:+ String c "") = Str.rstrip_char c h.
Proof.
  induction h as [|a h IH].
  - rewrite String_app_nil_l. cbn. rewrite bool_decide_eq_true_2; reflexivity.
  - rewrite String_app_cons. cbn. rewrite IH. reflexivity.
Qed.

(** A directory name is empty, made of separators only, or a proper
    prefix of the path that is followed by a separator. *)
Lemma dirname_shape (p : string) :
  posixpath.dirname p = ""
  \/ Str.all_chars (fun a => bool_decide (a = posixpath.sep)) (posixpath.dirname p) = true
  \/ exists r, p = posixpath.dirname p +:+ String posixpath.sep r.
Proof.
  unfold posixpath.dirname. destruct (Str.rsplit_at posixpath.sep p) as [[h t]|] eqn:Hp; [|auto].
  apply rsplit_at_Some in Hp as [-> _].
  destruct (Str.all_chars _ (h +:+ "/")) eqn:Hall; [auto|].
  right. right. change (h +:+ "/") with (h +:+ String posixpath.sep "").
  rewrite rstrip_char_snoc.
  destruct (rstrip_char_split posixpath.sep h) as (z & Hz & Hsplit).
  destruct z as [|a z].
  - rewrite String_app_nil_r in Hsplit. rewrite <- Hsplit. exists t. reflexivity.
  - cbn in Hz. apply andb_true_iff in Hz as [Ha Hz]. apply bool_decide_eq_true_1 in Ha. subst a.
    exists (z +:+ String posixpath.sep t).
    rewrite Hsplit at 1. rewrite String_app_assoc. reflexivity.
Qed.

(** The directories above a path are proper prefixes of it that a
    separator follows. *)
Lemma parents_prefix (n : nat) (p q : string) :
  q ∈ parents n p -> q = p \/ exists r, p = q +:+ String posixpath.sep r.
Proof.
  revert p. induction n as [|n IH]; intros p Hq; cbn in Hq.
  - apply elem_of_nil in Hq. contradiction.
  - destruct (bool_decide (p = "") || Str.all_chars _ p) eqn:Hstop.
    + apply elem_of_nil in Hq. contradiction.
    + apply elem_of_cons in Hq as [->|Hq]; [auto|]. right.
      assert (Hne : parents n (posixpath.dirname p) <> []).
      { intros Hnil. rewrite Hnil in Hq. apply elem_of_nil in Hq. exact Hq. }
      destruct (dirname_shape p) as [Hd|[Hd|[r Hr]]].
      * exfalso. apply Hne. rewrite Hd. destruct n; reflexivity.
      * exfalso. apply Hne. destruct n; [reflexivity|]. cbn. rewrite Hd, orb_true_r. reflexivity.
      * destruct (IH _ Hq) as [->|[r' Hr']].
        -- exists r. exact Hr.
        -- exists (r' +:+ String posixpath.sep r). rewrite Hr at 1. rewrite Hr' at 1.
           rewrite String_app_assoc. reflexivity.
Qed.

Lemma ancestors_dirname_prefix (p q : string) :
  q ∈ ancestors (posixpath.dirname p) -> exists r, p = q +:+ String posixpath.sep r.
Proof.
  unfold ancestors. intros Hq.
  assert (Hne : parents (String.length (posixpath.dirname p)) (posixpath.dirname p) <> []).
  { intros Hnil. rewrite Hnil in Hq. apply elem_of_nil in Hq. exact Hq. }
  destruct (dirname_shape p) as [Hd|[Hd|[r Hr]]].
  - exfalso. apply Hne. rewrite Hd. reflexivity.
  - exfalso. apply Hne. destruct (String.length _); [reflexivity|]. cbn.
    rewrite Hd, orb_true_r. reflexivity.
  - destruct (parents_prefix _ _ _ Hq) as [->|[r' Hr']].
    + exists r. exact Hr.
    + exists (r' +:+ String posixpath.sep r). rewrite Hr at 1. rewrite Hr' at 1.
      rewrite String_app_assoc. reflexivity.
Qed.

Lemma startswith_sep_free (b : string) :
  Str.contains_char posixpath.sep b = false -> Str.startswith "/" b = false.
Proof.
  destruct b as [|a b]; [reflexivity|]. cbn. intros H. apply orb_false_iff in H as [Ha _].
  rewrite andb_true_r. apply bool_decide_eq_false_1 in Ha. apply bool_decide_eq_false_2.
  intros <-. apply Ha. reflexivity.
Qed.


Lemma endswith_char_sep_free (c : ascii) (s : string) :
  Str.contains_char c s = false -> Str.endswith_char c s = false.
Proof.
  induction s as [|a s IH]; [reflexivity|]. cbn. intros H.
  apply orb_false_iff in H as [Ha Hs]. destruct s; [exact Ha | apply IH; exact Hs].
Qed.



Lemma free_path_free (fuel : nat) (taken : string -> bool) (filepath : string) :
  taken filepath = false -> free_path fuel taken filepath = filepath.
Proof. intros H. destruct fuel; cbn; [reflexivity | rewrite H; reflexivity]. Qed.







(** The loop that looks for a free name ends on one: after as many
    renamings as the controller has entries, the path is not taken. *)
Lemma splitext_join (p : string) : (posixpath.splitext p).1 +:+ (posixpath.splitext p).2 = p.
Proof.
  unfold posixpath.splitext.
  destruct (Str.rsplit_at posixpath.sep p) as [[h t]|] eqn:Hp.
  - apply rsplit_at_Some in Hp as [-> _].
    destruct (Str.rsplit_at "." t) as [[pre ext]|] eqn:Ht.
    + apply rsplit_at_Some in Ht as [-> _].
      destruct (Str.all_chars _ pre); cbn [fst snd].
      * apply String_app_nil_r.
      * rewrite !String_app_assoc. reflexivity.
    + apply String_app_nil_r.
  - destruct (Str.rsplit_at "." p) as [[pre ext]|] eqn:Ht.
    + apply rsplit_at_Some in Ht as [-> _].
      destruct (Str.all_chars _ pre); cbn [fst snd].
      * apply String_app_nil_r.
      * reflexivity.
    + apply String_app_nil_r.
Qed.

Lemma free_path_ends (S : gset string) (n : nat) :
  forall filepath,
    size (filter (fun p => String.length filepath <= String.length p) S) <= n ->
    free_path n (fun p => bool_decide (p ∈ S)) filepath ∉ S.
Proof.
  induction n as [|n IH]; intros filepath Hsize; cbn.
  - intros Hin.
    assert (Hf : filepath ∈ filter (fun p => String.length filepath <= String.length p) S).
    { apply elem_of_filter. split; [lia | exact Hin]. }
    assert (Hz : size (filter (fun p => String.length filepath <= String.length p) S) = 0) by lia.
    apply size_empty_inv in Hz. apply Hz in Hf. apply elem_of_empty in Hf. exact Hf.
  - destruct (bool_decide (filepath ∈ S)) eqn:Hin.
    + apply bool_decide_eq_true_1 in Hin.
      pose proof (splitext_join filepath) as Hjoin.
      destruct (posixpath.splitext filepath) as [root ext]. cbn [fst snd] in Hjoin.
      apply IH.
      assert (Hlen : String.length (root +:+ "._alt" +:+ ext) = String.length filepath + 5).
      { rewrite <- Hjoin, !String_length_app. cbn. lia. }
      rewrite Hlen.
      assert (Hsub : filter (fun p => String.length filepath + 5 <= String.length p) S
                     ⊂ filter (fun p => String.length filepath <= String.length p) S).
      { split.
        - intros p Hp. apply elem_of_filter in Hp as [Hp Hps]. apply elem_of_filter.
          split; [lia | exact Hps].
        - intros Hsup.
          assert (Hf : filepath ∈ filter (fun p => String.length filepath <= String.length p) S).
          { apply elem_of_filter. split; [lia | exact Hin]. }
          apply Hsup in Hf. apply elem_of_filter in Hf as [Hf _]. lia. }
      apply subset_size in Hsub. lia.
    + apply bool_decide_eq_false_1 in Hin. exact Hin.
Qed.

(** [localize_file] gives its loop as many turns as the controller has
    entries, and that is enough: the path it settles on is free. *)
Lemma free_path_not_taken (w : World) (filepath : string) :
  ctrl_exists w (free_path (size (ctrl_files w ∪ ctrl_dirs w)) (ctrl_exists w) filepath) = false.
Proof.
  unfold ctrl_exists. apply bool_decide_eq_false_2. apply free_path_ends.
  apply subseteq_size. intros p Hp. apply elem_of_filter in Hp as [_ Hp]. exact Hp.
Qed.

(** * Further properties *)

(** ** The command line options *)

Lemma split_nonempty (c : ascii) (s : string) : Str.split c s <> [].
Proof.
  destruct s as [|a r]; cbn; [discriminate|].
  destruct (bool_decide (a = c)); [discriminate|].
  destruct (Str.split c r); discriminate.
Qed.

Lemma join_cons (sep x : string) (l : list string) :
  l <> [] -> Str.join sep (x :: l) = x +:+ sep +:+ Str.join sep l.
Proof. destruct l; [congruence | reflexivity]. Qed.

Lemma join_split (c : ascii) (s : string) :
  Str.join (String c "") (Str.split c s) = s.
Proof.
  induction s as [|a r IH]; [reflexivity|].
  cbn [Str.split]. destruct (bool_decide (a = c)) eqn:Hc.
  - apply bool_decide_eq_true_1 in Hc as ->.
    rewrite join_cons by apply split_nonempty. rewrite IH. reflexivity.
  - destruct (Str.split c r) as [|x xs] eqn:Hs; [now apply split_nonempty in Hs|].
    destruct xs as [|y ys].
    + cbn in *. now rewrite IH.
    + rewrite join_cons by discriminate. rewrite join_cons in IH by discriminate.
      rewrite String_app_cons, IH. reflexivity.
Qed.

Lemma split_fields_free (c : ascii) (s : string) :
  Forall (fun field => Str.contains_char c field = false) (Str.split c s).
Proof.
  induction s as [|a r IH]; cbn [Str.split].
  - repeat constructor.
  - destruct (bool_decide (a = c)) eqn:Hc.
    + constructor; [reflexivity | exact IH].
    + destruct (Str.split c r) as [|x xs]; [repeat constructor; cbn; now rewrite Hc|].
      inversion IH; subst. constructor; [|assumption].
      cbn. rewrite Hc. assumption.
Qed.

(** X1. The handler of the [key:value] options never combines fields: what
    it returns is the argument split at its colons, so every field is free
    of colons and joining the fields with colons gives the argument back;
    it raises when the fields are fewer than [nfields], and also, with a
    [TypeError], when they are more than [nMax]. *)
Theorem ConfType_never_combines (nfields : nat) (nMax : option nat) (argument : string) :
  match ConfType nfields nMax argument with
  | Ok args =>
      args = Str.split ":" argument
      /\ Str.join ":" args = argument
      /\ Forall (fun field => Str.contains_char ":" field = false) args
      /\ nfields <= length args <= default nfields nMax
  | Raise e =>
      length (Str.split ":" argument) < nfields
      \/ (default nfields nMax < length (Str.split ":" argument)
          /\ exists msg, e = TypeError msg)
  end.
Proof.
  unfold ConfType. repeat case_bool_decide.
  - left. assumption.
  - right. split; [assumption | eexists; reflexivity].
  - split; [reflexivity|]. split; [apply join_split|].
    split; [apply split_fields_free | lia].
Qed.

Lemma dict_of_snoc (options : list (string * string)) (kv : string * string) :
  dict_of (options ++ [kv]) = Dict.set kv.1 (PStr kv.2) (dict_of options).
Proof. unfold dict_of. now rewrite foldl_snoc. Qed.

Lemma dict_of_NoDup (options : list (string * string)) : NoDup (dict_of options).*1.
Proof.
  induction options as [|kv options IH] using rev_ind; [constructor|].
  rewrite dict_of_snoc. now apply Dict_set_NoDup.
Qed.

Lemma dict_of_get (k : string) (options : list (string * string)) :
  Dict.get k (dict_of options) = PStr <$> last (option_values k options).
Proof.
  induction options as [|kv options IH] using rev_ind; [reflexivity|].
  rewrite dict_of_snoc, option_values_snoc. case_bool_decide as Hk.
  - rewrite <- Hk, Dict_get_set_eq, last_snoc. reflexivity.
  - rewrite Dict_get_set_ne by assumption. now rewrite app_nil_r.
Qed.

(** X2. For [--resources], [--adapter] and [--backend], the options given
    on the command line are laid over the mapping of the YAML file: an
    option named several times keeps its last value, an option not named
    keeps the value of the file, and no other part of the configuration
    changes. *)
Theorem options_override_and_last_wins :
  forall (section : string) (options : list (string * string))
         (conf conf' : list (string * pyval)) (k : string),
    options <> [] ->
    merge_options section options conf = Ok conf' ->
    conf_option conf' section k = match last (option_values k options) with
                                  | Some v => Some (PStr v)
                                  | None => conf_option conf section k
                                  end
    /\ forall other, other <> section -> Dict.get other conf' = Dict.get other conf.
Proof.
  intros section options conf conf' k Hne H. unfold merge_options in H.
  rewrite bool_decide_eq_true_2 in H by (destruct options; [congruence | cbn; lia]).
  unfold conf_option.
  destruct (Dict.get section conf) as [v|] eqn:Hs; cbn in H.
  - destruct v; try discriminate. injection H as <-. split.
    + rewrite Dict_get_set_eq, Dict_get_update by apply dict_of_NoDup.
      rewrite dict_of_get. now destruct (last (option_values k options)).
    + intros other Ho. now apply Dict_get_set_ne.
  - injection H as <-. split.
    + rewrite Dict_get_set_eq, Dict_get_update by apply dict_of_NoDup.
      rewrite dict_of_get. now destruct (last (option_values k options)).
    + intros other Ho. now apply Dict_get_set_ne.
Qed.

Lemma options_override_and_last_wins_witness :
  conf_option [("resources", PDict [("mem", PStr "8G"); ("time", PStr "10")])] "resources" "mem"
  = Some (PStr "8G")
  /\ forall other, other <> "resources" ->
       Dict.get other [("resources", PDict [("mem", PStr "8G"); ("time", PStr "10")])]
       = Dict.get other [("resources", PDict [("mem", PStr "1G"); ("time", PStr "10")])].
Proof.
  exact (options_override_and_last_wins "resources" [("mem", "4G"); ("mem", "8G")]
           [("resources", PDict [("mem", PStr "1G"); ("time", PStr "10")])]
           [("resources", PDict [("mem", PStr "8G"); ("time", PStr "10")])] "mem"
           ltac:(discriminate) eq_refl).
Defined.

Lemma merge_options_other (section other : string) (options : list (string * string))
    (conf conf' : list (string * pyval)) :
  other <> section ->
  merge_options section options conf = Ok conf' ->
  Dict.get other conf' = Dict.get other conf.
Proof.
  intros Ho H. unfold merge_options in H. case_bool_decide; [|now injection H as <-].
  destruct (default (PDict []) (Dict.get section conf)); try discriminate.
  injection H as <-. now apply Dict_get_set_ne.
Qed.

Lemma merge_inputs_other (other : string) (options : list (string * string))
    (conf conf' : list (string * pyval)) :
  other <> "inputs" ->
  merge_inputs options conf = Ok conf' ->
  Dict.get other conf' = Dict.get other conf.
Proof.
  intros Ho H. unfold merge_inputs in H. case_bool_decide; [|now injection H as <-].
  destruct (default (PDict []) (Dict.get "inputs" conf)); try discriminate.
  injection H as <-. now apply Dict_get_set_ne.
Qed.

Lemma merge_localization_other (other : string) (entries : list (list string))
    (conf conf' : list (string * pyval)) :
  other <> "localization" ->
  merge_localization entries conf = Ok conf' ->
  Dict.get other conf' = Dict.get other conf.
Proof.
  intros Ho H. unfold merge_localization in H. case_bool_decide; [|now injection H as <-].
  repeat case_match; simplify_eq; try discriminate; now apply Dict_get_set_ne.
Qed.

(** X3. The [--output] options only fill a gap: when the YAML file
    declares [outputs], the merged configuration holds exactly those and
    every [--output] option is dropped; the options become the outputs only
    when the file declares none. *)
Theorem output_options_only_fill_a_gap :
  forall (args : Args) (conf : list (string * pyval)),
    merged_conf args = Ok conf ->
    Dict.get "outputs" conf
    = match Dict.get "outputs" (default [] (pipeline args)) with
      | Some declared => Some declared
      | None => if bool_decide (arg_output args = []) then None
                else Some (PDict (dict_of (arg_output args)))
      end.
Proof.
  intros args conf H. unfold merged_conf in H.
  set (c0 := default [] (pipeline args)) in *.
  set (c1 := match arg_name args with Some n => Dict.set "name" (PStr n) c0 | None => c0 end) in *.
  set (c2 := match arg_script args with Some p => Dict.set "script" (PStr p) c1 | None => c1 end) in *.
  assert (H2 : Dict.get "outputs" c2 = Dict.get "outputs" c0).
  { subst c2 c1. destruct (arg_script args), (arg_name args);
      repeat rewrite Dict_get_set_ne by discriminate; reflexivity. }
  destruct (merge_options "resources" (arg_resources args) c2) as [c3|] eqn:H3; [|discriminate].
  destruct (merge_options "adapter" (arg_adapter args) c3) as [c4|] eqn:H4; [|discriminate].
  destruct (merge_options "backend" (arg_backend args) c4) as [c5|] eqn:H5; [|discriminate].
  destruct (merge_inputs (arg_input args) (merge_outputs (arg_output args) c5)) as [c6|] eqn:H6;
    [|discriminate].
  apply merge_localization_other with (other := "outputs") in H; [|discriminate].
  apply merge_inputs_other with (other := "outputs") in H6; [|discriminate].
  apply merge_options_other with (other := "outputs") in H5; [|discriminate].
  apply merge_options_other with (other := "outputs") in H4; [|discriminate].
  apply merge_options_other with (other := "outputs") in H3; [|discriminate].
  rewrite H, H6. unfold merge_outputs, Dict.mem.
  rewrite H5, H4, H3, H2.
  destruct (Dict.get "outputs" c0) as [o|] eqn:Ho.
  - rewrite andb_false_r. now rewrite H5, H4, H3, H2.
  - rewrite andb_true_r. destruct (arg_output args) as [|kv l]; cbn [length].
    + rewrite bool_decide_eq_false_2 by lia. rewrite bool_decide_eq_true_2 by reflexivity.
      now rewrite H5, H4, H3, H2.
    + rewrite bool_decide_eq_true_2 by lia. rewrite bool_decide_eq_false_2 by discriminate.
      now rewrite Dict_get_set_eq.
Qed.

Lemma output_options_only_fill_a_gap_witness :
  Dict.get "outputs" [("outputs", PDict [("log", PStr "*.log")])]
  = Some (PDict [("log", PStr "*.log")]).
Proof.
  exact (output_options_only_fill_a_gap
           (mkArgs (Some [("outputs", PDict [("log", PStr "*.log")])]) false None None None
                   [] [] [] [] [] [("bam", "*.bam")])
           [("outputs", PDict [("log", PStr "*.log")])] eq_refl).
Defined.

Lemma localization_step_raised (l : list (list string)) :
  foldl localization_step (Raise IndexError) l = Raise IndexError.
Proof. induction l; [reflexivity | exact IHl]. Qed.

Lemma localization_fold_outcome (l : list (list string))
    (acc : list (string * pyval) * list (string * pyval)) :
  (exists acc', foldl localization_step (Ok acc) l = Ok acc')
  \/ foldl localization_step (Ok acc) l = Raise IndexError.
Proof.
  revert acc. induction l as [|entry l IH]; intros acc; [left; now eexists|].
  cbn [foldl]. destruct (localization_step (Ok acc) entry) as [acc'|e] eqn:Hs; [apply IH|].
  right. destruct acc as [ov loc]. cbn in Hs.
  repeat case_match; simplify_eq; apply localization_step_raised.
Qed.

(** X4. A [--localization] entry that is too short makes the merge raise
    [IndexError]: an entry that starts with [overrides] needs three fields,
    so [overrides:name], which the option handler lets through with its two
    fields, fails here, whatever the other entries and the file say. *)
Theorem short_localization_entry_raises_IndexError :
  forall (entries : list (list string)) (conf : list (string * pyval)) (entry : list string),
    entry ∈ entries ->
    length entry < 2 \/ (entry !! 0 = Some "overrides" /\ length entry < 3) ->
    merge_localization entries conf = Raise IndexError.
Proof.
  intros entries conf entry Hin Hshort. unfold merge_localization.
  rewrite bool_decide_eq_true_2
    by (destruct entries; [now apply elem_of_nil in Hin | cbn; lia]).
  change (foldl _ (Ok ([], [])) entries) with (foldl localization_step (Ok ([], [])) entries).
  apply list_elem_of_split in Hin as (l1 & l2 & ->).
  rewrite foldl_app. cbn [foldl].
  destruct (localization_fold_outcome l1 ([], [])) as [[[ov loc] ->] | ->].
  - assert (Hs : localization_step (Ok (ov, loc)) entry = Raise IndexError).
    { cbn. destruct Hshort as [Hlen | [H0 Hlen]].
      - destruct entry as [|a [|b r]]; cbn in *; try lia; now case_bool_decide.
      - rewrite bool_decide_eq_true_2 by assumption.
        destruct entry as [|a [|b [|c r]]]; cbn in *; try lia; reflexivity. }
    rewrite Hs, localization_step_raised. reflexivity.
  - cbn. rewrite localization_step_raised. reflexivity.
Qed.

Lemma short_localization_entry_raises_IndexError_witness :
  merge_localization [["staging_dir"; "/tmp/stage"]; ["overrides"; "ref"]] []
  = Raise IndexError.
Proof.
  apply (short_localization_entry_raises_IndexError _ _ ["overrides"; "ref"]).
  - vm_compute. set_solver.
  - right. split; [reflexivity | simpl; lia].
Defined.

(** ** The orchestrator's configuration *)

Lemma stringify_only_strings : forall obj, only_strings (stringify obj) = true.
Proof.
  fix IH 1. intros [| b | z | s | l | d]; try reflexivity.
  - cbn. induction l as [|x l IHl]; [reflexivity|].
    cbn. rewrite IH. exact IHl.
  - cbn. induction d as [|[k v] d IHd]; [reflexivity|].
    cbn. rewrite IH. exact IHd.
Qed.

Lemma stringify_fixes_strings : forall obj, only_strings obj = true -> stringify obj = obj.
Proof.
  fix IH 1. intros [| b | z | s | l | d] H; try discriminate; try reflexivity.
  - cbn. f_equal. cbn in H. induction l as [|x l IHl]; [reflexivity|].
    cbn in H. apply andb_prop in H as [Hx Hl]. cbn. rewrite (IH x Hx), (IHl Hl). reflexivity.
  - cbn. f_equal. cbn in H. induction d as [|[k v] d IHd]; [reflexivity|].
    cbn in H. apply andb_prop in H as [Hx Hl]. cbn. rewrite (IH v Hx), (IHd Hl). reflexivity.
Qed.

(** X5. [stringify] turns a configuration value into one whose leaves are
    all strings and leaves exactly such values as they are; so applying it
    twice is the same as applying it once. *)
Theorem stringify_normalises :
  forall obj : pyval,
    only_strings (stringify obj) = true
    /\ (stringify obj = obj <-> only_strings obj = true)
    /\ stringify (stringify obj) = stringify obj.
Proof.
  intros obj. split; [apply stringify_only_strings|]. split.
  - split; [intros <-; apply stringify_only_strings | apply stringify_fixes_strings].
  - apply stringify_fixes_strings, stringify_only_strings.
Qed.

Lemma fill_config_fold (E : Env) (d : list (string * pyval)) :
  fill_config E (PDict d) = foldl apply_default (Ok d) DEFAULTS.
Proof. reflexivity. Qed.

Lemma apply_default_spec (c c' : list (string * pyval)) (key : string) (dflt : pyval) :
  apply_default (Ok c) (key, dflt) = Ok c' ->
  (forall k, k <> key -> Dict.get k c' = Dict.get k c)
  /\ Dict.get key c'
     = Some (match Dict.get key c, dflt with
             | None, _ => dflt
             | Some (PDict given), PDict value => PDict (Dict.update value given)
             | Some v, _ => v
             end)
  /\ c'.*1 = c.*1 ++ (if Dict.mem key c then [] else [key])
  /\ (forall value, dflt = PDict value ->
        Dict.get key c = None \/ exists given, Dict.get key c = Some (PDict given)).
Proof.
  unfold apply_default, Dict.mem. cbn [fst snd].
  destruct (Dict.get key c) as [v|] eqn:Hg.
  - intros H.
    assert (Hkeys : forall x, (Dict.set key x c).*1 = c.*1 ++ []).
    { intros x. rewrite Dict_keys_set. unfold Dict.mem. rewrite Hg. now rewrite app_nil_r. }
    destruct v, dflt; simplify_eq;
      (split; [first [reflexivity | intros k Hk; now apply Dict_get_set_ne]
              | split; [first [now rewrite Hg | now rewrite Dict_get_set_eq]
                       | split; [first [apply Hkeys | now rewrite app_nil_r]
                                | intros value Hv; first [discriminate | right; now eexists]]]]).
  - intros [= <-]. split; [intros k Hk; now apply Dict_get_set_ne|].
    split; [now rewrite Dict_get_set_eq|].
    split; [|intros; now left].
    rewrite Dict_keys_set. unfold Dict.mem. now rewrite Hg.
Qed.

Lemma fill_config_steps (E : Env) (d cfg : list (string * pyval)) :
  fill_config E (PDict d) = Ok cfg ->
  exists c1 c2,
    apply_default (Ok d) ("name", PStr "canine") = Ok c1
    /\ apply_default (Ok c1) ("adapter", PDict [("type", PStr "Manual")]) = Ok c2
    /\ apply_default (Ok c2) ("backend", PDict [("type", PStr "Local")]) = Ok cfg.
Proof.
  intros H. rewrite fill_config_fold in H. unfold DEFAULTS in H. cbn [foldl] in H.
  destruct (apply_default (Ok d) ("name", PStr "canine")) as [c1|] eqn:H1; [|discriminate].
  destruct (apply_default (Ok c1) ("adapter", PDict [("type", PStr "Manual")])) as [c2|] eqn:H2;
    [|discriminate].
  now exists c1, c2.
Qed.

Lemma fill_config_sections (E : Env) (d cfg : list (string * pyval)) :
  fill_config E (PDict d) = Ok cfg ->
  Dict.get "name" cfg = Some (default (PStr "canine") (Dict.get "name" d))
  /\ Dict.get "adapter" cfg
     = Some (PDict (Dict.update [("type", PStr "Manual")] (conf_mapping d "adapter")))
  /\ Dict.get "backend" cfg
     = Some (PDict (Dict.update [("type", PStr "Local")] (conf_mapping d "backend"))).
Proof.
  intros H. apply fill_config_steps in H as (c1 & c2 & H1 & H2 & H).
  apply apply_default_spec in H1 as (F1 & G1 & _ & _).
  apply apply_default_spec in H2 as (F2 & G2 & _ & D2).
  apply apply_default_spec in H as (F3 & G3 & _ & D3).
  specialize (D2 _ eq_refl). specialize (D3 _ eq_refl).
  rewrite F1 in D2, G2 by discriminate. rewrite F2, F1 in D3, G3 by discriminate.
  split; [|split].
  - rewrite F3, F2, G1 by discriminate. destruct (Dict.get "name" d) as [[]|]; reflexivity.
  - rewrite F3, G2 by discriminate. unfold conf_mapping.
    destruct D2 as [-> | [given ->]]; reflexivity.
  - rewrite G3. unfold conf_mapping.
    destruct D3 as [-> | [given ->]]; reflexivity.
Qed.

(** X6. [fill_config] lets what the configuration says stand and fills the
    gaps: keys other than [name], [adapter] and [backend] keep their value,
    a given [name] is kept and a missing one becomes [canine], the
    [adapter] and [backend] mappings are the defaults [type: Manual] and
    [type: Local] with the given options laid over them, and the keys of
    the configuration keep their order, the missing defaults coming last. *)
Theorem fill_config_fills_gaps :
  forall (E : Env) (d cfg : list (string * pyval)),
    fill_config E (PDict d) = Ok cfg ->
    (forall k, k ∉ ["name"; "adapter"; "backend"] -> Dict.get k cfg = Dict.get k d)
    /\ Dict.get "name" cfg = Some (default (PStr "canine") (Dict.get "name" d))
    /\ Dict.get "adapter" cfg
       = Some (PDict (Dict.update [("type", PStr "Manual")] (conf_mapping d "adapter")))
    /\ Dict.get "backend" cfg
       = Some (PDict (Dict.update [("type", PStr "Local")] (conf_mapping d "backend")))
    /\ cfg.*1 = d.*1 ++ filter (fun k => Dict.mem k d = false) ["name"; "adapter"; "backend"].
Proof.
  intros E d cfg H.
  destruct (fill_config_sections E d cfg H) as (Hn & Ha & Hb).
  apply fill_config_steps in H as (c1 & c2 & H1 & H2 & H).
  apply apply_default_spec in H1 as (F1 & _ & K1 & _).
  apply apply_default_spec in H2 as (F2 & _ & K2 & _).
  apply apply_default_spec in H as (F3 & _ & K3 & _).
  split; [|split; [exact Hn|split; [exact Ha|split; [exact Hb|]]]].
  - intros k Hk. rewrite F3, F2, F1; [reflexivity | | |]; intros ->; apply Hk; set_solver.
  - rewrite K3, K2, K1. unfold Dict.mem. rewrite F2, !F1 by discriminate.
    rewrite <- !app_assoc. f_equal.
    rewrite !filter_cons, filter_nil. unfold Dict.mem.
    destruct (Dict.get "name" d), (Dict.get "adapter" d), (Dict.get "backend" d);
      repeat case_decide; try discriminate; try congruence; reflexivity.
Qed.

Lemma fill_config_fills_gaps_witness :
  Dict.get "adapter"
    [("script", PList [PStr "echo"]); ("adapter", PDict [("type", PStr "Manual"); ("opt", PStr "1")]);
     ("name", PStr "canine"); ("backend", PDict [("type", PStr "Local")])]
  = Some (PDict (Dict.update [("type", PStr "Manual")]
                   (conf_mapping [("script", PList [PStr "echo"]);
                                  ("adapter", PDict [("opt", PStr "1")])] "adapter"))).
Proof.
  exact (proj1 (proj2 (proj2
           (fill_config_fills_gaps (sample_env [])
              [("script", PList [PStr "echo"]); ("adapter", PDict [("opt", PStr "1")])]
              _ eq_refl)))).
Defined.

Lemma Dict_set_same {V} (k : string) (v : V) (d : list (string * V)) :
  Dict.get k d = Some v -> Dict.set k v d = d.
Proof.
  induction d as [|[k' v'] d IH]; cbn; [discriminate|].
  case_bool_decide as Hk; [intros [= ->]; now subst | intros H; now rewrite IH].
Qed.

Lemma Dict_set_fresh {V} (k : string) (v : V) (d : list (string * V)) :
  k ∉ d.*1 -> Dict.set k v d = d ++ [(k, v)].
Proof.
  induction d as [|[k' v'] d IH]; cbn; [reflexivity|]. intros Hk.
  apply not_elem_of_cons in Hk as [Hne Hk].
  rewrite bool_decide_eq_false_2 by congruence. now rewrite IH.
Qed.

Lemma update_fresh {V} (d2 : list (string * V)) :
  forall d1, NoDup (d1.*1 ++ d2.*1) -> Dict.update d1 d2 = d1 ++ d2.
Proof.
  unfold Dict.update. induction d2 as [|[k v] d2 IH]; intros d1 Hnd; cbn.
  - now rewrite app_nil_r.
  - cbn in Hnd. rewrite Dict_set_fresh.
    + rewrite IH; [now rewrite <- app_assoc|].
      rewrite fmap_app, <- app_assoc. exact Hnd.
    + apply NoDup_app in Hnd as (_ & Hd & _). intros Hk. apply (Hd k Hk). left.
Qed.

Lemma update_NoDup {V} (d2 : list (string * V)) :
  forall d1, NoDup d1.*1 -> NoDup (Dict.update d1 d2).*1.
Proof.
  unfold Dict.update. induction d2 as [|[k v] d2 IH]; intros d1 Hnd; cbn; [assumption|].
  apply IH. now apply Dict_set_NoDup.
Qed.

Lemma update_head {V} (d2 : list (string * V)) :
  forall (k : string) (x : V) (r : list (string * V)),
    exists y r', Dict.update ((k, x) :: r) d2 = (k, y) :: r'.
Proof.
  unfold Dict.update. induction d2 as [|[k2 v2] d2 IH]; intros k x r; cbn.
  - now eexists _, _.
  - case_bool_decide as Hk; [subst; apply IH | apply IH].
Qed.

Lemma update_default_twice (k : string) (x : pyval) (given : list (string * pyval)) :
  Dict.update [(k, x)] (Dict.update [(k, x)] given) = Dict.update [(k, x)] given.
Proof.
  destruct (update_head given k x []) as (y & r' & Heq).
  pose proof (update_NoDup given [(k, x)]) as Hnd.
  rewrite Heq in Hnd |- *. specialize (Hnd ltac:(cbn; apply NoDup_singleton)).
  unfold Dict.update at 1. cbn [foldl Dict.set fst snd].
  rewrite bool_decide_eq_true_2 by reflexivity.
  change (foldl _ [(k, y)] r') with (Dict.update [(k, y)] r').
  now rewrite update_fresh.
Qed.

(** X7. Filling a filled configuration changes nothing: [fill_config]
    returns what it is given once the defaults are in. *)
Theorem fill_config_idempotent :
  forall (E : Env) (d cfg : list (string * pyval)),
    fill_config E (PDict d) = Ok cfg -> fill_config E (PDict cfg) = Ok cfg.
Proof.
  intros E d cfg H.
  destruct (fill_config_sections E d cfg H) as (Hn & Ha & Hb).
  rewrite fill_config_fold. unfold DEFAULTS. cbn [foldl].
  assert (S1 : apply_default (Ok cfg) ("name", PStr "canine") = Ok cfg).
  { unfold apply_default. cbn [fst snd]. rewrite Hn.
    now destruct (default (PStr "canine") (Dict.get "name" d)). }
  rewrite S1.
  assert (S2 : apply_default (Ok cfg) ("adapter", PDict [("type", PStr "Manual")]) = Ok cfg).
  { unfold apply_default. cbn [fst snd]. rewrite Ha, update_default_twice.
    now rewrite Dict_set_same. }
  rewrite S2.
  unfold apply_default. cbn [fst snd]. rewrite Hb, update_default_twice.
  now rewrite Dict_set_same.
Qed.

Lemma fill_config_idempotent_witness :
  fill_config (sample_env [])
    (PDict [("script", PList [PStr "echo"]); ("adapter", PDict [("type", PStr "Manual"); ("opt", PStr "1")]);
            ("name", PStr "canine"); ("backend", PDict [("type", PStr "Local")])])
  = Ok [("script", PList [PStr "echo"]); ("adapter", PDict [("type", PStr "Manual"); ("opt", PStr "1")]);
        ("name", PStr "canine"); ("backend", PDict [("type", PStr "Local")])].
Proof.
  exact (fill_config_idempotent (sample_env [])
           [("script", PList [PStr "echo"]); ("adapter", PDict [("opt", PStr "1")])] _ eq_refl).
Defined.

(** ** The orchestrator's constructor *)

Lemma fill_config_mapping (E : Env) (config : pyval) (cfg : list (string * pyval)) :
  fill_config E config = Ok cfg -> exists d, fill_config E (PDict d) = Ok cfg.
Proof.
  intros H. destruct config; try discriminate H.
  - unfold fill_config in H. destruct (yaml_load E s) as [[]|] eqn:Hy; try discriminate H.
    eexists. exact H.
  - eexists. exact H.
Qed.

(** X8. A configuration without [script] builds no orchestrator: the
    constructor raises [KeyError] once the defaults are filled in, and
    nothing else happens. *)
Theorem missing_script_raises_KeyError :
  forall (E : Env) (config : pyval) (cfg : list (string * pyval)) (w : World),
    fill_config E config = Ok cfg ->
    Dict.get "script" cfg = None ->
    Orchestrator__init__ E config w
    = (Raise (KeyError "Config missing required key 'script'"), w).
Proof.
  intros E config cfg w Hfill Hscript.
  destruct (fill_config_mapping E config cfg Hfill) as [d Hd].
  destruct (fill_config_name E d cfg Hd) as [nm Hn].
  unfold Orchestrator__init__, bind, lift. rewrite Hfill. cbn.
  rewrite Hn. cbn. rewrite Hscript. reflexivity.
Qed.

Lemma missing_script_raises_KeyError_witness :
  Orchestrator__init__ (sample_env []) (PDict [("inputs", PDict [("FOO", PStr "bar")])])
                       (world_with [] [] [])
  = (Raise (KeyError "Config missing required key 'script'"), world_with [] [] []).
Proof.
  exact (missing_script_raises_KeyError (sample_env [])
           (PDict [("inputs", PDict [("FOO", PStr "bar")])]) _ (world_with [] [] [])
           eq_refl eq_refl).
Defined.

(** X9. A [script] that is a string naming no file on the invoking host
    makes the constructor raise [FileNotFoundError] with that path, and
    nothing else happens. *)
Theorem missing_script_file_raises_FileNotFoundError :
  forall (E : Env) (config : pyval) (cfg : list (string * pyval)) (path : string) (w : World),
    fill_config E config = Ok cfg ->
    Dict.get "script" cfg = Some (PStr path) ->
    path ∉ host_files w ->
    Orchestrator__init__ E config w = (Raise (FileNotFoundError path), w).
Proof.
  intros E config cfg path w Hfill Hscript Hfile.
  destruct (fill_config_mapping E config cfg Hfill) as [d Hd].
  destruct (fill_config_name E d cfg Hd) as [nm Hn].
  unfold Orchestrator__init__, bind, lift. rewrite Hfill. cbn.
  rewrite Hn. cbn. rewrite Hscript. cbn.
  unfold os_path_isfile, gets, bind. cbn.
  rewrite bool_decide_eq_false_2 by exact Hfile. reflexivity.
Qed.

Lemma missing_script_file_raises_FileNotFoundError_witness :
  Orchestrator__init__ (sample_env []) (conf_with_script (PStr "/home/u/run.sh"))
                       (world_with ["/home/u/other.sh"] [] [])
  = (Raise (FileNotFoundError "/home/u/run.sh"), world_with ["/home/u/other.sh"] [] []).
Proof.
  eapply missing_script_file_raises_FileNotFoundError.
  - reflexivity.
  - reflexivity.
  - apply (bool_decide_unpack _). vm_compute. exact I.
Defined.

Lemma lift_Ok {A} (r : result A) (a : A) (w w' : World) :
  lift r w = (Ok a, w') -> r = Ok a /\ w' = w.
Proof. destruct r; cbn; unfold ret, raise; intros [= -> ->] || intros [=]; auto. Qed.

Lemma tagged_Ok (registry : list string) (what : string) (v : pyval)
    (ty : string) (options : list (string * pyval)) :
  tagged registry what v = Ok (ty, options) -> ty ∈ registry.
Proof.
  unfold tagged. intros H. repeat case_match; simplify_eq.
  match goal with H : bool_decide _ = true |- _ => now apply bool_decide_eq_true_1 in H end.
Qed.

(** X10. An orchestrator that the constructor returns has a list of
    shell lines as its script, an adapter type and a backend type from the
    registries, and inputs, resources and outputs whose leaves are strings;
    building it touches no file, and the one thing it may report is the
    warning that no outputs are declared, given exactly when the outputs
    are empty. *)
Theorem constructed_orchestrator_is_well_formed :
  forall (E : Env) (config : pyval) (o : Orchestrator) (w w' : World),
    Orchestrator__init__ E config w = (Ok o, w') ->
    (exists lines, script o = PList lines)
    /\ _adapter_type o ∈ ADAPTERS
    /\ _backend_type o ∈ BACKENDS
    /\ only_strings (raw_inputs o) = true
    /\ only_strings (resources o) = true
    /\ only_strings (raw_outputs o) = true
    /\ w' = mkWorld (host_files w) (host_dirs w) (ctrl_files w) (ctrl_dirs w)
                    (requester_pays w) (sacct_feed w)
                    (trace w ++ if bool_decide (py_len (raw_outputs o) = 0)
                                then [Stderr "No outputs declared"] else []).
Proof.
  intros E config o w w' H. unfold Orchestrator__init__ in H.
  apply bind_Ok in H as (cfg & w1 & H1 & H). apply lift_Ok in H1 as [Hcfg ->].
  apply bind_Ok in H as (nm & w1 & H1 & H). apply lift_Ok in H1 as [Hnm ->].
  apply bind_Ok in H as (scr & w1 & H1 & H). apply lift_Ok in H1 as [Hscr ->].
  apply bind_Ok in H as (missing & w1 & H1 & H).
  apply bind_Ok in H as ([] & w2 & H2 & H).
  apply bind_Ok in H as ([ta oa] & w3 & H3 & H). apply lift_Ok in H3 as [Hta ->].
  apply bind_Ok in H as ([tb ob] & w3 & H3 & H). apply lift_Ok in H3 as [Htb ->].
  apply bind_Ok in H as ([la lo] & w3 & H3 & H). apply lift_Ok in H3 as [Hl ->].
  apply bind_Ok in H as ([] & w3 & H3 & H).
  apply ret_Ok in H as [<- <-]. cbn [script _adapter_type _backend_type raw_inputs resources
                                     raw_outputs fst snd].
  assert (Hw1 : w1 = w).
  { destruct scr; apply ret_Ok in H1 as [_ <-]; reflexivity. }
  subst w1.
  assert (Hw2 : (exists lines, scr = PList lines) /\ w2 = w).
  { destruct missing; [discriminate H2|].
    destruct scr; try discriminate H2. apply ret_Ok in H2 as [_ <-]. split; [now eexists | reflexivity]. }
  destruct Hw2 as [Hlines ->].
  split; [exact Hlines|].
  split; [exact (tagged_Ok _ _ _ _ _ Hta)|].
  split; [exact (tagged_Ok _ _ _ _ _ Htb)|].
  split; [destruct (Dict.get "inputs" cfg); [apply stringify_only_strings | reflexivity]|].
  split; [destruct (Dict.get "resources" cfg); [apply stringify_only_strings | reflexivity]|].
  split; [destruct (Dict.get "outputs" cfg); [apply stringify_only_strings | reflexivity]|].
  destruct w. case_bool_decide.
  - unfold emit, modify in H3. now injection H3 as <-.
  - apply ret_Ok in H3 as [_ <-]. cbn. now rewrite app_nil_r.
Qed.

Lemma constructed_orchestrator_is_well_formed_witness :
  match (Orchestrator__init__ (sample_env []) (conf_with_script (PList [PStr "echo $FOO"]))
                              (world_with [] [] [])).1 with
  | Ok o => _adapter_type o ∈ ADAPTERS
  | Raise _ => False
  end.
Proof.
  destruct (Orchestrator__init__ (sample_env []) (conf_with_script (PList [PStr "echo $FOO"]))
                                 (world_with [] [] [])) as [[o|e] w'] eqn:H; cbn.
  - exact (proj1 (proj2 (constructed_orchestrator_is_well_formed _ _ _ _ _ H))).
  - vm_compute in H. discriminate H.
Defined.

(** X11. An adapter type that is a string outside the registry makes the
    constructor raise [ValueError], also when the script is in order, and
    nothing else happens. *)
Theorem unknown_adapter_type_raises_ValueError :
  forall (E : Env) (config : pyval) (cfg : list (string * pyval)) (lines : list pyval)
         (ty : string) (w : World),
    fill_config E config = Ok cfg ->
    Dict.get "script" cfg = Some (PList lines) ->
    conf_option cfg "adapter" "type" = Some (PStr ty) ->
    ty ∉ ADAPTERS ->
    exists msg, Orchestrator__init__ E config w = (Raise (ValueError msg), w).
Proof.
  intros E config cfg lines ty w Hfill Hscript Ha Hunknown.
  destruct (fill_config_mapping E config cfg Hfill) as [d Hd].
  destruct (fill_config_name E d cfg Hd) as [nm Hn].
  unfold Orchestrator__init__, bind, lift. rewrite Hfill. cbn.
  rewrite Hn. cbn. rewrite Hscript. cbn.
  unfold conf_option in Ha.
  destruct (Dict.get "adapter" cfg) as [[]|]; try discriminate Ha.
  cbn. rewrite Ha. rewrite bool_decide_eq_false_2 by assumption. cbn. now eexists.
Qed.

Lemma unknown_adapter_type_raises_ValueError_witness :
  exists msg,
    Orchestrator__init__ (sample_env [])
      (PDict [("script", PList [PStr "echo"]); ("adapter", PDict [("type", PStr "Firecloud")])])
      (world_with [] [] [])
    = (Raise (ValueError msg), world_with [] [] []).
Proof.
  eapply unknown_adapter_type_raises_ValueError.
  - reflexivity.
  - reflexivity.
  - reflexivity.
  - apply (bool_decide_unpack _). vm_compute. exact I.
Defined.

(** ** The localizer's scope and its requester-pays memo *)

Lemma enter_step (d : string) (w w' : World) :
  (isd <- transport_isdir d ;; if isd then ret tt else transport_mkdir d) w = (Ok tt, w') ->
  w' = mkWorld (host_files w) (host_dirs w) (ctrl_files w) (ctrl_dirs w ∪ {[d]})
               (requester_pays w) (sacct_feed w) (trace w).
Proof.
  destruct w as [hf hd cf cd rp feed tr].
  unfold transport_isdir, transport_mkdir, transport_exists, set_ctrl_dirs, modify, gets,
    bind, ret, raise. cbn.
  repeat case_match; intros [= <-]; try discriminate.
  - f_equal. apply bool_decide_eq_true_1 in H. set_solver.
  - reflexivity.
Qed.

Lemma enter_step_there (d : string) (w : World) :
  d ∈ ctrl_dirs w ->
  (isd <- transport_isdir d ;; if isd then ret tt else transport_mkdir d) w = (Ok tt, w).
Proof.
  intros Hd. unfold transport_isdir, gets, bind. now rewrite bool_decide_eq_true_2.
Qed.

Lemma enter_result (self self' : Localizer) (w w' : World) :
  Localizer__enter__ self w = (Ok self', w') ->
  self' = self
  /\ w' = mkWorld (host_files w) (host_dirs w) (ctrl_files w)
                  (ctrl_dirs w ∪ list_to_set (staging_tree self))
                  (requester_pays w) (sacct_feed w) (trace w).
Proof.
  intros H. unfold Localizer__enter__ in H.
  apply bind_Ok in H as ([] & w4 & H & Hret). apply ret_Ok in Hret as [<- <-].
  cbn [for_fold] in H.
  apply bind_Ok in H as ([] & w1 & H1 & H). apply enter_step in H1.
  apply bind_Ok in H as ([] & w2 & H2 & H). apply enter_step in H2.
  apply bind_Ok in H as ([] & w3 & H3 & H). apply enter_step in H3.
  apply bind_Ok in H as ([] & w5 & H4 & H). apply enter_step in H4.
  apply ret_Ok in H as [_ <-].
  split; [reflexivity|]. subst. cbn. f_equal. unfold staging_tree. set_solver.
Qed.

(** X12. When [__enter__] returns, the four directories of the staging
    tree are on the controller and nothing else has changed: no file is
    touched and no command is run. Entering again in that state changes
    nothing. *)
Theorem enter_builds_the_staging_tree :
  forall (self self' : Localizer) (w w' : World),
    Localizer__enter__ self w = (Ok self', w') ->
    self' = self
    /\ w' = mkWorld (host_files w) (host_dirs w) (ctrl_files w)
                    (ctrl_dirs w ∪ list_to_set (staging_tree self))
                    (requester_pays w) (sacct_feed w) (trace w)
    /\ Localizer__enter__ self w' = (Ok self, w').
Proof.
  intros self self' w w' H. apply enter_result in H as [Hself Hw].
  split; [exact Hself|]. split; [exact Hw|].
  rewrite Hw. unfold Localizer__enter__, bind at 1. cbn [for_fold].
  unfold bind at 1. rewrite enter_step_there by (unfold staging_tree; cbn; set_solver).
  unfold bind at 1. rewrite enter_step_there by (unfold staging_tree; cbn; set_solver).
  unfold bind at 1. rewrite enter_step_there by (unfold staging_tree; cbn; set_solver).
  unfold bind at 1. rewrite enter_step_there by (unfold staging_tree; cbn; set_solver).
  reflexivity.
Qed.

Lemma enter_builds_the_staging_tree_witness :
  match Localizer__enter__ sample_localizer (world_with [] [] []) with
  | (Ok self, w') => Localizer__enter__ sample_localizer w' = (Ok sample_localizer, w')
  | (Raise _, _) => False
  end.
Proof.
  destruct (Localizer__enter__ sample_localizer (world_with [] [] [])) as [[self|e] w'] eqn:H.
  - exact (proj2 (proj2 (enter_builds_the_staging_tree _ _ _ _ H))).
  - vm_compute in H. discriminate H.
Defined.



(** X14. [get_requester_pays] asks about a bucket once: after a call for a
    path, a call for any path of the same bucket, with or without the
    [gs://] prefix, returns the same answer, runs no command and changes
    nothing. *)
Theorem requester_pays_is_asked_once :
  forall (E : Env) (path path' : string) (b : bool) (w w1 : World),
    get_requester_pays E path w = (Ok b, w1) ->
    bucket_of path' = bucket_of path ->
    get_requester_pays E path' w1 = (Ok b, w1).
Proof.
  intros E path path' b w w1 H Hb. unfold get_requester_pays in *.
  fold (bucket_of path) in H. fold (bucket_of path'). rewrite Hb.
  destruct w as [hf hd cf cd rp feed tr].
  unfold gets, bind, ret, backend_invoke, emit, set_requester_pays, modify in *. cbn in *.
  destruct (rp !! bucket_of path) as [known|] eqn:Hk; cbn in H.
  - rewrite Hk in H. injection H as <- <-. cbn. rewrite Hk. cbn. rewrite Hk. reflexivity.
  - rewrite lookup_insert_eq in H. injection H as <- <-. cbn.
    rewrite lookup_insert_eq. cbn. rewrite lookup_insert_eq. reflexivity.
Qed.

Lemma requester_pays_is_asked_once_witness :
  match get_requester_pays (sample_env []) "gs://bucket/a.bam" (world_with [] [] []) with
  | (Ok b, w1) => get_requester_pays (sample_env []) "bucket/dir/b.bam" w1 = (Ok b, w1)
  | (Raise _, _) => False
  end.
Proof.
  destruct (get_requester_pays (sample_env []) "gs://bucket/a.bam" (world_with [] [] []))
    as [[b|e] w1] eqn:H.
  - exact (requester_pays_is_asked_once _ _ "bucket/dir/b.bam" _ _ _ H eq_refl).
  - vm_compute in H. discriminate H.
Defined.

(** ** Localization of single files *)

Lemma alt_path_length (p : string) : String.length (alt_path p) = String.length p + 5.
Proof.
  unfold alt_path. rewrite <- (splitext_join p) at 3.
  rewrite !String_length_app. cbn. lia.
Qed.

Lemma alt_path_not_ancestor (p : string) : alt_path p ∉ ancestors (posixpath.dirname p).
Proof.
  intros Hin. apply ancestors_dirname_prefix in Hin as [r Hr].
  apply (f_equal String.length) in Hr. rewrite String_length_app in Hr.
  rewrite alt_path_length in Hr. cbn in Hr. lia.
Qed.

Lemma free_path_step (n : nat) (taken : string -> bool) (p : string) :
  taken p = true -> free_path (S n) taken p = free_path n taken (alt_path p).
Proof.
  intros Ht. cbn. rewrite Ht. unfold alt_path. now destruct (posixpath.splitext p).
Qed.

Lemma localize_file_sends (E : Env) (self : Localizer) (jobId name value : string) (w : World) :
  value ∈ host_files w ->
  localize_gs self && Str.startswith "gs://" value = false ->
  let dirs := ctrl_dirs w ∪ list_to_set (ancestors (posixpath.dirname (staged_at self jobId value))) in
  let w1 := mkWorld (host_files w) (host_dirs w) (ctrl_files w) dirs
                    (requester_pays w) (sacct_feed w) (trace w) in
  let dest := free_path (size (ctrl_files w ∪ dirs)) (ctrl_exists w1) (staged_at self jobId value) in
  localize_file E self jobId name value false w
  = (Ok (recorded_as self jobId value),
     mkWorld (host_files w) (host_dirs w) (ctrl_files w ∪ {[dest]}) dirs
             (requester_pays w) (sacct_feed w) (trace w ++ [Send value dest])).
Proof.
  intros Hfile Hgs. destruct w as [hf hd cf cd rp feed tr]. cbn in *.
  unfold localize_file. fold (staged_at self jobId value).
  fold (recorded_as self jobId value).
  unfold transport_makedirs, set_ctrl_dirs, transport_send, os_path_isfile,
    set_ctrl_files, emit, modify, gets, bind, ret. cbn.
  rewrite Hgs. cbn. rewrite !bool_decide_eq_true_2 by exact Hfile. reflexivity.
Qed.

(** X15. A local file is never sent over something that is on the
    controller: [localize_file] sends it to a path that was free, and when
    the usual destination [jobs/<task>/inputs/<base name>] is taken and its
    [._alt] variant is free, the file goes to that variant. The path
    returned for the workers is the one of the usual destination all the
    same: it does not follow the rename. *)
Theorem taken_destination_is_renamed_not_recorded :
  forall (E : Env) (self : Localizer) (jobId name value : string) (w : World),
    value ∈ host_files w ->
    localize_gs self && Str.startswith "gs://" value = false ->
    exists dest w',
      localize_file E self jobId name value false w = (Ok (recorded_as self jobId value), w')
      /\ trace w' = trace w ++ [Send value dest]
      /\ ctrl_files w' = ctrl_files w ∪ {[dest]}
      /\ (dest ∉ ctrl_files w ∪ ctrl_dirs w)
      /\ (staged_at self jobId value ∈ ctrl_files w ->
          alt_path (staged_at self jobId value) ∉ ctrl_files w ∪ ctrl_dirs w ->
          dest = alt_path (staged_at self jobId value)).
Proof.
  intros E self jobId name value w Hfile Hgs.
  eexists _, _. split; [apply localize_file_sends; assumption|].
  cbn [trace ctrl_files]. split; [reflexivity|]. split; [reflexivity|].
  set (dirs := ctrl_dirs w ∪ list_to_set (ancestors (posixpath.dirname (staged_at self jobId value)))).
  set (w1 := mkWorld _ _ _ dirs _ _ _).
  split.
  - pose proof (free_path_not_taken w1 (staged_at self jobId value)) as Hfree.
    unfold ctrl_exists at 1 in Hfree. apply bool_decide_eq_false_1 in Hfree.
    cbn [ctrl_files ctrl_dirs w1] in Hfree. subst dirs. set_solver.
  - intros Htaken Halt.
    assert (Hsize : exists n, size (ctrl_files w ∪ dirs) = S n).
    { destruct (size (ctrl_files w ∪ dirs)) eqn:Hs; [|now eexists].
      apply size_empty_inv in Hs. set_solver. }
    destruct Hsize as [n ->].
    rewrite free_path_step
      by (unfold ctrl_exists; apply bool_decide_eq_true_2; cbn; set_solver).
    apply free_path_free. unfold ctrl_exists. apply bool_decide_eq_false_2.
    cbn [ctrl_files ctrl_dirs w1]. subst dirs.
    pose proof (alt_path_not_ancestor (staged_at self jobId value)). set_solver.
Qed.

Lemma taken_destination_is_renamed_not_recorded_witness :
  exists dest w',
    localize_file (sample_env []) sample_localizer "0" "data" "/b/x.txt" false
                  (world_with ["/b/x.txt"] ["stage/jobs/0/inputs/x.txt"] [])
    = (Ok (recorded_as sample_localizer "0" "/b/x.txt"), w')
    /\ trace w' = trace (world_with ["/b/x.txt"] ["stage/jobs/0/inputs/x.txt"] [])
                  ++ [Send "/b/x.txt" dest]
    /\ ctrl_files w' = ctrl_files (world_with ["/b/x.txt"] ["stage/jobs/0/inputs/x.txt"] [])
                       ∪ {[dest]}
    /\ (dest ∉ ctrl_files (world_with ["/b/x.txt"] ["stage/jobs/0/inputs/x.txt"] [])
              ∪ ctrl_dirs (world_with ["/b/x.txt"] ["stage/jobs/0/inputs/x.txt"] []))
    /\ (staged_at sample_localizer "0" "/b/x.txt"
          ∈ ctrl_files (world_with ["/b/x.txt"] ["stage/jobs/0/inputs/x.txt"] []) ->
        alt_path (staged_at sample_localizer "0" "/b/x.txt")
          ∉ ctrl_files (world_with ["/b/x.txt"] ["stage/jobs/0/inputs/x.txt"] [])
            ∪ ctrl_dirs (world_with ["/b/x.txt"] ["stage/jobs/0/inputs/x.txt"] []) ->
        dest = alt_path (staged_at sample_localizer "0" "/b/x.txt")).
Proof.
  apply (taken_destination_is_renamed_not_recorded (sample_env []) sample_localizer).
  - apply (bool_decide_unpack _). vm_compute. exact I.
  - reflexivity.
Defined.

Lemma renamed_file_sample :
  let r := localize_file (sample_env []) sample_localizer "0" "data" "/b/x.txt" false
                         (world_with ["/b/x.txt"] ["stage/jobs/0/inputs/x.txt"] []) in
  r.1 = Ok "/mnt/stage/jobs/0/inputs/x.txt"
  /\ trace r.2 = [Send "/b/x.txt" "stage/jobs/0/inputs/x._alt.txt"].
Proof. vm_compute. split; reflexivity. Qed.

(** ** What localization leaves alone *)

Lemma continues_refl (P : event -> Prop) (w : World) : continues P w w.
Proof.
  do 5 (split; [reflexivity|]). exists []. split; [now rewrite app_nil_r | constructor].
Qed.

Lemma continues_trans (P : event -> Prop) (w1 w2 w3 : World) :
  continues P w1 w2 -> continues P w2 w3 -> continues P w1 w3.
Proof.
  intros (A1 & B1 & C1 & D1 & F1 & t1 & T1 & P1) (A2 & B2 & C2 & D2 & F2 & t2 & T2 & P2).
  split; [congruence|]. split; [congruence|].
  split; [etrans; eassumption|]. split; [etrans; eassumption|]. split; [congruence|].
  exists (t1 ++ t2). split; [rewrite T2, T1; now rewrite app_assoc | now apply Forall_app].
Qed.

Lemma keeps_ret {A} (P : event -> Prop) (a : A) : keeps P (ret a).
Proof. intros w. apply continues_refl. Qed.

Lemma keeps_raise {A} (P : event -> Prop) (e : exn) : keeps P (@raise A e).
Proof. intros w. apply continues_refl. Qed.

Lemma keeps_gets {A} (P : event -> Prop) (f : World -> A) : keeps P (gets f).
Proof. intros w. apply continues_refl. Qed.

Lemma keeps_lift {A} (P : event -> Prop) (r : result A) : keeps P (lift r).
Proof. destruct r; [apply keeps_ret | apply keeps_raise]. Qed.

Lemma keeps_bind {A B} (P : event -> Prop) (c : M A) (k : A -> M B) :
  keeps P c -> (forall a, keeps P (k a)) -> keeps P (bind c k).
Proof.
  intros Hc Hk w. unfold bind. specialize (Hc w).
  destruct (c w) as [[a|e] w1]; [|exact Hc].
  eapply continues_trans; [exact Hc | apply Hk].
Qed.

Lemma keeps_for_fold {A S} (P : event -> Prop) (body : S -> A -> M S) (l : list A) :
  (forall s x, keeps P (body s x)) -> forall s, keeps P (for_fold body l s).
Proof.
  intros Hb. induction l as [|x l IH]; intros s; cbn.
  - apply keeps_ret.
  - apply keeps_bind; [apply Hb | apply IH].
Qed.

Lemma keeps_emit (P : event -> Prop) (ev : event) : P ev -> keeps P (emit ev).
Proof.
  intros Hev w. do 5 (split; [reflexivity|]).
  exists [ev]. split; [reflexivity | now constructor].
Qed.

Lemma keeps_more_files (P : event -> Prop) (p : string) :
  keeps P (set_ctrl_files (fun f => f ∪ {[p]})).
Proof.
  intros w. split; [reflexivity|]. split; [reflexivity|].
  split; [cbn; set_solver|]. split; [reflexivity|]. split; [reflexivity|].
  exists []. split; [now rewrite app_nil_r | constructor].
Qed.

Lemma keeps_more_dirs (P : event -> Prop) (ds : gset string) :
  keeps P (set_ctrl_dirs (fun d => d ∪ ds)).
Proof.
  intros w. split; [reflexivity|]. split; [reflexivity|].
  split; [reflexivity|]. split; [cbn; set_solver|]. split; [reflexivity|].
  exists []. split; [now rewrite app_nil_r | constructor].
Qed.

Lemma keeps_memo (P : event -> Prop) (f : gmap string bool -> gmap string bool) :
  keeps P (set_requester_pays f).
Proof.
  intros w. do 5 (split; [reflexivity|]).
  exists []. split; [now rewrite app_nil_r | constructor].
Qed.

Ltac keeps_step :=
  lazymatch goal with
  | |- keeps _ (ret _) => apply keeps_ret
  | |- keeps _ (raise _) => apply keeps_raise
  | |- keeps _ (gets _) => apply keeps_gets
  | |- keeps _ (lift _) => apply keeps_lift
  | |- keeps _ (set_ctrl_files _) => apply keeps_more_files
  | |- keeps _ (set_ctrl_dirs _) => apply keeps_more_dirs
  | |- keeps _ (set_requester_pays _) => apply keeps_memo
  | |- keeps _ (emit _) => apply keeps_emit; exact I
  | |- keeps _ (bind _ _) => apply keeps_bind; [|intros ?]
  | |- keeps _ (for_fold _ _ _) => apply keeps_for_fold; intros ? ?
  | |- keeps _ (if ?b then _ else _) => destruct b
  | |- keeps _ (match ?x with _ => _ end) => destruct x
  | |- keeps _ (let _ := _ in _) => cbv zeta
  end.

Lemma keeps_get_requester_pays (E : Env) (path : string) :
  keeps copies_or_reports (get_requester_pays E path).
Proof. unfold get_requester_pays, backend_invoke. repeat keeps_step. Qed.

Lemma keeps_send (src dst : string) : keeps copies_or_reports (transport_send src dst).
Proof. unfold transport_send, os_path_isfile. repeat keeps_step. Qed.


Lemma keeps_localize_common (E : Env) (self : Localizer) (cd : gmap string string)
    (path : string) :
  keeps copies_or_reports (localize_common E self cd path).
Proof.
  unfold localize_common, backend_invoke, check_call, os_path_isfile.
  repeat first [apply keeps_get_requester_pays | apply keeps_send | keeps_step].
Qed.



(** ** The records of [localize] *)

Lemma localize_input_unknown_mode (E : Env) (self : Localizer)
    (ov : list (string * option string)) (cd : gmap string string) (jobId arg v mode : string)
    (record : list (string * Localization)) (w : World) :
  Dict.get arg ov = Some (Some mode) ->
  mode ∉ ["stream"; "localize"; "delayed"] ->
  localize_input E self ov cd jobId record (arg, v) w = (Ok record, w).
Proof.
  intros Hov Hmode. unfold localize_input. rewrite Hov.
  rewrite !bool_decide_eq_false_2; [reflexivity | discriminate | | | ];
    intros [= ->]; apply Hmode; set_solver.
Qed.

Lemma localize_inputs_skip_unknown (E : Env) (self : Localizer)
    (ov : list (string * option string)) (cd : gmap string string) (jobId arg mode : string)
    (data : list (string * string)) :
  Dict.get arg ov = Some (Some mode) ->
  mode ∉ ["stream"; "localize"; "delayed"] ->
  forall record w record' w',
    Dict.get arg record = None ->
    for_fold (localize_input E self ov cd jobId) data record w = (Ok record', w') ->
    Dict.get arg record' = None.
Proof.
  intros Hov Hmode. apply for_fold_invariant. intros record [k v] w record' w' Hrec Hstep.
  destruct (decide (k = arg)) as [->|Hne].
  - rewrite (localize_input_unknown_mode E self ov cd jobId arg v mode record w Hov Hmode) in Hstep.
    injection Hstep as <- _. exact Hrec.
  - rewrite (localize_input_other_key E self ov cd jobId arg k v record record' w w' Hne Hstep).
    exact Hrec.
Qed.

(** X17. An override whose text, lower-cased, is none of [stream],
    [localize] and [delayed] makes the input vanish: when [localize]
    returns, every task has its entry in the per-task input map, and no
    entry holds a record for that input, so a misspelt mode drops the
    input. *)
Theorem unrecognised_override_drops_the_input :
  forall (E : Env) (self self' : Localizer)
         (job_spec : list (string * list (string * string)))
         (overrides : list (string * pyval)) (arg mode jobId : string) (w w' : World),
    inputs self = [] ->
    Dict.get arg (normalize_overrides overrides) = Some (Some mode) ->
    mode ∉ ["stream"; "localize"; "delayed"] ->
    jobId ∈ job_spec.*1 ->
    localize E self job_spec (Some overrides) w = (Ok self', w') ->
    exists record,
      Dict.get jobId (inputs self') = Some record /\ Dict.get arg record = None.
Proof.
  intros E self self' job_spec overrides arg mode jobId w w' Hfresh Hov Hmode Hjob Hrun.
  unfold localize in Hrun. cbn [default] in Hrun.
  apply bind_Ok in Hrun as (cd & w1 & _ & Hrun).
  apply bind_Ok in Hrun as (ins & w2 & Hins & Hrun).
  apply ret_Ok in Hrun as [<- _]. cbn [inputs with_inputs].
  rewrite Hfresh in Hins. clear Hfresh.
  assert (Hmem : Dict.mem jobId ins = true).
  { eapply localize_tasks_cover; [exact Hins | left; exact Hjob]. }
  unfold Dict.mem in Hmem. destruct (Dict.get jobId ins) as [record|] eqn:Hget; [|discriminate].
  exists record. split; [reflexivity|].
  revert Hget. generalize record jobId. clear Hmem Hjob record jobId.
  eapply (for_fold_invariant
            (fun ins => forall record j, Dict.get j ins = Some record -> Dict.get arg record = None));
    [ | | exact Hins].
  - intros ins0 job w0 ins1 w3 Hinv Hstep record j.
    apply localize_task_shape in Hstep as (rec0 & wa & wb & -> & Hrec).
    destruct (decide (job.1 = j)) as [<-|Hne].
    + rewrite Dict_get_set_eq. intros [= <-].
      eapply localize_inputs_skip_unknown; [exact Hov | exact Hmode | | exact Hrec]. reflexivity.
    + rewrite Dict_get_set_ne by exact Hne. apply Hinv.
  - intros record j. discriminate.
Qed.

Lemma unrecognised_override_drops_the_input_witness :
  exists record,
    Dict.get "0" (inputs (with_inputs sample_localizer ∅ [("0", [])]))
    = Some record /\ Dict.get "ref" record = None.
Proof.
  apply (unrecognised_override_drops_the_input (sample_env []) sample_localizer
           (with_inputs sample_localizer ∅ [("0", [])])
           task_with_reference [("ref", PStr "Steam")] "ref" "steam" "0"
           (world_with ["/a/x.txt"] [] [])
           (mkWorld {["/a/x.txt"]} ∅ ∅
                    (list_to_set ["stage/jobs/0/workspace"; "stage/jobs/0"; "stage/jobs"; "stage"])
                    ∅ [] [])).
  - reflexivity.
  - reflexivity.
  - apply (bool_decide_unpack _). vm_compute. exact I.
  - cbn. set_solver.
  - vm_compute. reflexivity.
Defined.

Lemma localize_input_in_order (E : Env) (self : Localizer)
    (ov : list (string * option string)) (cd : gmap string string) (jobId : string)
    (record record' : list (string * Localization)) (kv : string * string) (w w' : World) :
  (forall arg l, Dict.get arg record = Some l -> record_in_order ov arg l) ->
  localize_input E self ov cd jobId record kv w = (Ok record', w') ->
  forall arg l, Dict.get arg record' = Some l -> record_in_order ov arg l.
Proof.
  intros Hinv Hrun arg l. destruct kv as [k v]. unfold localize_input in Hrun.
  assert (Hset : forall l0, record_in_order ov k l0 ->
                   Dict.get arg (Dict.set k l0 record) = Some l -> record_in_order ov arg l).
  { intros l0 Hl0. destruct (decide (k = arg)) as [->|Hne].
    - rewrite Dict_get_set_eq. now intros [= <-].
    - rewrite Dict_get_set_ne by exact Hne. apply Hinv. }
  repeat first [ progress case_match
               | apply bind_Ok in Hrun as (? & ? & ? & Hrun) ];
    apply ret_Ok in Hrun as [<- _]; try apply Hinv; apply Hset; unfold record_in_order, override_is; cbn;
    try (left; reflexivity).
  - right. left. split; [reflexivity|]. apply bool_decide_eq_true_2.
    match goal with H : bool_decide (_ = Some "stream") = true |- _ =>
      apply bool_decide_eq_true_1 in H; congruence end.
  - right. right. split; [reflexivity|]. split.
    + apply bool_decide_eq_true_2.
      match goal with H : bool_decide (_ = Some "delayed") = true |- _ =>
        apply bool_decide_eq_true_1 in H; congruence end.
    + match goal with H : negb _ = false |- _ => now apply negb_false_iff in H end.
Qed.

(** X18. Every record that [localize] writes is one [localize_job] knows
    how to handle: its type is none, or [stream] for an input overridden to
    [stream], or [download] for an input overridden to [delayed] whose
    value is a [gs://] path, kept as the record's path. *)
Theorem localize_writes_known_records :
  forall (E : Env) (self self' : Localizer)
         (job_spec : list (string * list (string * string)))
         (overrides : option (list (string * pyval))) (w w' : World)
         (jobId arg : string) (record : list (string * Localization)) (l : Localization),
    inputs self = [] ->
    localize E self job_spec overrides w = (Ok self', w') ->
    Dict.get jobId (inputs self') = Some record ->
    Dict.get arg record = Some l ->
    record_in_order (normalize_overrides (default [] overrides)) arg l.
Proof.
  intros E self self' job_spec overrides w w' jobId arg record l Hfresh Hrun.
  unfold localize in Hrun.
  apply bind_Ok in Hrun as (cd & w1 & _ & Hrun).
  apply bind_Ok in Hrun as (ins & w2 & Hins & Hrun).
  apply ret_Ok in Hrun as [<- _]. cbn [inputs with_inputs].
  rewrite Hfresh in Hins. clear Hfresh.
  revert jobId arg record l.
  eapply (for_fold_invariant
            (fun ins => forall j a record l, Dict.get j ins = Some record ->
                          Dict.get a record = Some l -> record_in_order _ a l));
    [ | | exact Hins].
  - intros ins0 job w0 ins1 w3 Hinv Hstep j a record l.
    apply localize_task_shape in Hstep as (rec0 & wa & wb & -> & Hrec).
    destruct (decide (job.1 = j)) as [<-|Hne].
    + rewrite Dict_get_set_eq. intros [= <-]. revert a l.
      eapply (for_fold_invariant
                (fun record => forall a l, Dict.get a record = Some l -> record_in_order _ a l));
        [ | | exact Hrec].
      * intros s x wc s' wd Hs Hx. eapply localize_input_in_order; eassumption.
      * intros a l. discriminate.
    + rewrite Dict_get_set_ne by exact Hne. apply Hinv.
  - intros j a record l. discriminate.
Qed.

Lemma localize_writes_known_records_witness :
  record_in_order (normalize_overrides (default [] (Some [("ref", PStr "Stream")]))) "ref"
                  (mkLocalization (Some "stream") "gs://bucket/ref.fa").
Proof.
  apply (localize_writes_known_records (sample_env []) sample_localizer
           (with_inputs sample_localizer ∅
              [("0", [("ref", mkLocalization (Some "stream") "gs://bucket/ref.fa")])])
           [("0", [("ref", "gs://bucket/ref.fa")])] (Some [("ref", PStr "Stream")])
           (world_with [] [] [])
           (mkWorld ∅ ∅ ∅
                    (list_to_set ["stage/jobs/0/workspace"; "stage/jobs/0"; "stage/jobs"; "stage"])
                    ∅ [] [])
           "0" "ref" [("ref", mkLocalization (Some "stream") "gs://bucket/ref.fa")]).
  - reflexivity.
  - vm_compute. reflexivity.
  - reflexivity.
  - reflexivity.
Defined.

Lemma localize_file_skips (E : Env) (self : Localizer) (jobId name value : string)
    (delayed : bool) (w : World) :
  localize_gs self = false ->
  value ∉ host_files w ->
  localize_file E self jobId name value delayed w
  = (Ok (recorded_as self jobId value),
     mkWorld (host_files w) (host_dirs w) (ctrl_files w)
             (ctrl_dirs w ∪ list_to_set (ancestors (posixpath.dirname (staged_at self jobId value))))
             (requester_pays w) (sacct_feed w) (trace w)).
Proof.
  intros Hgs Hfile. destruct w as [hf hd cf cdirs rp feed tr]. cbn in Hfile.
  unfold localize_file. fold (staged_at self jobId value). fold (recorded_as self jobId value).
  rewrite Hgs. cbn [andb].
  unfold transport_makedirs, set_ctrl_dirs, os_path_isfile, modify, gets, bind, ret.
  destruct delayed; cbn [negb host_files host_dirs ctrl_files ctrl_dirs requester_pays
                         sacct_feed trace]; [reflexivity|].
  rewrite bool_decide_eq_false_2 by exact Hfile. reflexivity.
Qed.

(** X19. With [localize_gs] off, a [gs://] input that has no override and
    is not common is recorded as if it had been copied: the record is of
    type none and points to [jobs/<task>/inputs/<base name>] on the
    workers, but no command is run and no file is put on the controller;
    only the task's [inputs] directory is made. *)
Theorem cloud_input_is_recorded_but_not_copied :
  forall (E : Env) (self : Localizer) (ov : list (string * option string))
         (cd : gmap string string) (jobId arg value : string)
         (record : list (string * Localization)) (w : World),
    localize_gs self = false ->
    Str.startswith "gs://" value = true ->
    Dict.get arg ov = None ->
    cd !! value = None ->
    value ∉ host_files w ->
    localize_input E self ov cd jobId record (arg, value) w
    = (Ok (Dict.set arg (mkLocalization None (recorded_as self jobId value)) record),
       mkWorld (host_files w) (host_dirs w) (ctrl_files w)
               (ctrl_dirs w ∪ list_to_set (ancestors (posixpath.dirname (staged_at self jobId value))))
               (requester_pays w) (sacct_feed w) (trace w)).
Proof.
  intros E self ov cd jobId arg value record w Hgs Hcloud Hov Hcd Hfile.
  unfold localize_input. rewrite Hov, Hcd, Hcloud.
  unfold os_path_isfile, gets. unfold bind at 1. rewrite orb_true_r. unfold bind at 1.
  rewrite localize_file_skips by assumption. reflexivity.
Qed.

Lemma cloud_input_is_recorded_but_not_copied_witness :
  localize_input (sample_env [])
    (Localizer__init__ (sample_env []) false true (Some "stage") (Some "/mnt/stage"))
    [] ∅ "0" [] ("bam", "gs://bucket/a.bam") (world_with [] [] [])
  = (Ok [("bam", mkLocalization None "/mnt/stage/jobs/0/inputs/a.bam")],
     mkWorld (host_files (world_with [] [] [])) (host_dirs (world_with [] [] []))
             (ctrl_files (world_with [] [] []))
             (ctrl_dirs (world_with [] [] [])
                ∪ list_to_set (ancestors (posixpath.dirname
                    (staged_at (Localizer__init__ (sample_env []) false true (Some "stage")
                                                  (Some "/mnt/stage")) "0" "gs://bucket/a.bam"))))
             (requester_pays (world_with [] [] [])) (sacct_feed (world_with [] [] []))
             (trace (world_with [] [] []))).
Proof.
  apply (cloud_input_is_recorded_but_not_copied (sample_env [])
           (Localizer__init__ (sample_env []) false true (Some "stage") (Some "/mnt/stage"))
           [] ∅ "0" "bam" "gs://bucket/a.bam" [] (world_with [] [] [])).
  - reflexivity.
  - reflexivity.
  - reflexivity.
  - reflexivity.
  - apply (bool_decide_unpack _). vm_compute. exact I.
Defined.

(** ** The setup script *)

Lemma get_requester_pays_total (E : Env) (path : string) (w : World) :
  exists b t w',
    get_requester_pays E path w = (Ok b, w')
    /\ trace w' = trace w ++ t /\ Forall asks_or_reports t
    /\ ctrl_files w' = ctrl_files w.
Proof.
  destruct w as [hf hd cf cd rp feed tr].
  unfold get_requester_pays. cbv zeta. fold (bucket_of path).
  unfold gets, bind, ret, backend_invoke, emit, set_requester_pays, modify.
  cbn [host_files host_dirs ctrl_files ctrl_dirs requester_pays sacct_feed trace].
  destruct (rp !! bucket_of path) eqn:Hk.
  - eexists _, [], _. split; [reflexivity|].
    cbn [trace ctrl_files]. rewrite app_nil_r. repeat constructor.
  - eexists _, [_], _. split; [reflexivity|]. cbn [trace ctrl_files]. repeat constructor.
Qed.

Lemma localize_file_delayed (E : Env) (self : Localizer) (jobId name value : string) (w : World) :
  localize_file E self jobId name value true w
  = (Ok (recorded_as self jobId value),
     mkWorld (host_files w) (host_dirs w) (ctrl_files w)
             (ctrl_dirs w ∪ list_to_set (ancestors (posixpath.dirname (staged_at self jobId value))))
             (requester_pays w) (sacct_feed w) (trace w)).
Proof. destruct w. reflexivity. Qed.

Lemma setup_input_total (E : Env) (self : Localizer) (jobId : string)
    (job_vars exports extra_tasks : list string) (kv : string * Localization) (w : World) :
  exists exports' extra_tasks' t w',
    setup_input E self jobId (job_vars, exports, extra_tasks) kv w
    = (Ok (job_vars ++ (if known_type kv.2 then [shlex.quote kv.1] else []),
           exports', extra_tasks'), w')
    /\ trace w' = trace w ++ t /\ Forall asks_or_reports t
    /\ ctrl_files w' = ctrl_files w.
Proof.
  destruct kv as [key val]. unfold setup_input, known_type. cbn [fst snd].
  destruct (decide (loc_type val = Some "stream")) as [Hs|Hs];
    [|destruct (decide (loc_type val = Some "download")) as [Hd|Hd];
      [|destruct (decide (loc_type val = None)) as [Hn|Hn]]].
  - rewrite (bool_decide_eq_true_2 (_ = Some "stream")) by assumption.
    rewrite (bool_decide_eq_true_2 (_ ∈ _)) by (rewrite Hs; set_solver).
    unfold bind at 1. rewrite localize_file_delayed. unfold bind at 1.
    match goal with |- context [get_requester_pays E ?p ?w0] =>
      destruct (get_requester_pays_total E p w0) as (b & t & w' & Hrp & Ht & HP & Hf) end.
    rewrite Hrp. eexists _, _, t, w'.
    split; [reflexivity|]. split; [exact Ht|]. split; [exact HP | exact Hf].
  - rewrite (bool_decide_eq_false_2 (_ = Some "stream")) by assumption.
    rewrite (bool_decide_eq_true_2 (_ = Some "download")) by assumption.
    rewrite (bool_decide_eq_true_2 (_ ∈ _)) by (rewrite Hd; set_solver).
    unfold bind at 1. rewrite localize_file_delayed. unfold bind at 1.
    match goal with |- context [get_requester_pays E ?p ?w0] =>
      destruct (get_requester_pays_total E p w0) as (b & t & w' & Hrp & Ht & HP & Hf) end.
    rewrite Hrp. eexists _, _, t, w'.
    split; [reflexivity|]. split; [exact Ht|]. split; [exact HP | exact Hf].
  - rewrite (bool_decide_eq_false_2 (_ = Some "stream")) by assumption.
    rewrite (bool_decide_eq_false_2 (_ = Some "download")) by assumption.
    rewrite (bool_decide_eq_true_2 (_ = None)) by assumption.
    rewrite (bool_decide_eq_true_2 (_ ∈ _)) by (rewrite Hn; set_solver).
    eexists _, _, [], w. split; [reflexivity|]. rewrite app_nil_r. repeat constructor.
  - rewrite (bool_decide_eq_false_2 (_ = Some "stream")) by assumption.
    rewrite (bool_decide_eq_false_2 (_ = Some "download")) by assumption.
    rewrite (bool_decide_eq_false_2 (_ = None)) by assumption.
    rewrite (bool_decide_eq_false_2 (_ ∈ _)) by set_solver.
    rewrite app_nil_r. destruct w. eexists _, _, [_], _. split; [reflexivity|].
    cbn. repeat constructor.
Qed.

Lemma setup_inputs_total (E : Env) (self : Localizer) (jobId : string)
    (record : list (string * Localization)) :
  forall (job_vars exports extra_tasks : list string) (w : World),
    exists exports' extra_tasks' t w',
      for_fold (setup_input E self jobId) record (job_vars, exports, extra_tasks) w
      = (Ok (job_vars ++ exported_names record, exports', extra_tasks'), w')
      /\ trace w' = trace w ++ t /\ Forall asks_or_reports t
      /\ ctrl_files w' = ctrl_files w.
Proof.
  induction record as [|kv record IH]; intros job_vars exports extra_tasks w.
  - eexists exports, extra_tasks, [], w. cbn. unfold exported_names. cbn.
    rewrite !app_nil_r. repeat constructor.
  - destruct (setup_input_total E self jobId job_vars exports extra_tasks kv w)
      as (ex1 & et1 & t1 & w1 & H1 & T1 & P1 & F1).
    destruct (IH (job_vars ++ (if known_type kv.2 then [shlex.quote kv.1] else [])) ex1 et1 w1)
      as (ex2 & et2 & t2 & w2 & H2 & T2 & P2 & F2).
    cbn [for_fold]. unfold bind at 1. rewrite H1, H2.
    eexists ex2, et2, (t1 ++ t2), w2. split.
    + f_equal. f_equal. f_equal. rewrite <- app_assoc. f_equal.
      unfold exported_names. rewrite filter_cons.
      destruct (known_type kv.2) eqn:Hk.
      * rewrite decide_True by reflexivity. reflexivity.
      * rewrite decide_False by discriminate. reflexivity.
    + split; [rewrite T2, T1; now rewrite app_assoc|].
      split; [now apply Forall_app | congruence].
Qed.

(** X20. [localize_job] works for exactly the tasks that have an entry in
    the per-task input map. For a task without an entry it raises
    [KeyError] and does nothing. For a task with one it returns the path
    of [setup.sh] on the workers: after at most some commands and warnings
    it writes the script, whose [CANINE_JOB_VARS] line lists, in their
    order, the quoted names of the inputs recorded with a type it knows,
    and then makes it executable with mode [0o775]. *)
Theorem localize_job_writes_the_setup_script :
  forall (E : Env) (self : Localizer) (jobId : string) (setup_text : option string) (w : World),
    match Dict.get jobId (inputs self) with
    | None => localize_job E self jobId setup_text w = (Raise (KeyError jobId), w)
    | Some record =>
        let script_path := posixpath.join (CANINE_JOBS (env self)) [jobId; "setup.sh"] in
        exists exports extra_tasks t w',
          localize_job E self jobId setup_text w
          = (Ok (posixpath.join (CANINE_JOBS (environment self)) [jobId; "setup.sh"]), w')
          /\ trace w'
             = trace w ++ t
               ++ [OpenWrite script_path
                     (setup_script self jobId (exported_names record) exports extra_tasks
                                   (default "" setup_text));
                   Chmod script_path 509]
          /\ Forall asks_or_reports t
          /\ ctrl_files w' = ctrl_files w ∪ {[script_path]}
    end.
Proof.
  intros E self jobId setup_text w. unfold localize_job.
  destruct (Dict.get jobId (inputs self)) as [record|]; [|reflexivity].
  cbv zeta.
  destruct (setup_inputs_total E self jobId record [] []
              ["if [[ -d $CANINE_JOB_INPUTS ]]; then cd $CANINE_JOB_INPUTS; fi"] w)
    as (exports & extra_tasks & t & w1 & H1 & T1 & P1 & F1).
  unfold bind at 1. rewrite H1. cbn [app].
  eexists exports, extra_tasks, t, _. split; [reflexivity|].
  destruct w1 as [hf hd cf cd rp feed tr]. cbn in T1, F1 |- *. subst tr cf.
  split; [now rewrite <- !app_assoc|]. split; [exact P1 | reflexivity].
Qed.

(** ** Delocalization *)

Lemma candidates_no_patterns (listing : list (string * list string * list string)) :
  candidates listing [] = [].
Proof. induction listing as [|entry listing IH]; [reflexivity | exact IH]. Qed.

Lemma delocalize_task_no_patterns (E : Env) (self : Localizer) (output_dir jobId : string)
    (delete : bool) (w : World) :
  delocalize_task E self [] output_dir jobId delete w = (Ok [(jobId, [])], w).
Proof.
  rewrite delocalize_task_matches. unfold matches. rewrite candidates_no_patterns. reflexivity.
Qed.

(** X21. Without declared outputs [delocalize] moves nothing: for a given
    task it returns the task with an empty mapping, for all tasks it
    returns every directory listed under [jobs/] with an empty mapping, and
    in both cases no file is received or removed and no directory is made. *)
Theorem no_patterns_nothing_moves :
  forall (E : Env) (self : Localizer) (output_dir : string) (delete : bool) (w : World),
    (forall jobId,
        delocalize E self [] output_dir (Some jobId) delete w = (Ok [(jobId, [])], w))
    /\ delocalize E self [] output_dir None delete w
       = (Ok (foldl (fun out job => Dict.set job [] out) []
                    (listdir E (ctrl_files w) (ctrl_dirs w) (CANINE_JOBS (env self)))), w).
Proof.
  intros E self output_dir delete w. split.
  - intros jobId. apply delocalize_task_no_patterns.
  - unfold delocalize, gets. unfold bind at 1.
    generalize (listdir E (ctrl_files w) (ctrl_dirs w) (CANINE_JOBS (env self))).
    intros jobs. generalize (@nil (string * list (string * string))).
    induction jobs as [|job jobs IH]; intros out; [reflexivity|].
    cbn [for_fold foldl]. unfold bind at 1. unfold bind at 1.
    rewrite delocalize_task_no_patterns. cbn [Dict.get].
    rewrite bool_decide_eq_true_2 by reflexivity. apply IH.
Qed.

(** X22. [delocalize] does not reuse an output directory: when the
    directory [<output_dir>/<task>/<name>] of the first match is already on
    the invoking host, as after an earlier run, the call raises
    [FileExistsError] for it before anything is received or removed. *)
Theorem existing_output_directory_raises :
  forall (E : Env) (self : Localizer) (patterns : list (string * string))
         (output_dir jobId : string) (delete : bool) (w : World)
         (n f : string) (rest : list (string * string)),
    matches E self patterns jobId w = (n, f) :: rest ->
    posixpath.dirname (output_path output_dir jobId n f) <> "" ->
    posixpath.dirname (output_path output_dir jobId n f) ∈ host_files w ∪ host_dirs w ->
    delocalize E self patterns output_dir (Some jobId) delete w
    = (Raise (FileExistsError (posixpath.dirname (output_path output_dir jobId n f))), w).
Proof.
  intros E self patterns output_dir jobId delete w n f rest Hm Hne Hthere.
  unfold delocalize. rewrite delocalize_task_matches, Hm.
  cbn [for_fold]. unfold bind at 1. unfold bind at 1.
  unfold delocalize_one. cbn [fst snd]. unfold bind at 1.
  unfold delocalize_file. fold (output_path output_dir jobId n f).
  unfold bind at 1. unfold os_makedirs.
  rewrite bool_decide_eq_false_2 by exact Hne.
  unfold gets. unfold bind at 1.
  rewrite bool_decide_eq_true_2 by exact Hthere. reflexivity.
Qed.

Lemma existing_output_directory_raises_witness :
  delocalize (sample_env []) sample_localizer [("text", "*.txt")] "canine_output" (Some "0") true
             (mkWorld ∅ {["canine_output/0/text"]}
                      {["stage/jobs/0/workspace/a.txt"]} ∅ ∅ [] [])
  = (Raise (FileExistsError (posixpath.dirname
              (output_path "canine_output" "0" "text" "stage/jobs/0/workspace/a.txt"))),
     mkWorld ∅ {["canine_output/0/text"]} {["stage/jobs/0/workspace/a.txt"]} ∅ ∅ [] []).
Proof.
  apply (existing_output_directory_raises (sample_env []) sample_localizer _ _ _ _ _
           "text" "stage/jobs/0/workspace/a.txt" []).
  - vm_compute. reflexivity.
  - vm_compute. discriminate.
  - apply (bool_decide_unpack _). vm_compute. exact I.
Defined.

(** ** The poll loop *)

Lemma poll_loop_covers (E : Env) (localizer : Localizer) (patterns : list (string * string))
    (batch_id : string) :
  Str.contains_char "_" batch_id = false ->
  forall (rounds : nat) (waiting : gset string)
         (outputs outs : list (string * list (string * string))) (w w' : World),
    (forall jid, jid ∈ waiting -> exists i, jid = job_id batch_id i) ->
    poll_loop E rounds localizer patterns (waiting, outputs) w = (Ok (Some outs), w') ->
    (forall k, Dict.mem k outputs = true -> Dict.mem k outs = true)
    /\ (forall i, job_id batch_id i ∈ waiting -> Dict.mem (Str.of_nat i) outs = true).
Proof.
  intros Hb. induction rounds as [|n IH]; intros waiting outputs outs w w' Hw Hrun;
    cbn [poll_loop fst snd] in Hrun.
  - case_bool_decide as Hsize; [|discriminate Hrun].
    injection Hrun as <- _. apply size_empty_inv in Hsize. split; [auto|].
    intros i Hi. apply Hsize in Hi. set_solver.
  - case_bool_decide as Hsize.
    + injection Hrun as <- _. apply size_empty_inv in Hsize. split; [auto|].
      intros i Hi. apply Hsize in Hi. set_solver.
    + apply bind_Ok in Hrun as ([waiting' outputs'] & w1 & Hround & Hrun).
      rewrite poll_round_unfold in Hround. cbn [fst] in Hround.
      pose proof (poll_scan E localizer patterns (hd ∅ (sacct_feed w)) batch_id
                    (elements waiting) Hb) as Hscan.
      specialize (Hscan ltac:(intros jid Hin; apply Hw; set_solver) waiting outputs
                        (mkWorld (host_files w) (host_dirs w) (ctrl_files w) (ctrl_dirs w)
                                 (requester_pays w) (tl (sacct_feed w)) (trace w ++ [Sacct]))).
      rewrite Hround in Hscan. destruct Hscan as (Hset & Hdone & Hmono).
      destruct (IH waiting' outputs' outs w1 w') as [Hkeep Hcover]; [|exact Hrun|].
      { intros jid Hin. apply Hw. apply Hset in Hin as [Hin _]. exact Hin. }
      split; [intros k Hk; apply Hkeep, Hmono, Hk|].
      intros i Hi.
      destruct (finished (hd ∅ (sacct_feed w)) (job_id batch_id i)) eqn:Hfin.
      * apply Hkeep, Hdone; [set_solver | exact Hfin].
      * apply Hcover, Hset. split; [exact Hi|]. intros [_ Hf]. congruence.
Qed.

(** X23. When the poll loop ends, nothing has been lost on the way: the
    outputs it returns hold an entry for every array element that was
    waiting, under the element's array index, besides the entries that
    were there before. *)
Theorem poll_loop_returns_every_element :
  forall (E : Env) (localizer : Localizer) (patterns : list (string * string))
         (batch_id : string) (rounds : nat) (waiting : gset string)
         (outputs outs : list (string * list (string * string))) (w w' : World),
    Str.contains_char "_" batch_id = false ->
    (forall jid, jid ∈ waiting -> exists i, jid = job_id batch_id i) ->
    poll_loop E rounds localizer patterns (waiting, outputs) w = (Ok (Some outs), w') ->
    (forall k, Dict.mem k outputs = true -> Dict.mem k outs = true)
    /\ (forall i, job_id batch_id i ∈ waiting -> Dict.mem (Str.of_nat i) outs = true).
Proof.
  intros E localizer patterns batch_id rounds waiting outputs outs w w' Hb Hw Hrun.
  exact (poll_loop_covers E localizer patterns batch_id Hb rounds waiting outputs outs w w' Hw Hrun).
Qed.

Lemma poll_loop_returns_every_element_witness :
  match poll_loop (sample_env []) 1 sample_localizer [("log", "stdout")]
                  (list_to_set ["42_0"; "42_1"], [])
                  (world_with [] ["stage/jobs/1/workspace/stdout"] [acct_failed]) with
  | (Ok (Some outs), _) => Dict.mem (Str.of_nat 1) outs = true
  | _ => False
  end.
Proof.
  destruct (poll_loop (sample_env []) 1 sample_localizer [("log", "stdout")]
                      (list_to_set ["42_0"; "42_1"], [])
                      (world_with [] ["stage/jobs/1/workspace/stdout"] [acct_failed]))
    as [[[outs|]|e] w'] eqn:H.
  - refine (proj2 (poll_loop_returns_every_element _ _ _ "42" _ _ _ _ _ _ _ _ H) 1 _).
    + reflexivity.
    + intros jid Hin. cbn in Hin. rewrite !elem_of_union, !elem_of_singleton in Hin.
      destruct Hin as [->|[->|Hin]];
        [exists 0 | exists 1 | apply elem_of_empty in Hin; contradiction]; reflexivity.
    + cbn. set_solver.
  - vm_compute in H. discriminate H.
  - vm_compute in H. discriminate H.
Defined.

Lemma poll_job_keeps_waiting (E : Env) (localizer : Localizer) (patterns : list (string * string))
    (acct : gmap string string) (jid jid' : string)
    (st st' : gset string * list (string * list (string * string))) (w w' : World) :
  finished acct jid = false ->
  jid ∈ st.1 ->
  poll_job E localizer patterns acct st jid' w = (Ok st', w') ->
  jid ∈ st'.1.
Proof.
  intros Hfin Hin Hrun. destruct st as [waiting outputs]. unfold poll_job in Hrun.
  destruct (acct !! jid') as [state|] eqn:Hacct; [|now injection Hrun as <- _].
  destruct (negb (bool_decide (state ∈ ["RUNNING"; "PENDING"]))) eqn:Hstate;
    [|now injection Hrun as <- _].
  destruct (Str.split "_" jid' !! 1); [|discriminate Hrun].
  apply bind_Ok in Hrun as (r & w1 & _ & Hrun). apply ret_Ok in Hrun as [<- _].
  cbn [fst] in *. apply elem_of_difference. split; [exact Hin|].
  intros Heq. apply elem_of_singleton in Heq as ->.
  unfold finished in Hfin. rewrite Hacct, Hstate in Hfin. discriminate.
Qed.

Lemma keeps_feed_ret {A} (a : A) : keeps_feed (ret a).
Proof. intros w. reflexivity. Qed.

Lemma keeps_feed_raise {A} (e : exn) : keeps_feed (@raise A e).
Proof. intros w. reflexivity. Qed.

Lemma keeps_feed_gets {A} (f : World -> A) : keeps_feed (gets f).
Proof. intros w. reflexivity. Qed.

Lemma keeps_feed_bind {A B} (c : M A) (k : A -> M B) :
  keeps_feed c -> (forall a, keeps_feed (k a)) -> keeps_feed (bind c k).
Proof.
  intros Hc Hk w. unfold bind. specialize (Hc w).
  destruct (c w) as [[a|e] w1]; [|exact Hc].
  rewrite Hk. exact Hc.
Qed.

Lemma keeps_feed_for_fold {A S} (body : S -> A -> M S) (l : list A) :
  (forall s x, keeps_feed (body s x)) -> forall s, keeps_feed (for_fold body l s).
Proof.
  intros Hb. induction l as [|x l IH]; intros s; cbn.
  - apply keeps_feed_ret.
  - apply keeps_feed_bind; [apply Hb | apply IH].
Qed.

Ltac keeps_feed_step :=
  lazymatch goal with
  | |- keeps_feed (ret _) => apply keeps_feed_ret
  | |- keeps_feed (raise _) => apply keeps_feed_raise
  | |- keeps_feed (gets _) => apply keeps_feed_gets
  | |- keeps_feed (emit _) => intros ?; reflexivity
  | |- keeps_feed (set_host_dirs _) => intros ?; reflexivity
  | |- keeps_feed (set_host_files _) => intros ?; reflexivity
  | |- keeps_feed (set_ctrl_files _) => intros ?; reflexivity
  | |- keeps_feed (bind _ _) => apply keeps_feed_bind; [|intros ?]
  | |- keeps_feed (for_fold _ _ _) => apply keeps_feed_for_fold; intros ? ?
  | |- keeps_feed (if ?b then _ else _) => destruct b
  | |- keeps_feed (match ?x with _ => _ end) => destruct x
  | |- keeps_feed (let _ := _ in _) => cbv zeta
  end.

Lemma keeps_feed_delocalize (E : Env) (self : Localizer) (patterns : list (string * string))
    (output_dir : string) (jobId : option string) (delete : bool) :
  keeps_feed (delocalize E self patterns output_dir jobId delete).
Proof.
  assert (Htask : forall job, keeps_feed (delocalize_task E self patterns output_dir job delete)).
  { intros job. unfold delocalize_task. cbv zeta.
    apply keeps_feed_bind; [apply keeps_feed_gets | intros listing].
    apply keeps_feed_bind; [|intros; apply keeps_feed_ret].
    apply keeps_feed_for_fold. intros out [[dirpath dirnames] filenames].
    apply keeps_feed_for_fold. intros out1 np.
    apply keeps_feed_for_fold. intros out2 filename.
    unfold delocalize_match, delocalize_file, os_makedirs, transport_receive, transport_remove,
      transport_isfile.
    repeat keeps_feed_step. }
  unfold delocalize. destruct jobId as [job|]; [apply Htask|].
  apply keeps_feed_bind; [apply keeps_feed_gets | intros jobs].
  apply keeps_feed_for_fold. intros out job.
  apply keeps_feed_bind; [apply Htask | intros r]. repeat keeps_feed_step.
Qed.

Lemma keeps_feed_poll_job (E : Env) (localizer : Localizer) (patterns : list (string * string))
    (acct : gmap string string) (st : gset string * list (string * list (string * string)))
    (jid : string) :
  keeps_feed (poll_job E localizer patterns acct st jid).
Proof.
  unfold poll_job. destruct st as [waiting outputs].
  destruct (acct !! jid); [|apply keeps_feed_ret].
  destruct (negb _); [|apply keeps_feed_ret].
  destruct (_ !! 1); [|apply keeps_feed_raise].
  apply keeps_feed_bind; [apply keeps_feed_delocalize | intros r; apply keeps_feed_ret].
Qed.

Lemma poll_round_keeps_waiting (E : Env) (localizer : Localizer)
    (patterns : list (string * string))
    (st st' : gset string * list (string * list (string * string))) (jid : string)
    (w w' : World) :
  finished (hd ∅ (sacct_feed w)) jid = false ->
  jid ∈ st.1 ->
  poll_round E localizer patterns st w = (Ok st', w') ->
  jid ∈ st'.1 /\ sacct_feed w' = tl (sacct_feed w).
Proof.
  intros Hfin Hin Hrun. rewrite poll_round_unfold in Hrun. split.
  - revert Hin Hrun.
    apply (for_fold_invariant (fun s : gset string * list (string * list (string * string)) =>
                                 jid ∈ s.1)).
    intros s x w0 s' w1 Hs Hstep. eapply poll_job_keeps_waiting; eassumption.
  - pose proof (keeps_feed_for_fold (poll_job E localizer patterns (hd ∅ (sacct_feed w)))
                  (elements st.1)
                  (fun s x => keeps_feed_poll_job E localizer patterns _ s x) st) as Hfeed.
    specialize (Hfeed (mkWorld (host_files w) (host_dirs w) (ctrl_files w) (ctrl_dirs w)
                               (requester_pays w) (tl (sacct_feed w)) (trace w ++ [Sacct]))).
    rewrite Hrun in Hfeed. exact Hfeed.
Qed.

(** X24. The poll loop only ends through the accounting tables: as long
    as no table lists a waiting element in a state other than [RUNNING] and
    [PENDING], be it because the element is never listed, the loop does not
    come to its end, however many turns it takes. *)
Theorem unfinished_element_keeps_the_loop_waiting :
  forall (E : Env) (localizer : Localizer) (patterns : list (string * string))
         (jid : string) (rounds : nat) (waiting : gset string)
         (outputs : list (string * list (string * string))) (w w' : World)
         (r : option (list (string * list (string * string)))),
    jid ∈ waiting ->
    (forall acct, acct ∈ sacct_feed w -> finished acct jid = false) ->
    poll_loop E rounds localizer patterns (waiting, outputs) w = (Ok r, w') ->
    r = None.
Proof.
  intros E localizer patterns jid.
  induction rounds as [|n IH]; intros waiting outputs w w' r Hin Hfeed Hrun;
    cbn [poll_loop fst snd] in Hrun.
  - rewrite bool_decide_eq_false_2 in Hrun; [now injection Hrun as <- _|].
    intros Hsize. apply size_empty_inv in Hsize. apply Hsize in Hin. set_solver.
  - rewrite bool_decide_eq_false_2 in Hrun.
    2:{ intros Hsize. apply size_empty_inv in Hsize. apply Hsize in Hin. set_solver. }
    apply bind_Ok in Hrun as ([waiting' outputs'] & w1 & Hround & Hrun).
    apply poll_round_keeps_waiting with (jid := jid) in Hround as [Hin' Hfeed'].
    + apply (IH waiting' outputs' w1 w' r Hin'); [|exact Hrun].
      intros acct Hacct. apply Hfeed. rewrite Hfeed' in Hacct.
      destruct (sacct_feed w); [exact Hacct | now right].
    + destruct (sacct_feed w) as [|acct feed] eqn:Hf; cbn.
      * unfold finished. now rewrite lookup_empty.
      * apply Hfeed. left.
    + exact Hin.
Qed.

Lemma unfinished_element_keeps_the_loop_waiting_witness :
  match (poll_loop (sample_env []) 5 sample_localizer [("log", "stdout")]
                   (list_to_set ["42_0"; "42_1"; "42_2"], [])
                   (world_with [] ["stage/jobs/1/workspace/stdout"] [acct_failed])) with
  | (Ok r, _) => r = None
  | (Raise _, _) => False
  end.
Proof.
  destruct (poll_loop (sample_env []) 5 sample_localizer [("log", "stdout")]
                      (list_to_set ["42_0"; "42_1"; "42_2"], [])
                      (world_with [] ["stage/jobs/1/workspace/stdout"] [acct_failed]))
    as [[r|e] w'] eqn:H.
  - refine (unfinished_element_keeps_the_loop_waiting _ _ _ "42_2" _ _ _ _ _ _ _ _ H).
    + cbn. set_solver.
    + intros acct Hacct. cbn in Hacct. apply elem_of_cons in Hacct as [->|Hacct].
      * reflexivity.
      * apply elem_of_nil in Hacct. contradiction.
  - vm_compute in H. discriminate H.
Defined.

(** ** A whole run *)





Lemma emits_weaken {A} (P Q : event -> Prop) (c : M A) :
  (forall ev, P ev -> Q ev) -> emits P c -> emits Q c.
Proof.
  intros HPQ Hc w. destruct (Hc w) as (t & Ht & HP). exists t.
  split; [exact Ht | eapply Forall_impl; eassumption].
Qed.












Lemma returned_run_sample :
  trace (run_pipeline (sample_env [("0", [("FOO", "bar")])]) sample_orchestrator
                      (world_with [] [] [acct_completed])).2
  = [PackBatchScript [PStr "echo $FOO"] "stage/script.sh";
     OpenWrite "stage/entrypoint.sh"
       (ENTRYPOINT "Local" "Manual" "stage/script.sh" (paths_under "stage"));
     Chmod "stage/entrypoint.sh" 509;
     OpenWrite "stage/jobs/0/setup.sh"
       (setup_script (Localizer__init__ (sample_env []) true true None None) "0" ["FOO"] [export_line "FOO" "bar"]
          ["if [[ -d $CANINE_JOB_INPUTS ]]; then cd $CANINE_JOB_INPUTS; fi"] "");
     Chmod "stage/jobs/0/setup.sh" 509;
     WaitForClusterReady;
     Sbatch "stage/entrypoint.sh" "0-0" "stage/jobs/%a/workspace/stdout"
            "stage/jobs/%a/workspace/stderr" [];
     Sacct;
     Invoke "rm -rf stage";
     ParseOutputs [("0", [])];
     Sacct].
Proof. vm_compute. reflexivity. Qed.

(** ** Common files *)

Lemma localize_common_step (E : Env) (self : Localizer) (cd cd' : gmap string string)
    (path : string) (w w' : World) :
  localize_common E self cd path w = (Ok cd', w') ->
  host_files w' = host_files w
  /\ (stageable self (host_files w) path -> cd' !! path = Some (common_dest self path))
  /\ (forall p, p <> path -> cd' !! p = cd !! p).
Proof.
  intros H.
  assert (Hhost : host_files w' = host_files w).
  { pose proof (keeps_localize_common E self cd path w) as Hk. rewrite H in Hk. apply Hk. }
  split; [exact Hhost|]. unfold localize_common in H. fold (common_dest self path) in H.
  destruct (Str.startswith "gs://" path && localize_gs self) eqn:Hgs.
  - apply bind_Ok in H as (rp & w1 & _ & H). apply bind_Ok in H as (rc & w2 & _ & H).
    apply bind_Ok in H as (u & w3 & _ & H). apply bind_Ok in H as (u' & w4 & _ & H).
    apply ret_Ok in H as [<- _]. split.
    + intros _. apply lookup_insert_eq.
    + intros p Hp. now apply lookup_insert_ne.
  - apply bind_Ok in H as (isf & w1 & Hisf & H).
    unfold os_path_isfile, gets in Hisf. injection Hisf as <- <-.
    case_bool_decide as Hfile.
    + apply bind_Ok in H as (u & w2 & _ & H). apply ret_Ok in H as [<- _]. split.
      * intros _. apply lookup_insert_eq.
      * intros p Hp. now apply lookup_insert_ne.
    + apply bind_Ok in H as (u & w2 & _ & H). apply ret_Ok in H as [<- _]. split.
      * intros [Hs|Hs]; [congruence | contradiction].
      * reflexivity.
Qed.

Lemma common_dests_cover (E : Env) (self : Localizer) (l : list string) :
  forall (cd0 cd : gmap string string) (w0 w1 : World),
    for_fold (localize_common E self) l cd0 w0 = (Ok cd, w1) ->
    forall p, stageable self (host_files w0) p ->
              p ∈ l \/ cd0 !! p = Some (common_dest self p) ->
              cd !! p = Some (common_dest self p).
Proof.
  induction l as [|x l IH]; intros cd0 cd w0 w1 H p Hp Hin; cbn [for_fold] in H.
  - apply ret_Ok in H as [<- _]. destruct Hin as [Hin|Hin]; [|exact Hin].
    apply elem_of_nil in Hin. contradiction.
  - apply bind_Ok in H as (cd1 & wx & Hstep & H).
    apply localize_common_step in Hstep as (Hhost & Hset & Hother).
    apply (IH cd1 cd wx w1 H p); [now rewrite Hhost|].
    destruct (decide (p = x)) as [->|Hne].
    + right. now apply Hset.
    + destruct Hin as [Hin|Hin].
      * left. apply elem_of_cons in Hin as [Hin|Hin]; [contradiction | exact Hin].
      * right. now rewrite Hother.
Qed.

Lemma localize_inputs_other (E : Env) (self : Localizer)
    (ov : list (string * option string)) (cd : gmap string string) (jobId arg : string)
    (data : list (string * string)) :
  arg ∉ data.*1 ->
  forall record w record' w',
    for_fold (localize_input E self ov cd jobId) data record w = (Ok record', w') ->
    Dict.get arg record' = Dict.get arg record.
Proof.
  induction data as [|[k v] data IH]; intros Hout record w record' w' H; cbn [for_fold] in H.
  - now apply ret_Ok in H as [<- _].
  - apply bind_Ok in H as (r1 & w1 & Hstep & H).
    cbn in Hout. apply not_elem_of_cons in Hout as [Hne Hout].
    rewrite (IH Hout _ _ _ _ H).
    eapply localize_input_other_key; [|exact Hstep]. congruence.
Qed.

Lemma localize_inputs_common (E : Env) (self : Localizer)
    (ov : list (string * option string)) (cd : gmap string string)
    (jobId arg value dest : string) (data : list (string * string)) :
  Dict.get arg ov = None ->
  cd !! value = Some dest ->
  NoDup data.*1 ->
  (arg, value) ∈ data ->
  forall record w record' w',
    for_fold (localize_input E self ov cd jobId) data record w = (Ok record', w') ->
    Dict.get arg record' = Some (mkLocalization None dest).
Proof.
  intros Hov Hcd. induction data as [|[k v] data IH]; intros Hnd Hin record w record' w' H.
  - apply elem_of_nil in Hin. contradiction.
  - cbn [for_fold] in H. apply bind_Ok in H as (r1 & w1 & Hstep & H).
    cbn in Hnd. apply NoDup_cons in Hnd as [Hk Hnd].
    apply elem_of_cons in Hin as [[= <- <-]|Hin].
    + rewrite (localize_inputs_other E self ov cd jobId arg data Hk _ _ _ _ H).
      unfold localize_input in Hstep. rewrite Hov, Hcd in Hstep.
      apply ret_Ok in Hstep as [<- _]. apply Dict_get_set_eq.
    + eapply IH; eassumption.
Qed.

Lemma localize_tasks_get (E : Env) (self : Localizer)
    (ov : list (string * option string)) (cd : gmap string string) (jobId : string)
    (data : list (string * string)) (job_spec : list (string * list (string * string))) :
  NoDup job_spec.*1 ->
  (jobId, data) ∈ job_spec ->
  forall ins w ins' w',
    for_fold (localize_task E self ov cd) job_spec ins w = (Ok ins', w') ->
    exists record w1 w2,
      Dict.get jobId ins' = Some record
      /\ for_fold (localize_input E self ov cd jobId) data [] w1 = (Ok record, w2).
Proof.
  induction job_spec as [|[j d] job_spec IH]; intros Hnd Hin ins w ins' w' H.
  - apply elem_of_nil in Hin. contradiction.
  - cbn [for_fold] in H. apply bind_Ok in H as (ins1 & w1 & Hstep & H).
    cbn in Hnd. apply NoDup_cons in Hnd as [Hj Hnd].
    apply elem_of_cons in Hin as [[= <- <-]|Hin].
    + apply localize_task_shape in Hstep as (record & wa & wb & -> & Hrec).
      exists record, wa, wb. split; [|exact Hrec]. cbn [fst] in *.
      assert (Hkeep : forall l i w0 i' w0',
                 jobId ∉ l.*1 ->
                 for_fold (localize_task E self ov cd) l i w0 = (Ok i', w0') ->
                 Dict.get jobId i' = Dict.get jobId i).
      { clear. induction l as [|[j d] l IHl]; intros i w0 i' w0' Hout Hf; cbn [for_fold] in Hf.
        - now apply ret_Ok in Hf as [<- _].
        - apply bind_Ok in Hf as (i1 & w1 & Hs & Hf).
          cbn in Hout. apply not_elem_of_cons in Hout as [Hne Hout].
          rewrite (IHl _ _ _ _ Hout Hf).
          apply localize_task_shape in Hs as (r & _ & _ & -> & _).
          apply Dict_get_set_ne. cbn. congruence. }
      rewrite (Hkeep _ _ _ _ _ Hj H). apply Dict_get_set_eq.
    + eapply IH; eassumption.
Qed.

(** X26. A file that ends up in the common set is recorded for every task
    that names it without override as lying in the common area: when
    [localize] returns, the task's entry holds for that input a record of
    type none whose path is [<common>/<base name>] on the workers,
    provided the file could be staged (it is a file of the invoking host,
    or a [gs://] path with [localize_gs] on). *)
Theorem shared_file_is_recorded_under_common :
  forall (E : Env) (self self' : Localizer)
         (job_spec : list (string * list (string * string)))
         (overrides : option (list (string * pyval))) (w w' : World)
         (jobId arg value : string) (data : list (string * string)),
    localize E self job_spec overrides w = (Ok self', w') ->
    NoDup job_spec.*1 ->
    (jobId, data) ∈ job_spec ->
    NoDup data.*1 ->
    (arg, value) ∈ data ->
    Dict.get arg (normalize_overrides (default [] overrides)) = None ->
    value ∈ common_inputs self' ->
    stageable self (host_files w) value ->
    exists record,
      Dict.get jobId (inputs self') = Some record
      /\ Dict.get arg record = Some (mkLocalization None (common_dest self value)).
Proof.
  intros E self self' job_spec overrides w w' jobId arg value data
         Hrun Hjobs Hjob Hargs Harg Hov Hcommon Hstage.
  unfold localize in Hrun.
  apply bind_Ok in Hrun as (cd & w1 & Hcd & Hrun).
  apply bind_Ok in Hrun as (ins & w2 & Hins & Hrun).
  apply ret_Ok in Hrun as [<- _]. cbn [inputs common_inputs with_inputs] in *.
  assert (Hdest : cd !! value = Some (common_dest self value)).
  { eapply common_dests_cover; [exact Hcd | exact Hstage|]. left.
    apply elem_of_elements. exact Hcommon. }
  destruct (localize_tasks_get E self _ cd jobId data job_spec Hjobs Hjob _ _ _ _ Hins)
    as (record & wa & wb & Hget & Hrec).
  exists record. split; [exact Hget|].
  eapply localize_inputs_common; eassumption.
Qed.

Lemma shared_file_is_recorded_under_common_witness :
  exists record,
    Dict.get "1" (inputs (with_inputs sample_localizer {["/d/ref.fa"]}
                            [("0", [("ref", mkLocalization None "/mnt/stage/common/ref.fa")]);
                             ("1", [("ref", mkLocalization None "/mnt/stage/common/ref.fa")])]))
    = Some record
    /\ Dict.get "ref" record
       = Some (mkLocalization None (common_dest sample_localizer "/d/ref.fa")).
Proof.
  apply (shared_file_is_recorded_under_common (sample_env []) sample_localizer _
           [("0", [("ref", "/d/ref.fa")]); ("1", [("ref", "/d/ref.fa")])] None
           (world_with ["/d/ref.fa"] [] [])
           (mkWorld {["/d/ref.fa"]} ∅ {["stage/common/ref.fa"]}
                    (list_to_set ["stage/jobs/0/workspace"; "stage/jobs/0"; "stage/jobs"; "stage";
                                  "stage/jobs/1/workspace"; "stage/jobs/1"])
                    ∅ [] [Send "/d/ref.fa" "stage/common/ref.fa"])
           "1" "ref" "/d/ref.fa" [("ref", "/d/ref.fa")]).
  - vm_compute. reflexivity.
  - apply (bool_decide_unpack _). vm_compute. exact I.
  - apply (bool_decide_unpack _). vm_compute. exact I.
  - apply (bool_decide_unpack _). vm_compute. exact I.
  - apply (bool_decide_unpack _). vm_compute. exact I.
  - reflexivity.
  - cbn. set_solver.
  - right. apply (bool_decide_unpack _). vm_compute. exact I.
Defined.

(** ** What a delocalization that returns has done *)



(** ** Entering with a plain staging directory *)

Lemma rstrip_char_free (c : ascii) (s : string) :
  Str.contains_char c s = false -> Str.rstrip_char c s = s.
Proof.
  induction s as [|a s IH]; [reflexivity|]. cbn. intros H.
  apply orb_false_iff in H as [Ha Hs]. rewrite (IH Hs).
  destruct s; [now rewrite Ha | reflexivity].
Qed.

Lemma all_chars_free (c : ascii) (s t : string) :
  s <> "" -> Str.contains_char c s = false ->
  Str.all_chars (fun a => bool_decide (a = c)) (s +:+ t) = false.
Proof.
  destruct s as [|a s]; [congruence|]. intros _ H. cbn in H.
  apply orb_false_iff in H as [Ha _]. rewrite String_app_cons. cbn. now rewrite Ha.
Qed.

Lemma child_of_plain_name (s b : string) :
  s <> "" -> Str.contains_char posixpath.sep s = false ->
  Str.contains_char posixpath.sep b = false ->
  posixpath.dirname (posixpath.join s [b]) = s.
Proof.
  intros Hne Hs Hb. unfold posixpath.join. cbn [foldl]. unfold posixpath.join2.
  rewrite startswith_sep_free by exact Hb.
  rewrite bool_decide_eq_false_2 by exact Hne.
  rewrite endswith_char_sep_free by exact Hs. cbn [orb].
  unfold posixpath.dirname.
  change (s +:+ "/" +:+ b) with (s +:+ String posixpath.sep b).
  rewrite rsplit_at_app by exact Hb.
  rewrite all_chars_free by assumption.
  change (s +:+ "/") with (s +:+ String posixpath.sep "").
  rewrite rstrip_char_snoc. now apply rstrip_char_free.
Qed.

Lemma enter_step_makes (d : string) (w : World) :
  d ∉ ctrl_files w ->
  posixpath.dirname d = "" \/ posixpath.dirname d ∈ ctrl_dirs w ->
  (isd <- transport_isdir d ;; if isd then ret tt else transport_mkdir d) w
  = (Ok tt, mkWorld (host_files w) (host_dirs w) (ctrl_files w) (ctrl_dirs w ∪ {[d]})
                    (requester_pays w) (sacct_feed w) (trace w)).
Proof.
  intros Hfile Hparent.
  destruct (decide (d ∈ ctrl_dirs w)) as [Hd|Hd].
  - rewrite enter_step_there by exact Hd. f_equal. destruct w. cbn in *. f_equal. set_solver.
  - unfold transport_isdir, transport_mkdir, transport_exists, ctrl_exists, set_ctrl_dirs,
      modify, gets, bind, ret.
    rewrite (bool_decide_eq_false_2 (d ∈ ctrl_dirs w)) by exact Hd.
    rewrite (bool_decide_eq_false_2 (d ∈ _ ∪ _)) by set_solver.
    destruct Hparent as [Hp|Hp].
    + rewrite (bool_decide_eq_true_2 (_ = "")) by exact Hp. reflexivity.
    + rewrite (bool_decide_eq_true_2 (_ ∈ ctrl_dirs w)) by exact Hp.
      rewrite orb_true_r. reflexivity.
Qed.

(** X28. A localizer built for a staging directory that is a plain name (not
    empty, without [/], and not the word [SBCAST]) can be entered whenever
    none of the four paths of its staging tree is a file on the controller:
    directories that are there are kept, the others are made. *)
Theorem plain_staging_directory_can_be_entered :
  forall (E : Env) (localize_gs common : bool) (s : string) (mount : option string) (w : World),
    s <> "" -> s <> "SBCAST" ->
    Str.contains_char posixpath.sep s = false ->
    (forall d, d ∈ staging_tree (Localizer__init__ E localize_gs common (Some s) mount) ->
               d ∉ ctrl_files w) ->
    Localizer__enter__ (Localizer__init__ E localize_gs common (Some s) mount) w
    = (Ok (Localizer__init__ E localize_gs common (Some s) mount),
       mkWorld (host_files w) (host_dirs w) (ctrl_files w)
               (ctrl_dirs w
                  ∪ list_to_set (staging_tree (Localizer__init__ E localize_gs common (Some s) mount)))
               (requester_pays w) (sacct_feed w) (trace w)).
Proof.
  intros E lg c s mount w Hne Hsb Hs Hfiles.
  assert (Htree : staging_tree (Localizer__init__ E lg c (Some s) mount)
                  = [s; posixpath.join s ["common"]; posixpath.join s ["outputs"];
                     posixpath.join s ["jobs"]]).
  { unfold staging_tree, Localizer__init__.
    rewrite bool_decide_eq_false_2 by congruence. reflexivity. }
  rewrite Htree in *.
  assert (Hroot : posixpath.dirname s = "").
  { unfold posixpath.dirname. now rewrite rsplit_at_None. }
  unfold Localizer__enter__.
  change (CANINE_ROOT (env (Localizer__init__ E lg c (Some s) mount))
          :: CANINE_COMMON (env (Localizer__init__ E lg c (Some s) mount))
          :: CANINE_OUTPUT (env (Localizer__init__ E lg c (Some s) mount))
          :: CANINE_JOBS (env (Localizer__init__ E lg c (Some s) mount)) :: [])
    with (staging_tree (Localizer__init__ E lg c (Some s) mount)).
  rewrite Htree. cbn [for_fold].
  unfold bind at 1. unfold bind at 1.
  rewrite enter_step_makes; [|apply Hfiles; set_solver | now left].
  unfold bind at 1.
  rewrite enter_step_makes;
    [|apply Hfiles; set_solver
     |right; rewrite child_of_plain_name by (assumption || reflexivity); cbn; set_solver].
  unfold bind at 1.
  rewrite enter_step_makes;
    [|apply Hfiles; set_solver
     |right; rewrite child_of_plain_name by (assumption || reflexivity); cbn; set_solver].
  unfold bind at 1.
  rewrite enter_step_makes;
    [|apply Hfiles; set_solver
     |right; rewrite child_of_plain_name by (assumption || reflexivity); cbn; set_solver].
  cbn. unfold ret. f_equal. f_equal. set_solver.
Qed.

Lemma plain_staging_directory_can_be_entered_witness :
  Localizer__enter__ (Localizer__init__ (sample_env []) true true (Some "run1") None)
                     (world_with [] [] [])
  = (Ok (Localizer__init__ (sample_env []) true true (Some "run1") None),
     mkWorld (host_files (world_with [] [] [])) (host_dirs (world_with [] [] []))
             (ctrl_files (world_with [] [] []))
             (ctrl_dirs (world_with [] [] [])
                ∪ list_to_set (staging_tree
                                 (Localizer__init__ (sample_env []) true true (Some "run1") None)))
             (requester_pays (world_with [] [] [])) (sacct_feed (world_with [] [] []))
             (trace (world_with [] [] []))).
Proof.
  apply (plain_staging_directory_can_be_entered (sample_env []) true true "run1" None).
  - discriminate.
  - discriminate.
  - reflexivity.
  - intros d _. cbn. set_solver.
Defined.
